(** * Dice-Game: the fair-random protocol and the win-probability engine

    A shallow embedding of the two JavaScript programs of the repository,
    [game.js] (module [GameJs]) and the second variant of the game
    (module [Variant]), followed by the properties proved about them.

    Conventions of the embedding.
    - A JavaScript number that the programs hold in a variable is an
      integer, an infinity or [NaN] ([JS.number]). What they read from a
      string, divide or multiply is rounded as a double is
      ([JS.nearest_double]); the sums and remainders they form are of
      indices and 32-bit draws, where integer arithmetic is exact.
    - [undefined] (an array read out of range, an unset field) is [None].
    - The Node runtime is a [world]: the bytes [crypto.randomBytes] will
      deliver, the answers [crypto.randomInt] will give, the lines the user
      will type, whether a terminal is there once they are used up, and
      the console transcript written so far.
    - [crypto.createHmac('sha3-256', key)] is a parameter of the model
      ([hmac_sha3_256]): the programs only call it.
    - A line on the console is a [message] that carries the values
      interpolated into it; colours and the drawing of the table by
      cli-table3 are left out, the cells of the table are kept.
    - A string is held as the bytes of its UTF-8 encoding; the white
      space that [trim], [parseInt] and [Number] drop includes that of
      Unicode.

    Of the second variant the dice configuration, the probability
    calculator and table, the random generator and the turn-order decision
    are embedded; the question of its readline interface is asked
    synchronously. Its round ([playRound], with [Math.random]) has no part
    in the protocol and is left out. *)

From stdpp Require Import base numbers list strings pretty.
From Stdlib Require Import ZArith Lia.
From Stdlib.Strings Require Import Ascii Byte.

Open Scope Z_scope.

(** ** JavaScript values *)

Module JS.

(** The numbers the programs hold in variables: integers, the two
    infinities ([parseInt] of a very long run of digits) and NaN. *)
Inductive number := Int (z : Z) | Inf (negative : bool) | NaN.

(** [a + b]. The sums the programs form are of indices and 32-bit draws,
    far below 2^53, where the sum of two integers is exact. *)
Definition add (a b : number) : number :=
  match a, b with
  | Int x, Int y => Int (x + y)
  | Inf s, Int _ | Int _, Inf s => Inf s
  | Inf s, Inf t => if Bool.eqb s t then Inf s else NaN
  | _, _ => NaN
  end.

Definition sub (a b : number) : number :=
  match a, b with
  | Int x, Int y => Int (x - y)
  | Inf s, Int _ => Inf s
  | Int _, Inf t => Inf (negb t)
  | Inf s, Inf t => if Bool.eqb s t then NaN else Inf s
  | _, _ => NaN
  end.

(** [a % b]: the remainder takes the sign of the dividend; [x % 0] and
    the remainder of an infinity are NaN, [x % Infinity] is [x]. *)
Definition rem (a b : number) : number :=
  match a, b with
  | Int x, Int y => if y =? 0 then NaN else Int (Z.rem x y)
  | Int x, Inf _ => Int x
  | _, _ => NaN
  end.

(** Comparisons with NaN are false. *)
Definition ge (a b : number) : bool :=
  match a, b with
  | Int x, Int y => y <=? x
  | Inf s, Int _ => negb s
  | Int _, Inf t => t
  | Inf s, Inf t => negb s || t
  | _, _ => false
  end.

Definition gt (a b : number) : bool :=
  match a, b with
  | Int x, Int y => y <? x
  | Inf s, Int _ => negb s
  | Int _, Inf t => t
  | Inf s, Inf t => negb s && t
  | _, _ => false
  end.

Definition lt (a b : number) : bool := gt b a.

(** [a === b] on numbers. *)
Definition strict_eq (a b : number) : bool :=
  match a, b with
  | Int x, Int y => x =? y
  | Inf s, Inf t => Bool.eqb s t
  | _, _ => false
  end.

Definition isNaN (a : number) : bool :=
  match a with
  | NaN => true
  | _ => false
  end.

(** [n.toString()]. *)
Definition toString (n : number) : string :=
  match n with
  | Int z => pretty z
  | Inf false => "Infinity"
  | Inf true => "-Infinity"
  | NaN => "NaN"
  end.

(** [undefined] converts to NaN where a number is expected. *)
Definition toNumber (v : option number) : number :=
  match v with
  | Some n => n
  | None => NaN
  end.

(** [arr.includes(x)] on an array of integers: NaN and the infinities
    are never found. *)
Definition includes (arr : list Z) (x : number) : bool :=
  match x with
  | Int z => existsb (Z.eqb z) arr
  | _ => false
  end.

(** [[...Array(n).keys()]]. *)
Definition keys (n : nat) : list Z := map Z.of_nat (seq 0 n).

(** *** Doubles

    Where the programs round, the rounding of the IEEE 754 double is
    modelled: to the nearest of the numbers [m * 2^e] with [m < 2^53] and
    [e >= -1074], to the one with the even [m] on a tie, and to an
    infinity from 2^1024 - 2^970 on. This is what a quotient of two
    counts, a product and the value of a decimal literal go through. *)

(** [num / den] rounded to the nearest integer, to the even one on a
    tie, for [0 <= num] and [0 < den]. *)
Definition nearest_even (num den : Z) : Z :=
  let q := num / den in
  let r := 2 * (num mod den) in
  if r <? den then q
  else if den <? r then q + 1
  else if Z.even q then q else q + 1.

(** The integer part of the binary logarithm of [num / den], for
    [0 < num] and [0 < den]. *)
Definition floor_log2 (num den : Z) : Z :=
  let k := Z.log2 num - Z.log2 den in
  if (if 0 <=? k then den * 2 ^ k <=? num else den <=? num * 2 ^ (- k))
  then k else k - 1.

(** A double that is not negative: [m * 2^e], the infinity, or NaN. *)
Inductive double := Double (m e : Z) | DoubleInfinity | DoubleNaN.

(** The double nearest to [num / den], for [0 <= num] and [0 < den]. *)
Definition nearest_double (num den : Z) : double :=
  if num =? 0 then Double 0 0
  else
    let e := Z.max (floor_log2 num den - 52) (- 1074) in
    let m := if 0 <=? e then nearest_even num (den * 2 ^ e)
             else nearest_even (num * 2 ^ (- e)) den in
    if (971 <? e) || ((e =? 971) && (m =? 2 ^ 53)) then DoubleInfinity
    else Double m e.

(** [num / den] for two counts: [0 / 0] is NaN and [x / 0] the infinity. *)
Definition divide (num den : Z) : double :=
  if den =? 0 then (if num =? 0 then DoubleNaN else DoubleInfinity)
  else nearest_double num den.

(** [x * k] for a positive integer [k]. *)
Definition times (x : double) (k : Z) : double :=
  match x with
  | Double m e =>
      if 0 <=? e then nearest_double (k * m * 2 ^ e) 1
      else nearest_double (k * m) (2 ^ (- e))
  | DoubleInfinity => DoubleInfinity
  | DoubleNaN => DoubleNaN
  end.

(** Whether the double [m * 2^e] is an integer, and its integer part. *)
Definition is_integral (m e : Z) : bool := (0 <=? e) || (m mod 2 ^ (- e) =? 0).

Definition integer_part (m e : Z) : Z := if 0 <=? e then m * 2 ^ e else m / 2 ^ (- e).

(** *** Buffers *)

Definition byte_value (b : byte) : Z := Z.of_N (Byte.to_N b).

(** [buf.readUInt32BE(0)] on a buffer of four bytes. *)
Definition readUInt32BE (buf : list byte) : Z :=
  fold_left (fun acc b => acc * 256 + byte_value b) buf 0.

Definition hex_digit (n : Z) : ascii :=
  if n <? 10 then ascii_of_N (Z.to_N (48 + n)) else ascii_of_N (Z.to_N (87 + n)).

(** [buf.toString('hex')]: two lower-case digits per byte. *)
Fixpoint toHex (buf : list byte) : string :=
  match buf with
  | [] => EmptyString
  | b :: rest =>
      String (hex_digit (byte_value b / 16))
        (String (hex_digit (byte_value b mod 16)) (toHex rest))
  end.

Definition hex_value (c : ascii) : option Z :=
  let n := Z.of_N (N_of_ascii c) in
  if (48 <=? n) && (n <=? 57) then Some (n - 48)
  else if (97 <=? n) && (n <=? 102) then Some (n - 87)
  else if (65 <=? n) && (n <=? 70) then Some (n - 55)
  else None.

Definition byte_of_Z (n : Z) : byte :=
  match Byte.of_N (Z.to_N n) with
  | Some b => b
  | None => x00
  end.

(** [Buffer.from(s, 'hex')] on a string of whole bytes. *)
Fixpoint fromHex (s : string) : option (list byte) :=
  match s with
  | EmptyString => Some []
  | String hi (String lo rest) =>
      match hex_value hi, hex_value lo, fromHex rest with
      | Some h, Some l, Some bs => Some (byte_of_Z (16 * h + l) :: bs)
      | _, _, _ => None
      end
  | String _ EmptyString => None
  end.

(** The bytes of an ASCII string (its UTF-8 encoding). *)
Definition utf8 (s : string) : list byte := String.list_byte_of_string s.

(** *** Strings

    A string (a command-line argument, a line typed) is held as the
    bytes of its UTF-8 encoding. The white space and the line terminators
    of the language are TAB, LF, VT, FF, CR and SP, of one byte each,
    U+00A0 of two bytes, and U+1680, U+2000 to U+200A, U+2028, U+2029,
    U+202F, U+205F, U+3000 and U+FEFF of three bytes each. *)

Definition code (c : ascii) : Z := Z.of_N (N_of_ascii c).

Definition is_whitespace (c : ascii) : bool :=
  (code c =? 32) || ((9 <=? code c) && (code c <=? 13)).

(** U+00A0 is [C2 A0]. *)
Definition is_whitespace2 (c0 c1 : ascii) : bool :=
  (code c0 =? 194) && (code c1 =? 160).

(** U+1680 is [E1 9A 80]; U+2000 to U+200A, U+2028, U+2029 and U+202F are
    [E2 80 80] to [E2 80 8A], [E2 80 A8], [E2 80 A9] and [E2 80 AF];
    U+205F is [E2 81 9F]; U+3000 is [E3 80 80]; U+FEFF is [EF BB BF]. *)
Definition is_whitespace3 (c0 c1 c2 : ascii) : bool :=
  ((code c0 =? 225) && (code c1 =? 154) && (code c2 =? 128))
  || ((code c0 =? 226) && (code c1 =? 128)
      && (((128 <=? code c2) && (code c2 <=? 138))
          || (code c2 =? 168) || (code c2 =? 169) || (code c2 =? 175)))
  || ((code c0 =? 226) && (code c1 =? 129) && (code c2 =? 159))
  || ((code c0 =? 227) && (code c1 =? 128) && (code c2 =? 128))
  || ((code c0 =? 239) && (code c1 =? 187) && (code c2 =? 191)).

(** The string without the white space it starts with; [two] and [three]
    tell the white space of two and of three bytes. *)
Fixpoint strip (two : ascii -> ascii -> bool) (three : ascii -> ascii -> ascii -> bool)
    (s : string) : string :=
  match s with
  | EmptyString => EmptyString
  | String c0 rest0 =>
      if is_whitespace c0 then strip two three rest0
      else
        match rest0 with
        | String c1 rest1 =>
            if two c0 c1 then strip two three rest1
            else
              match rest1 with
              | String c2 rest2 => if three c0 c1 c2 then strip two three rest2 else s
              | EmptyString => s
              end
        | EmptyString => s
        end
  end.

Fixpoint reverse (s acc : string) : string :=
  match s with
  | EmptyString => acc
  | String c rest => reverse rest (String c acc)
  end.

Definition trimStart (s : string) : string := strip is_whitespace2 is_whitespace3 s.

(** White space at the end is found on the reversed string, its bytes in
    the reversed order. *)
Definition trimEnd (s : string) : string :=
  reverse
    (strip (fun c1 c0 => is_whitespace2 c0 c1) (fun c2 c1 c0 => is_whitespace3 c0 c1 c2)
       (reverse s EmptyString))
    EmptyString.

(** [s.trim()]. *)
Definition trim (s : string) : string := trimEnd (trimStart s).

Definition lower (c : ascii) : ascii :=
  if (65 <=? code c) && (code c <=? 90) then ascii_of_N (Z.to_N (code c + 32)) else c.

(** [s.toLowerCase()], on the letters of ASCII: the programs compare the
    result with [x] and with [?] only, and no other character is mapped
    to either. *)
Fixpoint toLowerCase (s : string) : string :=
  match s with
  | EmptyString => EmptyString
  | String c rest => String (lower c) (toLowerCase rest)
  end.

(** [s.split(',')]. *)
Fixpoint split_comma (s : string) : list string :=
  match s with
  | EmptyString => [EmptyString]
  | String c rest =>
      if Ascii.eqb c ","%char then EmptyString :: split_comma rest
      else
        match split_comma rest with
        | piece :: pieces => String c piece :: pieces
        | [] => [String c EmptyString]
        end
  end.

Definition digit_in (radix : Z) (c : ascii) : option Z :=
  match hex_value c with
  | Some d => if d <? radix then Some d else None
  | None => None
  end.

(** The longest prefix of [s] made of digits of [radix]: its value
    continuing [acc], how many digits it has, and the rest of [s]. *)
Fixpoint take_digits (radix : Z) (s : string) (acc : Z) (n : nat) : Z * nat * string :=
  match s with
  | EmptyString => (acc, n, s)
  | String c rest =>
      match digit_in radix c with
      | Some d => take_digits radix rest (radix * acc + d) (S n)
      | None => (acc, n, s)
      end
  end.

(** An optional sign: whether it is a minus, and the rest. *)
Definition take_sign (s : string) : bool * string :=
  match s with
  | String c rest =>
      if Ascii.eqb c "-"%char then (true, rest)
      else if Ascii.eqb c "+"%char then (false, rest)
      else (false, s)
  | EmptyString => (false, s)
  end.

Definition signed (negative : bool) (z : Z) : Z := if negative then - z else z.

(** The number that a run of digits of value [v] is read as: the double
    nearest to [v], which is [v] itself below 2^53 and an infinity from
    2^1024 - 2^970 on. *)
Definition integer_number (negative : bool) (v : Z) : number :=
  match nearest_double v 1 with
  | Double m e => Int (signed negative (integer_part m e))
  | _ => Inf negative
  end.

(** [parseInt(s, 10)]: leading white space, an optional sign, then the
    longest run of decimal digits; NaN when there is no digit. *)
Definition parseInt (s : string) : number :=
  let '(negative, body) := take_sign (trimStart s) in
  let '(v, n, _) := take_digits 10 body 0 0 in
  match n with
  | O => NaN
  | S _ => integer_number negative v
  end.

(** [parseInt(s)] with no radix: as above, except that digits after a
    [0x] or [0X] are read in base 16. *)
Definition parseInt_auto (s : string) : number :=
  let '(negative, body) := take_sign (trimStart s) in
  let '(radix, digits) :=
    match body with
    | String z (String p rest) =>
        if Ascii.eqb z "0"%char && Ascii.eqb (lower p) "x"%char then (16, rest)
        else (10, body)
    | _ => (10, body)
    end in
  let '(v, n, _) := take_digits radix digits 0 0 in
  match n with
  | O => NaN
  | S _ => integer_number negative v
  end.

(** What the literal of a string denotes: a decimal [m * 10^e], an
    infinity, or nothing ([NotANumber]). [Number(s)] is the double nearest
    to it; whether that is NaN is settled by the literal alone. *)
Inductive numeric :=
  | Finite (m e : Z)
  | Infinite (negative : bool)
  | NotANumber.

Definition finite (negative : bool) (m e : Z) : numeric := Finite (signed negative m) e.

(** The double nearest to the magnitude of [m * 10^e]. *)
Definition decimal_double (m e : Z) : double :=
  if 0 <=? e then nearest_double (Z.abs m * 10 ^ e) 1
  else nearest_double (Z.abs m) (10 ^ (- e)).

(** [0x], [0o] and [0b] literals: the prefix, then digits only. *)
Definition prefixed_literal (s : string) : option numeric :=
  match s with
  | String z (String p body) =>
      if Ascii.eqb z "0"%char then
        let radix :=
          if Ascii.eqb (lower p) "x"%char then Some 16
          else if Ascii.eqb (lower p) "o"%char then Some 8
          else if Ascii.eqb (lower p) "b"%char then Some 2
          else None in
        match radix with
        | Some r =>
            let '(v, n, rest) := take_digits r body 0 0 in
            match n, rest with
            | S _, EmptyString => Some (finite false v 0)
            | _, _ => Some NotANumber
            end
        | None => None
        end
      else None
  | _ => None
  end.

Definition take_fraction (s : string) (acc : Z) : Z * nat * string :=
  match s with
  | String c rest =>
      if Ascii.eqb c "."%char then take_digits 10 rest acc 0 else (acc, O, s)
  | EmptyString => (acc, O, s)
  end.

(** A decimal literal: sign, digits with an optional fraction (at least
    one digit in all), an optional exponent, and nothing after it. *)
Definition decimal_literal (s : string) : numeric :=
  let '(negative, body) := take_sign s in
  if String.eqb body "Infinity" then Infinite negative
  else
    let '(ip, ni, after_int) := take_digits 10 body 0 0 in
    let '(m, nf, after_frac) := take_fraction after_int ip in
    match (ni + nf)%nat with
    | O => NotANumber
    | S _ =>
        match after_frac with
        | EmptyString => finite negative m (- Z.of_nat nf)
        | String c exponent =>
            if Ascii.eqb (lower c) "e"%char then
              let '(eneg, edigits) := take_sign exponent in
              let '(ev, ne, rest) := take_digits 10 edigits 0 0 in
              match ne, rest with
              | S _, EmptyString => finite negative m (signed eneg ev - Z.of_nat nf)
              | _, _ => NotANumber
              end
            else NotANumber
        end
    end.

(** [Number(s)]: white space around the literal is dropped and the empty
    string is 0. *)
Definition Number (s : string) : numeric :=
  match trim s with
  | EmptyString => Finite 0 0
  | t =>
      match prefixed_literal t with
      | Some v => v
      | None => decimal_literal t
      end
  end.

(** The global [isNaN(s)] on a string: it converts with [Number] first. *)
Definition isNaN_string (s : string) : bool :=
  match Number s with
  | NotANumber => true
  | _ => false
  end.

(** [Number.isInteger] of the double nearest to the literal: a literal
    too small in magnitude is the integer 0, one that is too large is an
    infinity and no integer. *)
Definition isInteger (v : numeric) : bool :=
  match v with
  | Finite m e =>
      match decimal_double m e with
      | Double m2 e2 => is_integral m2 e2
      | _ => false
      end
  | _ => false
  end.

(** The integer an integral [numeric] is. *)
Definition integer_value (v : numeric) : Z :=
  match v with
  | Finite m e =>
      match decimal_double m e with
      | Double m2 e2 => signed (m <? 0) (integer_part m2 e2)
      | _ => 0
      end
  | _ => 0
  end.

(** *** [toFixed]

    The programs divide two counts and print the quotient, a double, with
    a fixed number of decimals: [toFixed] takes the integer [n] for which
    [n / 10^digits] is nearest to the double, the larger one on a tie,
    and writes its digits with the decimal point put back. *)

Definition round_half_up (num den : Z) : Z := (2 * num + den) / (2 * den).

Fixpoint zeros (n : nat) : string :=
  match n with
  | O => EmptyString
  | S n' => String "0"%char (zeros n')
  end.

(** The digits of a scaled integer with the decimal point put back. *)
Definition place_point (digits : nat) (s : string) : string :=
  let padded := zeros (S digits - String.length s) +:+ s in
  let whole := (String.length padded - digits)%nat in
  match digits with
  | O => padded
  | S _ => String.substring 0 whole padded +:+ "." +:+ String.substring whole digits padded
  end.

(** The integer [n] that [x.toFixed(digits)] writes for the double
    [x = m * 2^e]. *)
Definition fixed_digits (digits : nat) (m e : Z) : Z :=
  if 0 <=? e then m * 2 ^ e * 10 ^ Z.of_nat digits
  else round_half_up (m * 10 ^ Z.of_nat digits) (2 ^ (- e)).

(** [x.toFixed(digits)] for a double below 10^21, as every quotient of
    two counts and its percentage are. *)
Definition toFixed_double (digits : nat) (x : double) : string :=
  match x with
  | Double m e => place_point digits (pretty (fixed_digits digits m e))
  | DoubleInfinity => "Infinity"
  | DoubleNaN => "NaN"
  end.

(** [(num / den).toFixed(digits)] for counts [0 <= num], [0 <= den]. *)
Definition toFixed (digits : nat) (num den : Z) : string :=
  toFixed_double digits (divide num den).

End JS.

(** ** The runtime *)

(** One line of the console transcript. A [Said] line is a [console.log]
    or [console.error] with the values interpolated into it; [Asked] is one
    call of [readlineSync.question] with the line it returned. *)
Inductive message :=
  | MsgDetermineFirst
  | MsgCommitted (low high : JS.number) (digest : string)
  | MsgMySelection (value : JS.number) (keyhex : string)
  | MsgYouFirst
  | MsgIFirst
  | MsgLetsRoll
  | MsgMyNumber (value : JS.number) (keyhex : string)
  | MsgResult (input value result : JS.number) (modulus : Z)
  | MsgChooseDice
  | MsgDiceOption (index : Z) (faces : list JS.number)
  | MsgIChoose (faces : list JS.number)
  | MsgYourThrow (face : option JS.number)
  | MsgMyThrow (face : option JS.number)
  | MsgYouWin
  | MsgIWin
  | MsgTie
  | MsgExited
  | MsgInvalid
  | MsgTableTitle
  | MsgTableLegend (n : nat)
  | MsgTable (head : list (list JS.number)) (rows : list (list string))
  | MsgErrNoDice
  | MsgErrTooFew
  | MsgErrNonInteger (die : Z) (token : string)
  | MsgErrNotSix (die : Z)
  | MsgComputerHmac (digest : string)
  | MsgCorrect (keyhex : string)
  | MsgIncorrect (keyhex : string).

Inductive event :=
  | Said (m : message)
  | Asked (prompt : string) (answer : string).

(** The world of a run. [stdin] holds the lines typed at the terminal,
    in order, and [terminal] tells whether the terminal is still there
    once they have been read: a process that is started with no terminal
    has no line to read and no terminal, and one whose user types nothing
    more has a terminal and is left waiting. [stdout] is the console,
    newest line first. *)
Record world := World {
  entropy : list byte;
  randomInts : list Z;
  stdin : list string;
  stdout : list event;
  terminal : bool
}.

(** How a computation ends: it returns, the process exits, an exception
    propagates, or the world has no more to offer (the recorded entropy or
    input is used up: the program would wait). *)
Inductive outcome (A : Type) :=
  | Ret (a : A)
  | Exit (code : Z)
  | Throw (error : string)
  | Stall.
Arguments Ret {A} a.
Arguments Exit {A} code.
Arguments Throw {A} error.
Arguments Stall {A}.

Definition M (A : Type) : Type := world -> outcome A * world.

Definition ret {A} (a : A) : M A := fun w => (Ret a, w).

Definition bind {A B} (m : M A) (k : A -> M B) : M B :=
  fun w =>
    match m w with
    | (Ret a, w') => k a w'
    | (Exit c, w') => (Exit c, w')
    | (Throw e, w') => (Throw e, w')
    | (Stall, w') => (Stall, w')
    end.

Declare Scope js_scope.
Delimit Scope js_scope with js.
Notation "x <- m ;; k" := (bind m (fun x => k))
  (at level 100, m at next level, right associativity) : js_scope.
Notation "m ;;; k" := (bind m (fun _ => k))
  (at level 100, right associativity) : js_scope.

(** The transcript is kept newest first. *)
Definition say (m : message) : M unit :=
  fun w => (Ret tt, World (entropy w) (randomInts w) (stdin w) (Said m :: stdout w) (terminal w)).

Definition exit {A} (code : Z) : M A := fun w => (Exit code, w).

Definition throw {A} (error : string) : M A := fun w => (Throw error, w).

Definition transcript (w : world) : list event := rev (stdout w).

(** The error of readline-sync when it has no terminal to read from. *)
Definition no_terminal : string :=
  "The current environment doesn't support interactive reading from TTY.".

(** [readlineSync.question(prompt)]: the next line typed at the
    terminal; past the lines of the world it waits when the terminal is
    there and throws the error of readline-sync when there is none to
    read from. *)
Definition question (prompt : string) : M string :=
  fun w =>
    match stdin w with
    | [] => if terminal w then (Stall, w) else (Throw no_terminal, w)
    | line :: rest =>
        (Ret line,
         World (entropy w) (randomInts w) rest (Asked prompt line :: stdout w) (terminal w))
    end.

(** [rl.question(prompt, callback)] of Node's readline, whose callback
    the second variant awaits: the next line of the input; past the lines
    of the world the callback is not called. *)
Definition rl_question (prompt : string) : M string :=
  fun w =>
    match stdin w with
    | [] => (Stall, w)
    | line :: rest =>
        (Ret line,
         World (entropy w) (randomInts w) rest (Asked prompt line :: stdout w) (terminal w))
    end.

(** [crypto.randomBytes(n)]. *)
Definition randomBytes (n : nat) : M (list byte) :=
  fun w =>
    if (n <=? length (entropy w))%nat
    then (Ret (take n (entropy w)),
          World (drop n (entropy w)) (randomInts w) (stdin w) (stdout w) (terminal w))
    else (Stall, w).

(** [crypto.randomInt(max)] for a [max] below 2^48, as the length of an
    array and the literal 2 that the programs pass are: a RangeError
    unless [0 < max]; otherwise the next recorded answer, which has to
    lie in [0, max). *)
Definition randomInt (max : Z) : M Z :=
  fun w =>
    if max <=? 0 then (Throw "ERR_OUT_OF_RANGE", w)
    else
      match randomInts w with
      | r :: rest =>
          if (0 <=? r) && (r <? max)
          then (Ret r, World (entropy w) rest (stdin w) (stdout w) (terminal w))
          else (Stall, w)
      | [] => (Stall, w)
      end.

(** ** game.js *)

Module GameJs.

Import JS.

(** *** class FairRandom *)

Record FairRandom := {
  rangeMax : Z;
  key : list byte;
  value : number;
  hmac : string
}.

(** [limit = 2 ** 32 - (2 ** 32 % max)]. *)
Definition limit (max : Z) : number :=
  sub (Int (2 ^ 32)) (rem (Int (2 ^ 32)) (Int max)).

(** The 32-bit draws a byte stream holds, four bytes each. *)
Fixpoint draws (bs : list byte) : list Z :=
  match bs with
  | b0 :: b1 :: b2 :: b3 :: rest => readUInt32BE [b0; b1; b2; b3] :: draws rest
  | _ => []
  end.

(** [do { rand = crypto.randomBytes(4).readUInt32BE(0) } while (rand >= limit)]:
    the accepted draw and the bytes left, or nothing when the stream ends
    before a draw is accepted. *)
Fixpoint draw_until (lim : number) (bs : list byte) : option (Z * list byte) :=
  match bs with
  | b0 :: b1 :: b2 :: b3 :: rest =>
      let rand := readUInt32BE [b0; b1; b2; b3] in
      if ge (Int rand) lim then draw_until lim rest else Some (rand, rest)
  | _ => None
  end.

(** The sampler on a byte stream: [rand % max] for the accepted draw. *)
Definition sample (max : Z) (bs : list byte) : option (number * list byte) :=
  match draw_until (limit max) bs with
  | Some (rand, rest) => Some (rem (Int rand) (Int max), rest)
  | None => None
  end.

Definition generateUniformRandom (max : Z) : M number :=
  fun w =>
    match sample max (entropy w) with
    | Some (v, rest) => (Ret v, World rest (randomInts w) (stdin w) (stdout w) (terminal w))
    | None => (Stall, w)
    end.

Section Crypto.

(** [crypto.createHmac('sha3-256', key).update(data).digest('hex')]. *)
Variable hmac_sha3_256 : list byte -> list byte -> string.

Definition calculateHMAC (key : list byte) (value : number) : string :=
  hmac_sha3_256 key (utf8 (toString value)).

(** [new FairRandom(rangeMax)]. *)
Definition FairRandom_new (rangeMax : Z) : M FairRandom :=
  (key <- randomBytes 32;;
   value <- generateUniformRandom rangeMax;;
   ret {| rangeMax := rangeMax; key := key; value := value;
          hmac := calculateHMAC key value |})%js.

End Crypto.

Definition revealKey (f : FairRandom) : string := toHex (key f).

Definition getValue (f : FairRandom) : number := value f.

(** *** class Dice *)

Record Dice := { values : list number }.

(** [this.values[index]]. *)
Definition roll (d : Dice) (index : number) : option number :=
  match index with
  | Int z => if z <? 0 then None else values d !! Z.to_nat z
  | _ => None
  end.

(** *** class ProbabilityCalculator *)

(** A cell of the table: the [0] it is filled with, or the text that
    [toFixed(4)] returned. *)
Inductive cell := Zero | Fixed (text : string).

(** The two [forEach] loops over the faces: [wins++] when [v1 > v2]. *)
Definition count_wins (d1 d2 : Dice) : Z :=
  fold_left
    (fun wins v1 =>
       fold_left (fun wins v2 => if gt v1 v2 then wins + 1 else wins) (values d2) wins)
    (values d1) 0.

(** [wins] and [total] as the callback of a pair of dice has them when it
    writes its cell. *)
Definition cell_counts (d1 d2 : Dice) : Z * Z :=
  let wins := count_wins d1 d2 in
  let total := Z.of_nat (length (values d1)) * Z.of_nat (length (values d2)) in
  (wins, total).

Definition cell_of (d1 d2 : Dice) : cell :=
  let '(wins, total) := cell_counts d1 d2 in Fixed (toFixed 4 wins total).

(** [arr.forEach((x, i) => ...)] visits the pairs of [indexed arr]. *)
Definition indexed {A} (l : list A) : list (nat * A) := imap pair l.

(** The table is [n] rows of [n] zeros, each row an array of its own;
    [table[i][j] = ...] is written for [i, j < n] only, inside the table. *)
Definition calculateProbabilities (diceList : list Dice) : list (list cell) :=
  let n := length diceList in
  let table := replicate n (replicate n Zero) in
  fold_left
    (fun table '(i, d1) =>
       fold_left
         (fun table '(j, d2) =>
            if (i =? j)%nat then table
            else alter (insert j (cell_of d1 d2)) i table)
         (indexed diceList) table)
    (indexed diceList) table.

Definition cell_text (c : cell) : string :=
  match c with
  | Zero => "0"
  | Fixed text => text
  end.

(** The cells of one row as [displayTable] pushes them after the label. *)
Definition display_row (i : nat) (row : list cell) : list string :=
  imap (fun j prob =>
          if (i =? j)%nat then "- (" +:+ cell_text prob +:+ ")" else cell_text prob)
       row.

Definition displayTable (diceList : list Dice) : M unit :=
  (let probabilities := calculateProbabilities diceList in
   say MsgTableTitle;;;
   say (MsgTableLegend 1);;;
   say (MsgTableLegend 2);;;
   say (MsgTable (map values diceList)
          (imap (fun i _ => display_row i (default [] (probabilities !! i))) diceList)))%js.

(** *** class DiceGame *)

Record DiceGame := {
  dice : list Dice;
  availableDice : list Dice;
  userDice : option Dice;
  computerDice : option Dice
}.

(** [new DiceGame(diceConfigs)]. *)
Definition DiceGame_new (diceConfigs : list Dice) : DiceGame :=
  let dice := map (fun config => {| values := values config |}) diceConfigs in
  {| dice := dice; availableDice := dice; userDice := None; computerDice := None |}.

(** One round of the [while (true)] of [getUserInput]; [fuel] bounds the
    rounds, and each round reads a line. *)
Fixpoint getUserInput_rounds (fuel : nat) (g : DiceGame) (prompt : string)
    (validInputs : list Z) : M number :=
  match fuel with
  | O => fun w => (Stall, w)
  | S fuel' =>
      (line <- question prompt;;
       let input := trim line in
       if String.eqb (toLowerCase input) "x" then
         (say MsgExited;;; exit 0)
       else if String.eqb (toLowerCase input) "?" then
         (displayTable (dice g);;; getUserInput_rounds fuel' g prompt validInputs)
       else
         let parsed := parseInt input in
         if negb (isNaN parsed) && includes validInputs parsed then ret parsed
         else (say MsgInvalid;;; getUserInput_rounds fuel' g prompt validInputs))%js
  end.

(** [getUserInput(prompt, validInputs)]: no more rounds than lines. *)
Definition getUserInput (g : DiceGame) (prompt : string) (validInputs : list Z) : M number :=
  fun w => getUserInput_rounds (S (length (stdin w))) g prompt validInputs w.

(** [arr.splice(start, 1)]: the removed element, if any, and what is left.
    The start is taken as an integer: NaN as 0, an infinity as the end
    of the array it points to. *)
Definition splice1 {A} (start : number) (arr : list A) : option A * list A :=
  let len := Z.of_nat (length arr) in
  let relative :=
    match start with
    | Int z => z
    | Inf negative => if negative then - len else len
    | NaN => 0
    end in
  let from := if relative <? 0 then Z.max (len + relative) 0 else Z.min relative len in
  (arr !! Z.to_nat from, delete (Z.to_nat from) arr).

Fixpoint say_options (options : list (nat * Dice)) : M unit :=
  match options with
  | [] => ret tt
  | (index, die) :: rest =>
      (say (MsgDiceOption (Z.of_nat index) (values die));;; say_options rest)%js
  end.

Definition userSelectDice (g : DiceGame) : M DiceGame :=
  (say MsgChooseDice;;;
   say_options (indexed (dice g));;;
   selection <- getUserInput g "Your selection: " (keys (length (dice g)));;
   let '(removed, rest) := splice1 selection (dice g) in
   ret {| dice := rest; availableDice := availableDice g;
          userDice := removed; computerDice := computerDice g |})%js.

Definition computerSelectDice (g : DiceGame) : M DiceGame :=
  (randomIndex <- randomInt (Z.of_nat (length (dice g)));;
   let '(removed, rest) := splice1 (Int randomIndex) (dice g) in
   match removed with
   | None => throw "TypeError"
   | Some chosen =>
       say (MsgIChoose (values chosen));;;
       ret {| dice := rest; availableDice := availableDice g;
              userDice := userDice g; computerDice := removed |}
   end)%js.

Definition declareWinner (userRoll computerRoll : option number) : M unit :=
  (say (MsgYourThrow userRoll);;;
   say (MsgMyThrow computerRoll);;;
   if gt (toNumber userRoll) (toNumber computerRoll) then say MsgYouWin
   else if lt (toNumber userRoll) (toNumber computerRoll) then say MsgIWin
   else say MsgTie)%js.

Section Protocol.

Variable hmac_sha3_256 : list byte -> list byte -> string.

(** The body shared, word for word, by [userThrow] and [computerThrow]:
    commit, ask, reveal, combine, read the face. *)
Definition throw_with (g : DiceGame) (die : option Dice) : M (option number) :=
  match die with
  | None => throw "TypeError"
  | Some d =>
      let n := length (values d) in
      (fairness <- FairRandom_new hmac_sha3_256 (Z.of_nat n);;
       say (MsgCommitted (Int 0) (Int (Z.of_nat n - 1)) (hmac fairness));;;
       userInput <- getUserInput g ("Add your number modulo " +:+ pretty n +:+ ": ") (keys n);;
       let computerValue := getValue fairness in
       say (MsgMyNumber computerValue (revealKey fairness));;;
       let result := rem (add userInput computerValue) (Int (Z.of_nat n)) in
       say (MsgResult userInput computerValue result (Z.of_nat n));;;
       ret (roll d result))%js
  end.

Definition userThrow (g : DiceGame) : M (option number) := throw_with g (userDice g).

Definition computerThrow (g : DiceGame) : M (option number) := throw_with g (computerDice g).

(** The turn-order decision that opens [start]: whether the user moves
    first. *)
Definition decide_first (g : DiceGame) : M bool :=
  (say MsgDetermineFirst;;;
   fairness <- FairRandom_new hmac_sha3_256 2;;
   say (MsgCommitted (Int 0) (Int 1) (hmac fairness));;;
   userGuess <- getUserInput g "Try to guess my selection (0 or 1): " [0; 1];;
   let computerValue := getValue fairness in
   say (MsgMySelection computerValue (revealKey fairness));;;
   ret (strict_eq userGuess computerValue))%js.

(** What [start] does once the order is known. *)
Definition play (userFirst : bool) (g : DiceGame) : M unit :=
  (g <- (if userFirst then
           say MsgYouFirst;;; g <- userSelectDice g;; computerSelectDice g
         else
           say MsgIFirst;;; g <- computerSelectDice g;; userSelectDice g);;
   say MsgLetsRoll;;;
   computerRoll <- computerThrow g;;
   userRoll <- userThrow g;;
   declareWinner userRoll computerRoll)%js.

Definition start (g : DiceGame) : M unit :=
  (userFirst <- decide_first g;; play userFirst g)%js.

End Protocol.

(** *** class DiceParser *)

(** [arr.map(f)] with a callback that may end the process. *)
Fixpoint mapM {A B} (f : A -> M B) (l : list A) : M (list B) :=
  match l with
  | [] => ret []
  | x :: rest => (y <- f x;; ys <- mapM f rest;; ret (y :: ys))%js
  end.

Definition parse_value (index : nat) (value : string) : M number :=
  if isNaN_string value then
    (say (MsgErrNonInteger (Z.of_nat index + 1) value);;; exit 1)%js
  else ret (parseInt value).

Definition parse_arg (entry : nat * string) : M Dice :=
  let '(index, arg) := entry in
  (values <- mapM (parse_value index) (split_comma arg);;
   if negb (length values =? 6)%nat then
     (say (MsgErrNotSix (Z.of_nat index + 1));;; exit 1)
   else ret {| values := values |})%js.

Definition parseDice (args : list string) : M (list Dice) :=
  if (length args <? 3)%nat then (say MsgErrTooFew;;; exit 1)%js
  else mapM parse_arg (indexed args).

Section Main.

Variable hmac_sha3_256 : list byte -> list byte -> string.

(** The script run as the main module with [args = process.argv.slice(2)]. *)
Definition main (args : list string) : M unit :=
  if (length args =? 0)%nat then (say MsgErrNoDice;;; exit 1)%js
  else (dice <- parseDice args;; start hmac_sha3_256 (DiceGame_new dice))%js.

End Main.

End GameJs.

(** ** The second variant of the game *)

Module Variant.

Import JS.

(** *** class Dice

    A constructed die holds six integers: the constructor has checked
    [Number.isInteger] on each value it was given. *)

Record Dice := { values : list number }.

Definition Dice_new (given : list numeric) : M Dice :=
  if negb (length given =? 6)%nat || negb (forallb isInteger given)
  then throw "Each dice must have 6 integer values."
  else ret {| values := map (fun v => Int (integer_value v)) given |}.

(** *** class DiceConfiguration: [parseArgs] *)

Definition parseArgs (args : list string) : M (list Dice) :=
  if (length args <? 3)%nat
  then throw "At least three dice configurations are required."
  else GameJs.mapM (fun arg => Dice_new (map Number (split_comma arg))) args.

(** *** class ProbabilityCalculator *)

Record probability := { fraction : string; percentage : string }.

(** The two [for ... of] loops: [total++] on every pair, [wins++] when
    [roll1 > roll2]. The result is [(wins, total)]. *)
Definition count_rolls (dice1 dice2 : Dice) : Z * Z :=
  fold_left
    (fun counts roll1 =>
       fold_left
         (fun '(wins, total) roll2 =>
            let total := total + 1 in
            (if gt roll1 roll2 then wins + 1 else wins, total))
         (values dice2) counts)
    (values dice1) (0, 0).

Definition calculateProbability (dice1 dice2 : Dice) : probability :=
  let '(wins, total) := count_rolls dice1 dice2 in
  {| fraction := pretty wins +:+ "/" +:+ pretty total;
     percentage := toFixed_double 2 (times (divide wins total) 100) |}.

(** *** class ProbabilityTable: the cells of row [i] after its label *)

Definition row_cells (diceSet : list Dice) (i : nat) (dice1 : Dice) : list string :=
  imap (fun j dice2 =>
          if (i =? j)%nat then "- (" +:+ toFixed_double 2 (times (divide 1 3) 100) +:+ ")"
          else
            let p := calculateProbability dice1 dice2 in
            fraction p +:+ " (" +:+ percentage p +:+ "%)")
       diceSet.

Definition table_rows (diceSet : list Dice) : list (list string) :=
  imap (row_cells diceSet) diceSet.

(** *** class FairRandomGenerator *)

Record FairRandomGenerator := { key : list byte }.

Definition FairRandomGenerator_new : M FairRandomGenerator :=
  (key <- randomBytes 32;; ret {| key := key |})%js.

Definition revealKey (f : FairRandomGenerator) : string := toHex (key f).

Section Crypto.

Variable hmac_sha3_256 : list byte -> list byte -> string.

(** [Buffer.from([value])] is the one byte [value & 255]. *)
Definition generateHMAC (f : FairRandomGenerator) (value : Z) : string :=
  hmac_sha3_256 (key f) [byte_of_Z (value mod 256)].

Definition generateSecureValue (f : FairRandomGenerator) (rangeMax : Z) : M (Z * string) :=
  (value <- randomInt rangeMax;; ret (value, generateHMAC f value))%js.

(** *** class Game: [determineTurnOrder] *)

Definition determineTurnOrder (f : FairRandomGenerator) : M string :=
  (secure <- generateSecureValue f 2;;
   let '(compVal, compHmac) := secure in
   say (MsgComputerHmac compHmac);;;
   userGuess <- rl_question "Guess computer selection (0 or 1): ";;
   if strict_eq (parseInt_auto userGuess) (Int compVal) then
     (say (MsgCorrect (revealKey f));;; ret "user")
   else
     (say (MsgIncorrect (revealKey f));;; ret "computer"))%js.

End Crypto.

End Variant.

(** ** Verification by the counterpart *)

(** Modelled from the spec: [verify(key, value, digest)] is not in the
    programs (they print the key and leave the check to the user); the
    spec has it recompute the commitment of [(key, value)] and compare it
    with the digest for exact equality. The commitment recomputed is the
    program's own, [GameJs.calculateHMAC]. *)
Definition verify (hmac_sha3_256 : list byte -> list byte -> string)
    (key : list byte) (value : JS.number) (digest : string) : bool :=
  String.eqb (GameJs.calculateHMAC hmac_sha3_256 key value) digest.

(** The same check for the second variant's [generateHMAC]. *)
Definition verify_variant (hmac_sha3_256 : list byte -> list byte -> string)
    (key : list byte) (value : Z) (digest : string) : bool :=
  String.eqb (Variant.generateHMAC hmac_sha3_256 {| Variant.key := key |} value) digest.

(** A stand-in for the keyed hash, used to run the programs on concrete
    worlds: it spells out the key and the message it was given. *)
Definition demo_hmac (key data : list byte) : string :=
  JS.toHex key +:+ ":" +:+ JS.toHex data.

(** ** The counts as the spec words them

    The face pairs of two dice are the Cartesian product of their faces;
    [wins] counts the pairs [(a, b)] with [a > b], [ties] those with
    [a == b]. *)

Definition count_pairs (holds : JS.number -> JS.number -> bool)
    (faces1 faces2 : list JS.number) : Z :=
  Z.of_nat (length (List.filter (fun ab => holds (fst ab) (snd ab)) (list_prod faces1 faces2))).

Definition wins (faces1 faces2 : list JS.number) : Z := count_pairs JS.gt faces1 faces2.

Definition ties (faces1 faces2 : list JS.number) : Z := count_pairs JS.strict_eq faces1 faces2.

(** ** The order of a session, read off the transcript

    The states of a fair-random session as a reader of the console sees
    them: no digest published yet ([Idle]); a digest published and no
    answer yet ([Committed]); an answer typed and not turned down
    ([Answered]); the key and the value on the console ([Revealed]). A
    line that publishes a digest opens a session; a line that carries the
    key or the value may only come in [Answered] or after it. *)

Inductive phase := Idle | Committed | Answered | Revealed.

Definition commits (m : message) : bool :=
  match m with
  | MsgCommitted _ _ _ | MsgComputerHmac _ => true
  | _ => false
  end.

(** The lines that carry the key or the value of a session. *)
Definition discloses (m : message) : bool :=
  match m with
  | MsgMySelection _ _ | MsgMyNumber _ _ | MsgResult _ _ _ _
  | MsgCorrect _ | MsgIncorrect _ => true
  | _ => false
  end.

(** The lines that follow an answer which was no input to the session:
    the input was invalid, asked for the table, or ended the game. *)
Definition turns_down (m : message) : bool :=
  match m with
  | MsgInvalid | MsgTableTitle | MsgExited => true
  | _ => false
  end.

Definition step (p : phase) (e : event) : option phase :=
  match e with
  | Asked _ _ =>
      match p with
      | Committed => Some Answered
      | Answered => None
      | _ => Some p
      end
  | Said m =>
      if commits m then
        match p with Idle | Revealed => Some Committed | _ => None end
      else if discloses m then
        match p with Answered | Revealed => Some Revealed | _ => None end
      else
        match p with
        | Answered => if turns_down m then Some Committed else None
        | _ => Some p
        end
  end.

Fixpoint run (p : phase) (tr : list event) : option phase :=
  match tr with
  | [] => Some p
  | e :: rest =>
      match step p e with
      | Some p' => run p' rest
      | None => None
      end
  end.

(** A transcript keeps the order when the sessions in it run through. *)
Definition keeps_order (tr : list event) : bool :=
  match run Idle tr with
  | Some _ => true
  | None => false
  end.

(** A line that neither publishes a digest nor carries a secret. *)
Definition harmless (e : event) : Prop :=
  forall m, e = Said m -> commits m = false /\ discloses m = false.

(** A line that publishes no digest. *)
Definition publishes_nothing (e : event) : Prop :=
  forall m, e = Said m -> commits m = false.

(** Every line that carries a key or a value comes after an answer of the
    user to the digest of its session: the digest is on the console
    before the answer, no secret is carried between the two, and no other
    digest is published between the answer and the line. *)
Definition revealed_after_input (tr : list event) : Prop :=
  forall pre m post,
    tr = pre ++ Said m :: post -> discloses m = true ->
    exists before c between prompt answer after,
      pre = before ++ Said c :: between ++ Asked prompt answer :: after /\
      commits c = true /\
      Forall harmless between /\
      Forall publishes_nothing after.

(** ** Notions used in the proofs *)

(** From phase [p] the computation [m] appends lines that the sessions
    run through, and when it returns [a] the phase [q] satisfies
    [Q a q]. *)
Definition emits {A} (m : M A) (p : phase) (Q : A -> phase -> Prop) : Prop :=
  forall w, exists new q,
    stdout (snd (m w)) = rev new ++ stdout w /\
    run p new = Some q /\
    (forall a, fst (m w) = Ret a -> Q a q).

(** The phase after an answer: inside a session the answer is its input. *)
Definition asked (p : phase) : phase :=
  match p with
  | Committed => Answered
  | _ => p
  end.

(** The phases with no session waiting for its input. *)
Definition outside (p : phase) : Prop := p = Idle \/ p = Revealed.

(** A transcript with a session open: its digest, then harmless lines. *)
Definition open_session (tr : list event) : Prop :=
  exists before c between,
    tr = before ++ Said c :: between /\ commits c = true /\ Forall harmless between.

(** A transcript whose last session has its input. *)
Definition input_received (tr : list event) : Prop :=
  exists tr' prompt answer after,
    tr = tr' ++ Asked prompt answer :: after /\
    open_session tr' /\ Forall publishes_nothing after.

(** How many elements of a list satisfy a test. *)
Definition tally {A} (test : A -> bool) (l : list A) : Z :=
  Z.of_nat (length (List.filter test l)).

(** What the inner [forEach] of row [i] of game.js does to that row. *)
Definition fill_row (diceList : list GameJs.Dice) (i : nat) (d1 : GameJs.Dice)
    (row : list GameJs.cell) : list GameJs.cell :=
  fold_left
    (fun row '(j, d2) => if (i =? j)%nat then row else <[j := GameJs.cell_of d1 d2]> row)
    (GameJs.indexed diceList) row.

(** A token passes [parse_value] when [Number] makes a number of it. *)
Definition token_passes (token : string) : bool := negb (JS.isNaN_string token).

(** An argument passes [parse_arg] when its tokens pass and are six. *)
Definition arg_passes (arg : string) : bool :=
  forallb token_passes (JS.split_comma arg) && (length (JS.split_comma arg) =? 6)%nat.

(** The die [parseDice] makes of an argument that passes. *)
Definition die_of (arg : string) : GameJs.Dice :=
  {| GameJs.values := map JS.parseInt (JS.split_comma arg) |}.

(** ** Scenarios *)

(** Range 6, a first draw of 2^32 - 1 (at or above the limit 4294967292,
    so discarded), then a draw of 9. *)
Definition sampler_world : world :=
  World [xff; xff; xff; xff; x00; x00; x00; x09] [] [] [] true.

(** A world with 32 key bytes of 7 followed by one 4-byte draw [d3]. *)
Definition session_world (d3 : byte) (ints : list Z) (lines : list string) : world :=
  World (replicate 32 x07 ++ [x00; x00; x00; d3]) ints lines [] true.

(** The die and the game of the scenarios: the user holds the first die of
    the usage example, the computer the second. *)
Definition scenario_die : GameJs.Dice :=
  {| GameJs.values := map JS.Int [2; 2; 4; 4; 9; 9] |}.

Definition scenario_game : GameJs.DiceGame :=
  {| GameJs.dice := [{| GameJs.values := map JS.Int [3; 3; 5; 5; 7; 7] |}];
     GameJs.availableDice := [];
     GameJs.userDice := Some scenario_die;
     GameJs.computerDice := Some {| GameJs.values := map JS.Int [1; 1; 6; 6; 8; 8] |} |}.

(** The session of scenario C: range 6, secret value 3. *)
Definition scenario_session : GameJs.FairRandom :=
  {| GameJs.rangeMax := 6;
     GameJs.key := replicate 32 x07;
     GameJs.value := JS.Int 3;
     GameJs.hmac := GameJs.calculateHMAC demo_hmac (replicate 32 x07) (JS.Int 3) |}.

(** The dice of scenario A, as the second variant holds them. *)
Definition scenario_dice : list Variant.Dice :=
  [ {| Variant.values := map JS.Int [2; 2; 4; 4; 9; 9] |};
    {| Variant.values := map JS.Int [1; 1; 6; 6; 8; 8] |};
    {| Variant.values := map JS.Int [3; 3; 5; 5; 7; 7] |} ].

(** ** Further notions used in the proofs *)


(** The values a session of game.js can hold: a remainder of a draw of
    32 bits, or NaN (for the range 0). *)
Definition session_value (v : JS.number) : Prop :=
  v = JS.NaN \/ exists z, v = JS.Int z /\ 0 <= z < 2 ^ 32.

(** A line that [getUserInput] passes over: it is not the exit command,
    and it is the table command or holds no valid input. *)
Definition passed_over (validInputs : list Z) (line : string) : bool :=
  let input := JS.trim line in
  let parsed := JS.parseInt input in
  negb (String.eqb (JS.toLowerCase input) "x") &&
  (String.eqb (JS.toLowerCase input) "?" ||
   negb (negb (JS.isNaN parsed) && JS.includes validInputs parsed)).

(** How a call of [getUserInput] that started in [w] has ended, in terms
    of the lines typed: [r] is its outcome and the world it left. *)
Definition input_outcome (prompt : string) (validInputs : list Z) (w : world)
    (r : outcome JS.number * world) : Prop :=
  entropy (snd r) = entropy w /\ randomInts (snd r) = randomInts w /\
  terminal (snd r) = terminal w /\
  match fst r with
  | Ret u =>
      exists skipped line z,
        stdin w = skipped ++ line :: stdin (snd r) /\
        Forall (fun l => passed_over validInputs l = true) skipped /\
        u = JS.Int z /\ JS.parseInt (JS.trim line) = JS.Int z /\ In z validInputs /\
        head (stdout (snd r)) = Some (Asked prompt line)
  | Exit code =>
      code = 0 /\
      exists skipped line earlier,
        stdin w = skipped ++ line :: stdin (snd r) /\
        Forall (fun l => passed_over validInputs l = true) skipped /\
        JS.toLowerCase (JS.trim line) = "x" /\
        stdout (snd r) = Said MsgExited :: Asked prompt line :: earlier
  | Throw error =>
      error = no_terminal /\ terminal w = false /\
      stdin (snd r) = [] /\
      Forall (fun l => passed_over validInputs l = true) (stdin w)
  | Stall =>
      terminal w = true /\
      stdin (snd r) = [] /\
      Forall (fun l => passed_over validInputs l = true) (stdin w)
  end.

(** A computation whose only exception is that of readline-sync for want
    of a terminal: it returns a value that satisfies [Q], ends the
    process with code 0 or 1, waits, or throws that error in a world with
    no terminal. It leaves the terminal as it is. *)
Definition only_terminal_error {A} (m : M A) (Q : A -> Prop) : Prop :=
  forall w,
    terminal (snd (m w)) = terminal w /\
    match fst (m w) with
    | Ret a => Q a
    | Exit code => code = 0 \/ code = 1
    | Throw error => error = no_terminal /\ terminal w = false
    | Stall => True
    end.

(** The error line of [parse_arg] for an argument that does not pass: it
    names the first token that [Number] makes no number of, or else the
    count. *)
Definition complaint (index : nat) (arg : string) : message :=
  match List.find (fun token => negb (token_passes token)) (JS.split_comma arg) with
  | Some token => MsgErrNonInteger (Z.of_nat index + 1) token
  | None => MsgErrNotSix (Z.of_nat index + 1)
  end.

(** An argument passes the second variant's [Dice] constructor when it
    has six tokens and [Number] makes an integer of each. *)
Definition variant_arg_passes (arg : string) : bool :=
  (length (JS.split_comma arg) =? 6)%nat &&
  forallb (fun token => JS.isInteger (JS.Number token)) (JS.split_comma arg).

(** The die the second variant makes of an argument that passes. *)
Definition variant_die_of (arg : string) : Variant.Dice :=
  {| Variant.values :=
       map (fun token => JS.Int (JS.integer_value (JS.Number token))) (JS.split_comma arg) |}.

(** U+00A0, the no-break space, as its two bytes. *)
Definition nbsp : string :=
  String (ascii_of_N 194) (String (ascii_of_N 160) EmptyString).

(** Two dice of 40 faces: 230 of the 1600 face pairs are wins of the
    first, and 230 / 1600 = 0.14375 lies halfway between two numbers of
    four decimals. *)
Definition wide_dice : list GameJs.Dice :=
  [ {| GameJs.values := replicate 23 (JS.Int 1) ++ replicate 17 (JS.Int 0) |};
    {| GameJs.values := replicate 10 (JS.Int 0) ++ replicate 30 (JS.Int 5) |} ].

(** Arguments with a token that begins with U+00A0 and a token of more
    digits than a double holds. *)
Definition odd_args : list string :=
  [nbsp +:+ "2,2,4,4,9,9007199254740993"; "1,1,6,6,8,8"; "3,3,5,5,7,7"].

(** The game as [main] creates it from the three dice of the usage
    example, and a world for a whole game: three sessions with the draws
    1, 3 and 5, the computer's pick 1 of the pool left, and the lines
    typed. *)
Definition scenario_pool : GameJs.DiceGame :=
  GameJs.DiceGame_new
    [ scenario_die;
      {| GameJs.values := map JS.Int [1; 1; 6; 6; 8; 8] |};
      {| GameJs.values := map JS.Int [3; 3; 5; 5; 7; 7] |} ].

Definition scenario_play_world : world :=
  World (replicate 32 x07 ++ [x00; x00; x00; x01]
         ++ replicate 32 x07 ++ [x00; x00; x00; x03]
         ++ replicate 32 x07 ++ [x00; x00; x00; x05])
        [1] ["1"; "0"; "4"; "2"] [] true.

(** What [getUserInput] writes, newest line first, while it reads the
    lines [lines]: it is settled by the dice, the prompt, the valid
    inputs, the lines and the presence of a terminal, and by nothing
    else. *)
Definition dialogue (g : GameJs.DiceGame) (prompt : string) (validInputs : list Z)
    (lines : list string) (tty : bool) : list event :=
  stdout (snd (GameJs.getUserInput g prompt validInputs (World [] [] lines [] tty))).

(** The console [out] of one session, newest line first, on top of what
    was there [before]: the line [commit] that publishes the digest; then
    the [talk] with the user; then, only once an answer has been taken as
    the input [u], the lines [reveal u] and nothing else. *)
Definition session_console (out before : list event) (commit : event)
    (talk : list event) (reveal : JS.number -> list event) : Prop :=
  exists after,
    out = after ++ talk ++ commit :: before /\
    (after = [] \/
     exists u prompt answer earlier,
       after = reveal u /\ talk = Asked prompt answer :: earlier).

(** * Properties *)

(** ** The uniform sampler *)

Module SamplerFacts.

Import JS GameJs.

Lemma byte_value_range (b : byte) : 0 <= byte_value b < 256.
Proof.
  unfold byte_value. pose proof (Byte.to_N_bounded b). lia.
Qed.

Lemma readUInt32BE_range (b0 b1 b2 b3 : byte) :
  0 <= readUInt32BE [b0; b1; b2; b3] < 2 ^ 32.
Proof.
  unfold readUInt32BE. cbn [fold_left].
  pose proof (byte_value_range b0). pose proof (byte_value_range b1).
  pose proof (byte_value_range b2). pose proof (byte_value_range b3).
  change (2 ^ 32) with 4294967296. lia.
Qed.

Lemma draws_range (bs : list byte) : Forall (fun d => 0 <= d < 2 ^ 32) (draws bs).
Proof.
  remember (length bs) as n eqn:Hn.
  revert bs Hn. induction n as [n IH] using lt_wf_ind. intros bs Hn.
  destruct bs as [|b0 [|b1 [|b2 [|b3 rest]]]]; try (cbn; constructor).
  - apply readUInt32BE_range.
  - apply (IH (length rest)); [subst n; cbn; lia | reflexivity].
Qed.

(** For a positive range the limit is an integer, as the source writes it. *)
Lemma limit_positive (N : Z) : 1 <= N -> limit N = Int (2 ^ 32 - 2 ^ 32 mod N).
Proof.
  intros HN. unfold limit, rem, sub.
  destruct (N =? 0) eqn:E; [lia|].
  rewrite Z.rem_mod_nonneg by lia. reflexivity.
Qed.

(** The loop returns the first draw below the limit. *)
Lemma draw_until_first (l : Z) (bs : list byte) :
  fst <$> draw_until (Int l) bs = List.find (fun d => d <? l) (draws bs).
Proof.
  remember (length bs) as n eqn:Hn.
  revert bs Hn. induction n as [n IH] using lt_wf_ind. intros bs Hn.
  destruct bs as [|b0 [|b1 [|b2 [|b3 rest]]]]; try reflexivity.
  cbn [draw_until draws List.find]. unfold ge.
  destruct (readUInt32BE [b0; b1; b2; b3] <? l) eqn:E.
  - apply Z.ltb_lt in E. destruct (l <=? _) eqn:E'; [lia | reflexivity].
  - apply Z.ltb_ge in E. destruct (l <=? _) eqn:E'; [| lia].
    apply (IH (length rest)); [subst n; cbn; lia | reflexivity].
Qed.

Lemma find_in_range {A} (p : A -> bool) (P : A -> Prop) (l : list A) (x : A) :
  Forall P l -> List.find p l = Some x -> P x.
Proof.
  induction 1 as [|y l Hy Hl IH]; cbn; [discriminate|].
  destruct (p y); [intros [= <-]; exact Hy | exact IH].
Qed.

(** What the sampler returns on a positive range. *)
Lemma sample_positive (N : Z) (bs : list byte) :
  1 <= N ->
  fst <$> sample N bs =
    (fun d => Int (d mod N)) <$>
      List.find (fun d => d <? 2 ^ 32 - 2 ^ 32 mod N) (draws bs).
Proof.
  intros HN. unfold sample. rewrite (limit_positive N HN).
  pose proof (draw_until_first (2 ^ 32 - 2 ^ 32 mod N) bs) as Hfirst.
  pose proof (draws_range bs) as Hrange.
  destruct (draw_until _ _) as [[rand rest]|] eqn:E; cbn in Hfirst;
    rewrite <- Hfirst; [|reflexivity]. cbn.
  assert (0 <= rand < 2 ^ 32) as Hr
    by apply (find_in_range _ _ _ _ Hrange (eq_sym Hfirst)).
  destruct (N =? 0) eqn:E0; [lia|].
  rewrite Z.rem_mod_nonneg by lia. reflexivity.
Qed.

Lemma sample_range (N : Z) (bs : list byte) (v : number) (rest : list byte) :
  1 <= N -> sample N bs = Some (v, rest) -> exists r, v = Int r /\ 0 <= r < N.
Proof.
  intros HN Hs. pose proof (sample_positive N bs HN) as Hp.
  rewrite Hs in Hp. cbn in Hp.
  destruct (List.find _ _) as [d|]; [|discriminate].
  injection Hp as ->. exists (d mod N). split; [reflexivity|].
  apply Z.mod_pos_bound. lia.
Qed.

Lemma generateUniformRandom_run (N : Z) (w : world) :
  1 <= N ->
  fst (generateUniformRandom N w) =
    match List.find (fun d => d <? 2 ^ 32 - 2 ^ 32 mod N) (draws (entropy w)) with
    | Some d => Ret (Int (d mod N))
    | None => Stall
    end.
Proof.
  intros HN. pose proof (sample_positive N (entropy w) HN) as Hp.
  unfold generateUniformRandom.
  destruct (sample N (entropy w)) as [[v rest]|]; cbn in Hp;
    destruct (List.find _ _) as [d|]; try discriminate; [|reflexivity].
  injection Hp as ->. reflexivity.
Qed.

End SamplerFacts.

(** C4. For every N >= 1 and every stream of entropy bytes, read as 32-bit
    draws: the limit is 2^32 - (2^32 mod N); the sampler skips every draw
    at or above the limit and returns [draw mod N] for the first draw below
    it (it waits for more entropy when the stream holds none); and whatever
    it returns lies in [0, N). *)
Theorem generateUniformRandom_rejection_sampling (N : Z) (w : world) :
  1 <= N ->
  GameJs.limit N = JS.Int (2 ^ 32 - 2 ^ 32 mod N) /\
  fst (GameJs.generateUniformRandom N w) =
    match List.find (fun d => d <? 2 ^ 32 - 2 ^ 32 mod N) (GameJs.draws (entropy w)) with
    | Some d => Ret (JS.Int (d mod N))
    | None => Stall
    end /\
  (forall v, fst (GameJs.generateUniformRandom N w) = Ret v ->
     exists r, v = JS.Int r /\ 0 <= r < N).
Proof.
  intros HN.
  split; [apply SamplerFacts.limit_positive, HN|].
  split; [apply SamplerFacts.generateUniformRandom_run, HN|].
  intros v. unfold GameJs.generateUniformRandom.
  destruct (GameJs.sample N (entropy w)) as [[v' rest]|] eqn:Hs; [|discriminate].
  intros [= <-]. exact (SamplerFacts.sample_range N _ _ _ HN Hs).
Qed.

Lemma generateUniformRandom_rejection_sampling_witness :
  GameJs.limit 6 = JS.Int 4294967292 /\
  fst (GameJs.generateUniformRandom 6 sampler_world) = Ret (JS.Int 3) /\
  (forall v, fst (GameJs.generateUniformRandom 6 sampler_world) = Ret v ->
     exists r, v = JS.Int r /\ 0 <= r < 6).
Proof.
  exact (generateUniformRandom_rejection_sampling 6 sampler_world ltac:(lia)).
Defined.

(** A range above 2^32 makes the limit 0: every draw is discarded and the
    loop never ends, whatever the entropy. *)
Lemma generateUniformRandom_wide_range_never_returns (N : Z) (w : world) :
  2 ^ 32 < N -> fst (GameJs.generateUniformRandom N w) = Stall.
Proof.
  intros HN.
  rewrite SamplerFacts.generateUniformRandom_run, Z.mod_small by lia.
  replace (2 ^ 32 - 2 ^ 32) with 0 by lia.
  pose proof (SamplerFacts.draws_range (entropy w)) as Hrange.
  induction Hrange as [|d l Hd Hl IH]; [reflexivity|]. cbn.
  destruct (d <? 0) eqn:E; [lia | exact IH].
Qed.

(** ** Sessions *)

Module SessionFacts.

Import JS GameJs.

(** [new FairRandom(N)] spelled out: 32 bytes of key, then the sampler. *)
Lemma FairRandom_new_unfold hmac (N : Z) (w : world) :
  FairRandom_new hmac N w =
    if (32 <=? length (entropy w))%nat then
      match sample N (drop 32 (entropy w)) with
      | Some (v, rest) =>
          (Ret {| rangeMax := N; key := take 32 (entropy w); value := v;
                  hmac := calculateHMAC hmac (take 32 (entropy w)) v |},
           World rest (randomInts w) (stdin w) (stdout w) (terminal w))
      | None => (Stall, World (drop 32 (entropy w)) (randomInts w) (stdin w) (stdout w) (terminal w))
      end
    else (Stall, w).
Proof.
  unfold FairRandom_new, bind, randomBytes, generateUniformRandom, ret.
  destruct (32 <=? length (entropy w))%nat; [|reflexivity]. cbn.
  destruct (sample N _) as [[v rest]|]; reflexivity.
Qed.

Lemma draw_until_range (lim : number) (bs : list byte) (rand : Z) (rest : list byte) :
  draw_until lim bs = Some (rand, rest) -> 0 <= rand < 2 ^ 32.
Proof.
  remember (length bs) as n eqn:Hn.
  revert bs Hn. induction n as [n IH] using lt_wf_ind. intros bs Hn.
  destruct bs as [|b0 [|b1 [|b2 [|b3 more]]]]; try discriminate.
  cbn [draw_until]. destruct (ge _ lim).
  - apply (IH (length more)); [subst n; cbn; lia | reflexivity].
  - intros [= <- _]. apply SamplerFacts.readUInt32BE_range.
Qed.

(** The session never writes to the console and leaves the input alone. *)
Lemma FairRandom_new_quiet hmac (N : Z) (w : world) :
  stdout (snd (FairRandom_new hmac N w)) = stdout w /\
  stdin (snd (FairRandom_new hmac N w)) = stdin w.
Proof.
  rewrite FairRandom_new_unfold.
  destruct (32 <=? _)%nat; [|split; reflexivity].
  destruct (sample N _) as [[v rest]|]; split; reflexivity.
Qed.

Lemma hex_digit_value (n : Z) : 0 <= n < 16 -> hex_value (hex_digit n) = Some n.
Proof.
  intros Hn. rewrite <- (Z2Nat.id n) by lia.
  assert (Z.to_nat n < 16)%nat as Hk by lia.
  generalize dependent (Z.to_nat n). clear Hn. intros k Hk.
  do 16 (destruct k as [|k]; [reflexivity|]). lia.
Qed.

Lemma byte_of_value (b : byte) : byte_of_Z (byte_value b) = b.
Proof.
  unfold byte_of_Z, byte_value. rewrite N2Z.id, Byte.of_to_N. reflexivity.
Qed.

(** Decoding the hexadecimal text of a buffer gives the buffer back. *)
Lemma fromHex_toHex (bs : list byte) : fromHex (toHex bs) = Some bs.
Proof.
  induction bs as [|b bs IH]; [reflexivity|].
  cbn [toHex fromHex].
  pose proof (SamplerFacts.byte_value_range b) as Hb.
  rewrite !hex_digit_value, IH.
  - rewrite <- Z.div_mod by lia. rewrite byte_of_value. reflexivity.
  - apply Z.mod_pos_bound. lia.
  - split; [apply Z.div_pos; lia | apply Z.div_lt_upper_bound; lia].
Qed.

End SessionFacts.

(** C5, as the code has it: a range below 1 is not rejected. With range 0
    the limit and the value are NaN and the session is created all the
    same. *)
Lemma FairRandom_zero_range_not_rejected :
  exists s : GameJs.FairRandom,
    fst (GameJs.FairRandom_new demo_hmac 0 (session_world x05 [] [])) = Ret s /\
    GameJs.value s = JS.NaN /\
    ~ (exists e, fst (GameJs.FairRandom_new demo_hmac 0 (session_world x05 [] [])) = Throw e).
Proof.
  eexists. split; [vm_compute; reflexivity|]. split; [reflexivity|].
  intros [e He]. vm_compute in He. discriminate He.
Qed.

(** C5, amended. For every range N < 1 the constructor raises no error
    and leaves the process running: it returns a session or waits for
    entropy. A session over range 0 has the value NaN, and 36 bytes of
    entropy are enough to create it; a session over a negative range has
    its value in [0, -N). (The second variant asks [crypto.randomInt] for
    its value, and that call throws its RangeError on such a range.) *)
Theorem FairRandom_new_has_no_range_check hmac (N : Z) (w : world) :
  N < 1 ->
  (forall e, fst (GameJs.FairRandom_new hmac N w) <> Throw e) /\
  (forall c, fst (GameJs.FairRandom_new hmac N w) <> Exit c) /\
  (forall s, fst (GameJs.FairRandom_new hmac N w) = Ret s ->
     if N =? 0 then GameJs.value s = JS.NaN
     else exists r, GameJs.value s = JS.Int r /\ 0 <= r < - N) /\
  (N = 0 -> (36 <= length (entropy w))%nat ->
     exists s, fst (GameJs.FairRandom_new hmac N w) = Ret s) /\
  (forall f, fst (Variant.generateSecureValue hmac f N w) = Throw "ERR_OUT_OF_RANGE").
Proof.
  intros HN.
  assert (Hvariant : forall f,
            fst (Variant.generateSecureValue hmac f N w) = Throw "ERR_OUT_OF_RANGE").
  { intros f. unfold Variant.generateSecureValue, bind, randomInt.
    destruct (N <=? 0) eqn:E; [reflexivity | lia]. }
  rewrite SessionFacts.FairRandom_new_unfold.
  destruct (32 <=? length (entropy w))%nat eqn:Hlen;
    [| repeat split; try discriminate; try exact Hvariant;
       intros; apply Nat.leb_gt in Hlen; lia ].
  unfold GameJs.sample.
  destruct (GameJs.draw_until _ _) as [[rand rest]|] eqn:Hdraw; cbn [fst].
  - repeat split; try discriminate; try exact Hvariant.
    + intros s [= <-]. cbn [GameJs.value]. unfold JS.rem.
      destruct (N =? 0) eqn:E0; [reflexivity|].
      apply Z.eqb_neq in E0.
      apply SessionFacts.draw_until_range in Hdraw.
      exists (Z.rem rand N). split; [reflexivity|].
      rewrite <- Z.rem_abs_r by lia.
      replace (- N) with (Z.abs N) by lia.
      apply Z.rem_bound_pos; lia.
    + intros _ _. eexists. reflexivity.
  - repeat split; try discriminate; try exact Hvariant.
    intros -> Hlen36. exfalso.
    assert (exists b0 b1 b2 b3 more, drop 32 (entropy w) = b0 :: b1 :: b2 :: b3 :: more)
      as (b0 & b1 & b2 & b3 & more & Hbs).
    { pose proof (length_drop (entropy w) 32) as Hd.
      destruct (drop 32 (entropy w)) as [|b0 [|b1 [|b2 [|b3 more]]]];
        cbn in Hd; try lia. eauto 6. }
    rewrite Hbs in Hdraw. cbn in Hdraw. discriminate Hdraw.
Qed.

Lemma FairRandom_new_has_no_range_check_witness :
  (forall e, fst (GameJs.FairRandom_new demo_hmac (-3) (session_world x05 [] [])) <> Throw e) /\
  (forall c, fst (GameJs.FairRandom_new demo_hmac (-3) (session_world x05 [] [])) <> Exit c) /\
  (forall s, fst (GameJs.FairRandom_new demo_hmac (-3) (session_world x05 [] [])) = Ret s ->
     exists r, GameJs.value s = JS.Int r /\ 0 <= r < 3) /\
  (-3 = 0 -> (36 <= 36)%nat ->
     exists s, fst (GameJs.FairRandom_new demo_hmac (-3) (session_world x05 [] [])) = Ret s) /\
  (forall f, fst (Variant.generateSecureValue demo_hmac f (-3) (session_world x05 [] []))
             = Throw "ERR_OUT_OF_RANGE").
Proof.
  exact (FairRandom_new_has_no_range_check demo_hmac (-3) (session_world x05 [] []) ltac:(lia)).
Defined.

(** C6. The digest a session publishes is the commitment of its key and
    value, a function of the two alone: any other session with the same
    key and value publishes the same digest. The key it reveals in
    hexadecimal decodes to the key, so recomputing the commitment from
    what is revealed and comparing it with what was published succeeds. *)
Theorem commitment_is_deterministic_and_verifies hmac (N : Z) (w : world)
    (s : GameJs.FairRandom) (w' : world) :
  GameJs.FairRandom_new hmac N w = (Ret s, w') ->
  GameJs.hmac s = GameJs.calculateHMAC hmac (GameJs.key s) (GameJs.value s) /\
  (forall N2 w2 s2 w2',
     GameJs.FairRandom_new hmac N2 w2 = (Ret s2, w2') ->
     GameJs.key s2 = GameJs.key s -> GameJs.value s2 = GameJs.value s ->
     GameJs.hmac s2 = GameJs.hmac s) /\
  JS.fromHex (GameJs.revealKey s) = Some (GameJs.key s) /\
  verify hmac (GameJs.key s) (GameJs.getValue s) (GameJs.hmac s) = true.
Proof.
  assert (Hpub : forall N w s w', GameJs.FairRandom_new hmac N w = (Ret s, w') ->
            GameJs.hmac s = GameJs.calculateHMAC hmac (GameJs.key s) (GameJs.value s)).
  { clear. intros N w s w'. rewrite SessionFacts.FairRandom_new_unfold.
    destruct (32 <=? _)%nat; [|discriminate].
    destruct (GameJs.sample N _) as [[v rest]|]; [|discriminate].
    intros [= <- _]. reflexivity. }
  intros Hnew. pose proof (Hpub _ _ _ _ Hnew) as Hs.
  split; [exact Hs|]. split; [|split].
  - intros N2 w2 s2 w2' Hnew2 Hkey Hvalue.
    rewrite (Hpub _ _ _ _ Hnew2), Hs, Hkey, Hvalue. reflexivity.
  - apply SessionFacts.fromHex_toHex.
  - unfold verify, GameJs.getValue. rewrite Hs. apply String.eqb_refl.
Qed.

Lemma commitment_is_deterministic_and_verifies_witness :
  exists s w',
    GameJs.FairRandom_new demo_hmac 6 (session_world x09 [] []) = (Ret s, w') /\
    GameJs.value s = JS.Int 3 /\
    JS.fromHex (GameJs.revealKey s) = Some (GameJs.key s) /\
    verify demo_hmac (GameJs.key s) (GameJs.getValue s) (GameJs.hmac s) = true.
Proof.
  eexists. eexists.
  assert (H : GameJs.FairRandom_new demo_hmac 6 (session_world x09 [] []) = (Ret _, _))
    by (vm_compute; reflexivity).
  split; [exact H|]. split; [reflexivity|].
  exact (proj2 (proj2 (commitment_is_deterministic_and_verifies demo_hmac 6 _ _ _ H))).
Defined.

(** The second variant: the digest it prints for a value verifies against
    the key it reveals. *)
Lemma generateSecureValue_verifies hmac (f : Variant.FairRandomGenerator) (rangeMax : Z)
    (w : world) (value : Z) (digest : string) (w' : world) :
  Variant.generateSecureValue hmac f rangeMax w = (Ret (value, digest), w') ->
  0 <= value < rangeMax /\
  JS.fromHex (Variant.revealKey f) = Some (Variant.key f) /\
  verify_variant hmac (Variant.key f) value digest = true.
Proof.
  unfold Variant.generateSecureValue, bind, randomInt, ret.
  destruct (rangeMax <=? 0); [discriminate|].
  destruct (randomInts w) as [|r rest]; [discriminate|].
  destruct ((0 <=? r) && (r <? rangeMax)) eqn:E; [|discriminate].
  intros [= <- <- _]. split; [lia|]. split.
  - apply SessionFacts.fromHex_toHex.
  - unfold verify_variant. destruct f as [k]. apply String.eqb_refl.
Qed.

(** ** What a computation writes, and the phase it leaves *)

Module Transcript.

Import JS GameJs.

Lemma run_app (p : phase) (a b : list event) :
  run p (a ++ b) = match run p a with Some q => run q b | None => None end.
Proof.
  revert p. induction a as [|e a IH]; intros p; cbn; [reflexivity|].
  destruct (step p e); [apply IH | reflexivity].
Qed.

(** Name the lines written and the phase reached. *)
Ltac produce new q :=
  exists new, q; split; [| split].

Lemma emits_weaken {A} (m : M A) p (Q R : A -> phase -> Prop) :
  emits m p Q -> (forall a q, Q a q -> R a q) -> emits m p R.
Proof.
  intros Hm HQR w. destruct (Hm w) as (new & q & Hout & Hrun & HQ).
  exists new, q. eauto.
Qed.

Lemma emits_bind {A B} (m : M A) (k : A -> M B) p Q R :
  emits m p Q -> (forall a q, Q a q -> emits (k a) q R) -> emits (bind m k) p R.
Proof.
  intros Hm Hk w. destruct (Hm w) as (new & q & Hout & Hrun & HQ).
  unfold bind. destruct (m w) as [[a|c|e|] w1] eqn:E; cbn [fst snd] in *;
    try (exists new, q; split; [assumption | split; [assumption | discriminate]]).
  destruct (Hk a q (HQ a eq_refl) w1) as (new2 & q2 & Hout2 & Hrun2 & HR).
  exists (new ++ new2), q2. split; [|split].
  - rewrite Hout2, Hout, rev_app_distr, app_assoc. reflexivity.
  - rewrite run_app, Hrun. exact Hrun2.
  - exact HR.
Qed.

Lemma emits_ret {A} (a : A) p : emits (ret a) p (fun a' q => a' = a /\ q = p).
Proof.
  intros w. produce (@nil event) p; [reflexivity | reflexivity |].
  intros a' [= <-]. auto.
Qed.

Lemma emits_say (m : message) p q :
  step p (Said m) = Some q -> emits (say m) p (fun _ q' => q' = q).
Proof.
  intros Hstep w.
  produce [Said m] q; [reflexivity | cbn [run]; rewrite Hstep; reflexivity | auto].
Qed.

Lemma emits_exit {A} (c : Z) p (Q : A -> phase -> Prop) : emits (exit c) p Q.
Proof.
  intros w. produce (@nil event) p; [reflexivity | reflexivity | discriminate].
Qed.

Lemma emits_throw {A} (e : string) p (Q : A -> phase -> Prop) : emits (throw e) p Q.
Proof.
  intros w. produce (@nil event) p; [reflexivity | reflexivity | discriminate].
Qed.

(** A computation that leaves the console alone keeps the phase. *)
Lemma emits_quiet {A} (m : M A) p :
  (forall w, stdout (snd (m w)) = stdout w) -> emits m p (fun _ q => q = p).
Proof.
  intros Hq w. produce (@nil event) p; [apply Hq | reflexivity | auto].
Qed.

Lemma emits_question (prompt : string) p :
  p <> Answered -> emits (question prompt) p (fun _ q => q = asked p).
Proof.
  intros Hp w. unfold question. destruct (stdin w) as [|line rest].
  - destruct (terminal w);
      (produce (@nil event) p; [reflexivity | reflexivity | discriminate]).
  - produce [Asked prompt line] (asked p);
      [reflexivity | destruct p; cbn; congruence | auto].
Qed.

Lemma emits_rl_question (prompt : string) p :
  p <> Answered -> emits (rl_question prompt) p (fun _ q => q = asked p).
Proof.
  intros Hp w. unfold rl_question. destruct (stdin w) as [|line rest].
  - produce (@nil event) p; [reflexivity | reflexivity | discriminate].
  - produce [Asked prompt line] (asked p);
      [reflexivity | destruct p; cbn; congruence | auto].
Qed.

Lemma randomBytes_quiet (n : nat) (w : world) : stdout (snd (randomBytes n w)) = stdout w.
Proof. unfold randomBytes. destruct (n <=? _)%nat; reflexivity. Qed.

Lemma randomInt_quiet (max : Z) (w : world) : stdout (snd (randomInt max w)) = stdout w.
Proof.
  unfold randomInt. destruct (max <=? 0); [reflexivity|].
  destruct (randomInts w) as [|r rest]; [reflexivity|].
  destruct ((0 <=? r) && (r <? max)); reflexivity.
Qed.

Lemma emits_FairRandom_new hmac (N : Z) p :
  emits (FairRandom_new hmac N) p (fun _ q => q = p).
Proof.
  apply emits_quiet. intros w. apply SessionFacts.FairRandom_new_quiet.
Qed.

(** The table: its title turns down the answer that asked for it. *)
Lemma emits_displayTable (diceList : list Dice) p :
  emits (displayTable diceList) p
        (fun _ q => q = match p with Answered => Committed | _ => p end).
Proof.
  intros w.
  exists [Said MsgTableTitle; Said (MsgTableLegend 1); Said (MsgTableLegend 2);
          Said (MsgTable (map values diceList)
                  (imap (fun i _ => display_row i
                                      (default [] (calculateProbabilities diceList !! i)))
                        diceList))],
         (match p with Answered => Committed | _ => p end).
  split; [reflexivity | split; [destruct p; reflexivity | auto]].
Qed.

(** The loop leaves the phase of an answer that was not turned down; what
    it returns is one of the valid inputs. *)
Lemma emits_getUserInput_rounds (fuel : nat) (g : DiceGame) (prompt : string)
    (validInputs : list Z) p :
  p <> Answered ->
  emits (getUserInput_rounds fuel g prompt validInputs) p
        (fun u q => q = asked p /\ exists z, u = Int z /\ In z validInputs).
Proof.
  intros Hp. induction fuel as [|fuel IH]; cbn [getUserInput_rounds].
  - intros w. produce (@nil event) p; [reflexivity | reflexivity | discriminate].
  - eapply emits_bind; [apply emits_question; exact Hp|].
    intros line q ->. cbn beta zeta.
    destruct (String.eqb (toLowerCase (trim line)) "x").
    { eapply emits_bind; [|intros; apply emits_exit].
      apply (emits_say _ _ p). destruct p; cbn; congruence. }
    destruct (String.eqb (toLowerCase (trim line)) "?").
    { eapply emits_bind.
      - apply emits_displayTable.
      - intros _ q ->. replace (match asked p with Answered => Committed | _ => asked p end)
          with p by (destruct p; cbn; congruence).
        exact IH. }
    destruct (negb (isNaN (parseInt (trim line))) && includes validInputs (parseInt (trim line)))
      eqn:Hvalid.
    { eapply emits_weaken; [apply emits_ret|].
      intros u q [-> ->]. split; [reflexivity|].
      apply andb_prop in Hvalid as [_ Hin]. unfold includes in Hin.
      destruct (parseInt (trim line)) as [z| |]; [|discriminate|discriminate].
      exists z. split; [reflexivity|].
      destruct (proj1 (existsb_exists _ _) Hin) as (x & Hx & Heq).
      apply Z.eqb_eq in Heq. subst x. exact Hx. }
    eapply emits_bind;
      [apply (emits_say _ _ p); destruct p; cbn; congruence | intros _ q ->; exact IH].
Qed.

Lemma emits_getUserInput (g : DiceGame) (prompt : string) (validInputs : list Z) p :
  p <> Answered ->
  emits (getUserInput g prompt validInputs) p
        (fun u q => q = asked p /\ exists z, u = Int z /\ In z validInputs).
Proof.
  intros Hp w. unfold getUserInput. apply emits_getUserInput_rounds. exact Hp.
Qed.

(** One step of a sequence: the first computation by the tactic given,
    then the continuation from the phase it reached. *)
Ltac next tac :=
  eapply emits_bind; [tac | intros ? ? ?; cbn beta in *; subst; cbn beta].

Ltac said := apply emits_say; reflexivity.

Ltac done_at := eapply emits_weaken; [apply emits_ret | intros ? ? [? ?]; subst; auto].

(** The input of a question asked outside a session. *)
Ltac answer_outside :=
  eapply emits_bind;
    [apply emits_getUserInput; discriminate | intros ? ? [? _]; subst; cbn [asked]].

Lemma emits_say_options (options : list (nat * Dice)) p :
  outside p -> emits (say_options options) p (fun _ q => q = p).
Proof.
  intros Hp. induction options as [|[index die] rest IH]; cbn [say_options].
  - done_at.
  - eapply emits_bind with (Q := fun _ q => q = p);
      [apply emits_say; destruct Hp as [-> | ->]; reflexivity | intros _ q ->; exact IH].
Qed.

Lemma emits_userSelectDice (g : DiceGame) p :
  outside p -> emits (userSelectDice g) p (fun _ q => q = p).
Proof.
  intros Hp. unfold userSelectDice.
  eapply emits_bind with (Q := fun _ q => q = p);
    [apply emits_say; destruct Hp as [-> | ->]; reflexivity|].
  intros _ q ->.
  next ltac:(apply emits_say_options; exact Hp).
  eapply emits_bind;
    [apply emits_getUserInput; destruct Hp as [-> | ->]; discriminate|].
  intros selection q [-> _].
  replace (asked p) with p by (destruct Hp as [-> | ->]; reflexivity).
  destruct (splice1 selection (dice g)) as [removed rest]. done_at.
Qed.

Lemma emits_computerSelectDice (g : DiceGame) p :
  outside p -> emits (computerSelectDice g) p (fun _ q => q = p).
Proof.
  intros Hp. unfold computerSelectDice.
  next ltac:(apply emits_quiet, randomInt_quiet).
  destruct (splice1 _ (dice g)) as [[chosen|] rest]; [|apply emits_throw].
  eapply emits_bind with (Q := fun _ q => q = p);
    [apply emits_say; destruct Hp as [-> | ->]; reflexivity|].
  intros _ q ->. done_at.
Qed.

Lemma emits_declareWinner (userRoll computerRoll : option number) :
  emits (declareWinner userRoll computerRoll) Revealed (fun _ q => q = Revealed).
Proof.
  unfold declareWinner. next said. next said.
  destruct (gt _ _); [said|]. destruct (lt _ _); said.
Qed.

(** A throw opens a session, waits for the answer, and only then reveals. *)
Lemma emits_throw_with hmac (g : DiceGame) (die : option Dice) p :
  outside p -> emits (throw_with hmac g die) p (fun _ q => q = Revealed).
Proof.
  intros Hp. destruct die as [d|]; cbn [throw_with]; [|apply emits_throw].
  next ltac:(apply emits_FairRandom_new).
  eapply emits_bind with (Q := fun _ q => q = Committed);
    [apply emits_say; destruct Hp as [-> | ->]; reflexivity|].
  intros _ q ->.
  answer_outside.
  next said. next said. done_at.
Qed.

Lemma emits_decide_first hmac (g : DiceGame) :
  emits (decide_first hmac g) Idle (fun _ q => q = Revealed).
Proof.
  unfold decide_first.
  next said. next ltac:(apply emits_FairRandom_new). next said.
  answer_outside.
  next said. done_at.
Qed.

(** What [start] does after the lines of the order: the selections, the
    two throws, the verdict. *)
Lemma emits_selections_and_throws hmac (select_both : M DiceGame) :
  emits select_both Revealed (fun _ q => q = Revealed) ->
  emits (g <- select_both;;
         say MsgLetsRoll;;;
         computerRoll <- computerThrow hmac g;;
         userRoll <- userThrow hmac g;;
         declareWinner userRoll computerRoll)%js
        Revealed (fun _ q => q = Revealed).
Proof.
  intros Hselect.
  next ltac:(exact Hselect). next said.
  next ltac:(apply emits_throw_with; right; reflexivity).
  next ltac:(apply emits_throw_with; right; reflexivity).
  apply emits_declareWinner.
Qed.

Lemma emits_play hmac (userFirst : bool) (g : DiceGame) :
  emits (play hmac userFirst g) Revealed (fun _ q => q = Revealed).
Proof.
  unfold play. apply emits_selections_and_throws.
  destruct userFirst.
  - next said. next ltac:(apply emits_userSelectDice; right; reflexivity).
    apply emits_computerSelectDice. right. reflexivity.
  - next said. next ltac:(apply emits_computerSelectDice; right; reflexivity).
    apply emits_userSelectDice. right. reflexivity.
Qed.

Lemma emits_start hmac (g : DiceGame) :
  emits (start hmac g) Idle (fun _ q => q = Revealed).
Proof.
  unfold start. next ltac:(apply emits_decide_first). apply emits_play.
Qed.

Lemma emits_determineTurnOrder hmac (f : Variant.FairRandomGenerator) :
  emits (Variant.determineTurnOrder hmac f) Idle (fun _ q => q = Revealed).
Proof.
  unfold Variant.determineTurnOrder.
  eapply emits_bind with (Q := fun _ q => q = Idle).
  - unfold Variant.generateSecureValue.
    next ltac:(apply emits_quiet, randomInt_quiet). done_at.
  - intros [compVal compHmac] q ->.
    next said.
    eapply emits_bind; [apply emits_rl_question; discriminate|].
    intros userGuess q ->. cbn [asked].
    destruct (strict_eq _ _); next said; done_at.
Qed.

(** On an empty console the lines written are the whole transcript. *)
Lemma emits_keeps_order {A} (m : M A) (Q : A -> phase -> Prop) (w : world) :
  emits m Idle Q -> stdout w = [] -> keeps_order (transcript (snd (m w))) = true.
Proof.
  intros Hm Hw. destruct (Hm w) as (new & q & Hout & Hrun & _).
  unfold keeps_order, transcript.
  rewrite Hout, Hw, app_nil_r, rev_involutive, Hrun. reflexivity.
Qed.

(** *** What the order says about a transcript *)

Lemma run_snoc (p : phase) (tr : list event) (e : event) (q : phase) :
  run p (tr ++ [e]) = Some q <-> exists r, run p tr = Some r /\ step r e = Some q.
Proof.
  rewrite run_app. destruct (run p tr) as [r|]; cbn.
  - destruct (step r e) as [q'|] eqn:E; split.
    + intros [= <-]. eauto.
    + intros (r' & [= <-] & Hq). congruence.
    + discriminate.
    + intros (r' & [= <-] & Hq). congruence.
  - split; [discriminate | intros (r & Hr & _); discriminate].
Qed.

Lemma discloses_commits (m : message) : discloses m = true -> commits m = false.
Proof. destruct m; (discriminate || reflexivity). Qed.

Lemma step_to_Idle (r : phase) (e : event) : step r e = Some Idle -> r = Idle.
Proof.
  destruct e as [m|prompt answer]; cbn.
  - destruct (commits m), (discloses m), r, (turns_down m); (discriminate || reflexivity).
  - destruct r; (discriminate || reflexivity).
Qed.

Lemma step_to_Answered (r : phase) (e : event) :
  step r e = Some Answered -> r = Committed /\ exists prompt answer, e = Asked prompt answer.
Proof.
  destruct e as [m|prompt answer]; cbn.
  - destruct (commits m), (discloses m), r, (turns_down m); discriminate.
  - destruct r; try discriminate. eauto.
Qed.

Lemma step_to_Committed (r : phase) (e : event) :
  step r e = Some Committed ->
  (exists c, e = Said c /\ commits c = true) \/
  (r = Committed /\ harmless e) \/
  (r = Answered /\ harmless e).
Proof.
  destruct e as [m|prompt answer]; cbn.
  - destruct (commits m) eqn:Hc; [left; eauto|].
    destruct (discloses m) eqn:Hd.
    { destruct r; discriminate. }
    assert (harmless (Said m)) by (intros m' [= <-]; auto).
    destruct r; try discriminate; auto.
  - destruct r; discriminate.
Qed.

Lemma step_to_Revealed (r : phase) (e : event) :
  step r e = Some Revealed ->
  (r = Answered \/ r = Revealed) /\ publishes_nothing e.
Proof.
  destruct e as [m|prompt answer]; cbn.
  - destruct (commits m) eqn:Hc.
    { destruct r; discriminate. }
    assert (publishes_nothing (Said m)) by (intros m' [= <-]; auto).
    destruct (discloses m); destruct r; try discriminate; auto.
  - assert (publishes_nothing (Asked prompt answer)) by (intros m'; discriminate).
    destruct r; try discriminate; auto.
Qed.

Lemma open_session_snoc (tr : list event) (e : event) :
  open_session tr -> harmless e -> open_session (tr ++ [e]).
Proof.
  intros (before & c & between & -> & Hc & Hb) He.
  exists before, c, (between ++ [e]). split; [|split; [exact Hc|]].
  - rewrite <- app_assoc. reflexivity.
  - apply Forall_app. split; [exact Hb | constructor; [exact He | constructor]].
Qed.

Lemma harmless_Asked (prompt answer : string) : harmless (Asked prompt answer).
Proof. intros m; discriminate. Qed.

Lemma input_received_snoc (tr : list event) (e : event) :
  input_received tr -> publishes_nothing e -> input_received (tr ++ [e]).
Proof.
  intros (tr' & prompt & answer & after & -> & Hopen & Hafter) He.
  exists tr', prompt, answer, (after ++ [e]). split; [|split; [exact Hopen|]].
  - rewrite <- app_assoc. reflexivity.
  - apply Forall_app. split; [exact Hafter | constructor; [exact He | constructor]].
Qed.

(** The phases of a session, by what the transcript looks like. *)
Lemma run_shape (tr : list event) :
  (run Idle tr = Some Committed -> open_session tr) /\
  (run Idle tr = Some Answered ->
     exists tr' prompt answer, tr = tr' ++ [Asked prompt answer] /\ open_session tr') /\
  (run Idle tr = Some Revealed -> input_received tr).
Proof.
  induction tr as [|e tr (IHc & IHa & IHr)] using rev_ind.
  - repeat split; discriminate.
  - split; [|split]; intros Hrun; apply run_snoc in Hrun as (r & Hr & Hstep).
    + apply step_to_Committed in Hstep as [(c & -> & Hc) | [(-> & He) | (-> & He)]].
      * exists tr, c, []. split; [reflexivity | split; [exact Hc | constructor]].
      * apply open_session_snoc; auto.
      * destruct (IHa Hr) as (tr' & prompt & answer & -> & Hopen).
        apply open_session_snoc; [|exact He].
        apply open_session_snoc; [exact Hopen | apply harmless_Asked].
    + apply step_to_Answered in Hstep as (-> & prompt & answer & ->).
      exists tr, prompt, answer. auto.
    + apply step_to_Revealed in Hstep as ([-> | ->] & He).
      * destruct (IHa Hr) as (tr' & prompt & answer & -> & Hopen).
        exists tr', prompt, answer, [e]. split; [|split; [exact Hopen|]].
        -- rewrite <- app_assoc. reflexivity.
        -- constructor; [exact He | constructor].
      * apply input_received_snoc; auto.
Qed.

Lemma keeps_order_revealed_after_input (tr : list event) :
  keeps_order tr = true -> revealed_after_input tr.
Proof.
  unfold keeps_order. intros Hrun pre m post -> Hm.
  rewrite run_app in Hrun.
  destruct (run Idle pre) as [r|] eqn:Hpre; [|discriminate].
  cbn [run] in Hrun.
  pose proof (discloses_commits m Hm) as Hc.
  assert (input_received pre) as (tr' & prompt & answer & after & -> & Hopen & Hafter).
  { destruct (run_shape pre) as (_ & IHa & IHr).
    destruct r; cbn in Hrun; rewrite Hc, Hm in Hrun; try discriminate.
    - destruct (IHa Hpre) as (tr' & prompt & answer & -> & Hopen).
      exists tr', prompt, answer, []. split; [reflexivity | split; [exact Hopen | constructor]].
    - exact (IHr Hpre). }
  destruct Hopen as (before & c & between & -> & Hcommit & Hbetween).
  exists before, c, between, prompt, answer, after.
  rewrite <- app_assoc. auto.
Qed.

End Transcript.

(** The order is a real constraint: a console on which the value follows
    the digest with no answer in between does not keep it, and the same
    lines with the answer in between do. *)
Example order_rejects_reveal_before_input :
  keeps_order [Said (MsgCommitted (JS.Int 0) (JS.Int 5) "digest");
               Said (MsgMyNumber (JS.Int 3) "key")] = false /\
  keeps_order [Said (MsgCommitted (JS.Int 0) (JS.Int 5) "digest");
               Asked "Add your number modulo 6: " "9"; Said MsgInvalid;
               Said (MsgMyNumber (JS.Int 3) "key")] = false /\
  keeps_order [Said (MsgCommitted (JS.Int 0) (JS.Int 5) "digest");
               Asked "Add your number modulo 6: " "4";
               Said (MsgMyNumber (JS.Int 3) "key");
               Said (MsgResult (JS.Int 4) (JS.Int 3) (JS.Int 1) 6)] = true.
Proof. repeat split. Qed.

(** ** Throws and the turn order *)

Module PlayFacts.

Import JS GameJs.

Lemma getUserInput_valid (g : DiceGame) (prompt : string) (validInputs : list Z)
    (w : world) (u : number) (w' : world) :
  getUserInput g prompt validInputs w = (Ret u, w') ->
  exists z, u = Int z /\ In z validInputs.
Proof.
  intros Hrun.
  destruct (Transcript.emits_getUserInput g prompt validInputs Idle ltac:(discriminate) w)
    as (new & q & _ & _ & HQ).
  rewrite Hrun in HQ. destruct (HQ u eq_refl) as [_ Hz]. exact Hz.
Qed.

Lemma In_keys (n : nat) (z : Z) : In z (keys n) <-> 0 <= z < Z.of_nat n.
Proof.
  unfold keys. rewrite in_map_iff. split.
  - intros (k & <- & Hk). apply in_seq in Hk. lia.
  - intros Hz. exists (Z.to_nat z). split; [lia | apply in_seq; lia].
Qed.

Lemma FairRandom_new_value (hmac : list byte -> list byte -> string) (N : Z) (w : world)
    (s : FairRandom) (w' : world) :
  1 <= N -> FairRandom_new hmac N w = (Ret s, w') ->
  exists r, value s = Int r /\ 0 <= r < N.
Proof.
  intros HN. rewrite SessionFacts.FairRandom_new_unfold.
  destruct (32 <=? _)%nat; [|discriminate].
  destruct (sample N _) as [[v rest]|] eqn:Hs; [|discriminate].
  intros [= <- _]. exact (SamplerFacts.sample_range N _ _ _ HN Hs).
Qed.

Lemma displayTable_run (diceList : list Dice) (w : world) :
  exists out, displayTable diceList w =
    (Ret tt, World (entropy w) (randomInts w) (stdin w) (out ++ stdout w) (terminal w)).
Proof.
  eexists [_; _; _; _]. reflexivity.
Qed.

(** One round of the loop, spelled out. *)
Lemma getUserInput_rounds_S (g : DiceGame) (prompt : string) (validInputs : list Z)
    (fuel : nat) (w : world) :
  getUserInput_rounds (S fuel) g prompt validInputs w =
    match stdin w with
    | [] => if terminal w then (Stall, w) else (Throw no_terminal, w)
    | line :: rest =>
        let w1 := World (entropy w) (randomInts w) rest (Asked prompt line :: stdout w)
                    (terminal w) in
        let parsed := parseInt (trim line) in
        if String.eqb (toLowerCase (trim line)) "x" then
          (Exit 0, snd (say MsgExited w1))
        else if String.eqb (toLowerCase (trim line)) "?" then
          getUserInput_rounds fuel g prompt validInputs (snd (displayTable (dice g) w1))
        else if negb (isNaN parsed) && includes validInputs parsed then (Ret parsed, w1)
        else getUserInput_rounds fuel g prompt validInputs (snd (say MsgInvalid w1))
    end.
Proof.
  cbn [getUserInput_rounds]. unfold bind at 1, question.
  destruct (stdin w) as [|line rest]; [destruct (terminal w); reflexivity|]. cbn zeta.
  destruct (String.eqb (toLowerCase (trim line)) "x"); [reflexivity|].
  destruct (String.eqb (toLowerCase (trim line)) "?").
  - unfold bind at 1.
    destruct (displayTable_run (dice g)
                (World (entropy w) (randomInts w) rest (Asked prompt line :: stdout w) (terminal w)))
      as [out ->]. reflexivity.
  - destruct (negb _ && _); reflexivity.
Qed.

Lemma getUserInput_rounds_any (g : DiceGame) (prompt : string) (validInputs : list Z)
    (fuel1 fuel2 : nat) (w : world) :
  (length (stdin w) < fuel1)%nat -> (length (stdin w) < fuel2)%nat ->
  getUserInput_rounds fuel1 g prompt validInputs w =
  getUserInput_rounds fuel2 g prompt validInputs w.
Proof.
  revert fuel2 w. induction fuel1 as [|fuel1 IH]; intros fuel2 w H1 H2; [lia|].
  destruct fuel2 as [|fuel2]; [lia|].
  rewrite !getUserInput_rounds_S.
  destruct (stdin w) as [|line rest] eqn:Hin; [reflexivity|]. cbn zeta.
  cbn [length] in H1, H2.
  destruct (String.eqb (toLowerCase (trim line)) "x"); [reflexivity|].
  destruct (String.eqb (toLowerCase (trim line)) "?").
  - destruct (displayTable_run (dice g)
                (World (entropy w) (randomInts w) rest (Asked prompt line :: stdout w) (terminal w)))
      as [out ->].
    apply IH; cbn; lia.
  - destruct (negb _ && _); [reflexivity|]. apply IH; cbn; lia.
Qed.

(** The bound on the rounds is never what stops the loop: every round
    reads a line, so any bound above the number of lines left gives the
    run of [getUserInput]. *)
Lemma getUserInput_rounds_enough (g : DiceGame) (prompt : string) (validInputs : list Z)
    (fuel : nat) (w : world) :
  (length (stdin w) < fuel)%nat ->
  getUserInput_rounds fuel g prompt validInputs w = getUserInput g prompt validInputs w.
Proof.
  intros Hfuel. unfold getUserInput. apply getUserInput_rounds_any; lia.
Qed.

(** A text that reads [x] or [?] in lower case holds no number. *)
Lemma command_is_no_number (t : string) :
  toLowerCase t = "x" \/ toLowerCase t = "?" -> parseInt t = NaN.
Proof.
  destruct t as [|c [|c' t]]; cbn [toLowerCase].
  - intros [H|H]; discriminate H.
  - destruct c as [[] [] [] [] [] [] [] []];
      intros [H|H];
      first [ vm_compute in H; discriminate H | vm_compute; reflexivity ].
  - intros [H|H]; discriminate H.
Qed.

(** A first line that is a valid number is taken as the input. *)
Lemma getUserInput_first_line (g : DiceGame) (prompt : string) (validInputs : list Z)
    (w : world) (line : string) (lines : list string) (z : Z) :
  stdin w = line :: lines ->
  parseInt (trim line) = Int z -> In z validInputs ->
  getUserInput g prompt validInputs w =
    (Ret (Int z),
     World (entropy w) (randomInts w) lines (Asked prompt line :: stdout w) (terminal w)).
Proof.
  intros Hline Hparse Hvalid. unfold getUserInput.
  rewrite getUserInput_rounds_S, Hline. cbn zeta.
  destruct (String.eqb (toLowerCase (trim line)) "x") eqn:Ex.
  { apply String.eqb_eq in Ex.
    rewrite command_is_no_number in Hparse by (left; exact Ex). discriminate Hparse. }
  destruct (String.eqb (toLowerCase (trim line)) "?") eqn:Eq.
  { apply String.eqb_eq in Eq.
    rewrite command_is_no_number in Hparse by (right; exact Eq). discriminate Hparse. }
  rewrite Hparse. cbn [isNaN negb andb includes].
  assert (existsb (Z.eqb z) validInputs = true) as ->.
  { apply existsb_exists. exists z. split; [exact Hvalid | apply Z.eqb_refl]. }
  reflexivity.
Qed.

(** What is on the console only grows. *)
Lemma emits_transcript {A} (m : M A) p (Q : A -> phase -> Prop) (w : world) :
  emits m p Q -> exists new, transcript (snd (m w)) = transcript w ++ new.
Proof.
  intros Hm. destruct (Hm w) as (new & q & Hout & _).
  exists new. unfold transcript. rewrite Hout, rev_app_distr, rev_involutive. reflexivity.
Qed.

(** The shared body of the throws, from the created session and the
    accepted input to the face returned. *)
Lemma throw_with_run hmac (g : DiceGame) (d : Dice) (w : world) (fairness : FairRandom)
    (w1 : world) (u : number) (w2 : world) :
  let n := length (values d) in
  let F := Z.of_nat n in
  FairRandom_new hmac F w = (Ret fairness, w1) ->
  getUserInput g ("Add your number modulo " +:+ pretty n +:+ ": ") (keys n)
    (snd (say (MsgCommitted (Int 0) (Int (F - 1)) (GameJs.hmac fairness)) w1))
    = (Ret u, w2) ->
  exists input secret face,
    u = Int input /\ getValue fairness = Int secret /\
    0 <= input < F /\ 0 <= secret < F /\
    0 <= (input + secret) mod F < F /\
    values d !! Z.to_nat ((input + secret) mod F) = Some face /\
    throw_with hmac g (Some d) w =
      (Ret (Some face),
       World (entropy w2) (randomInts w2) (stdin w2)
         (Said (MsgResult (Int input) (Int secret) (Int ((input + secret) mod F)) F)
          :: Said (MsgMyNumber (Int secret) (revealKey fairness)) :: stdout w2) (terminal w2)).
Proof.
  intros n F Hnew Hinput.
  destruct (getUserInput_valid _ _ _ _ _ _ Hinput) as (input & -> & Hin).
  apply In_keys in Hin. fold F in Hin.
  destruct (FairRandom_new_value hmac F w fairness w1 ltac:(lia) Hnew)
    as (secret & Hsecret & Hrange).
  assert (0 <= (input + secret) mod F < F) as Hmod by (apply Z.mod_pos_bound; lia).
  destruct (lookup_lt_is_Some_2 (values d) (Z.to_nat ((input + secret) mod F)))
    as [face Hface]; [fold n; lia|].
  exists input, secret, face.
  split; [reflexivity|]. split; [exact Hsecret|].
  split; [exact Hin|]. split; [exact Hrange|]. split; [exact Hmod|].
  split; [exact Hface|].
  cbn [throw_with]. fold n F. unfold bind at 1. rewrite Hnew.
  unfold bind at 1. unfold say at 1. cbn [snd say] in Hinput.
  unfold bind at 1. rewrite Hinput.
  unfold getValue. rewrite Hsecret.
  unfold bind, say, ret. cbn [entropy randomInts stdin stdout].
  unfold add, rem. destruct (F =? 0) eqn:E0; [lia|].
  rewrite Z.rem_mod_nonneg by lia.
  unfold roll. destruct (_ <? 0) eqn:Eneg; [lia|].
  rewrite Hface. reflexivity.
Qed.

(** A session on a stream that opens with the key and an accepted draw. *)
Lemma FairRandom_new_first_draw hmac (N : Z) (keybytes : list byte) (b0 b1 b2 b3 : byte)
    (rest : list byte) (ints : list Z) (lines : list string) (out : list event)
    (tty : bool) :
  length keybytes = 32%nat -> 1 <= N ->
  readUInt32BE [b0; b1; b2; b3] < 2 ^ 32 - 2 ^ 32 mod N ->
  FairRandom_new hmac N (World (keybytes ++ b0 :: b1 :: b2 :: b3 :: rest) ints lines out tty) =
    (Ret {| rangeMax := N; key := keybytes;
            value := Int (readUInt32BE [b0; b1; b2; b3] mod N);
            hmac := calculateHMAC hmac keybytes (Int (readUInt32BE [b0; b1; b2; b3] mod N)) |},
     World rest ints lines out tty).
Proof.
  intros Hkey HN Hdraw. rewrite SessionFacts.FairRandom_new_unfold. cbn [entropy randomInts stdin stdout].
  rewrite length_app, Hkey. cbn [Nat.leb Nat.add].
  rewrite <- Hkey, take_app_length, drop_app_length.
  unfold sample. rewrite (SamplerFacts.limit_positive N HN). cbn [draw_until].
  pose proof (SamplerFacts.readUInt32BE_range b0 b1 b2 b3) as Hrange.
  unfold ge. destruct (_ <=? _) eqn:E; [apply Z.leb_le in E; lia|].
  unfold rem. destruct (N =? 0) eqn:E0; [lia|].
  rewrite Z.rem_mod_nonneg by lia. reflexivity.
Qed.

End PlayFacts.

(** C1. A throw over a die of F faces, once the session is created and
    the user's input received: the input and the secret value both lie in
    [0, F), the combined result is their sum modulo F, it lies in [0, F),
    and the throw returns the face of the die at that index. [userThrow]
    and [computerThrow] do so alike, each on its own die. *)
Theorem throw_selects_combined_face hmac (g : GameJs.DiceGame) (d : GameJs.Dice)
    (w : world) (fairness : GameJs.FairRandom) (w1 : world) (u : JS.number) (w2 : world) :
  let n := length (GameJs.values d) in
  let F := Z.of_nat n in
  GameJs.FairRandom_new hmac F w = (Ret fairness, w1) ->
  GameJs.getUserInput g ("Add your number modulo " +:+ pretty n +:+ ": ") (JS.keys n)
    (snd (say (MsgCommitted (JS.Int 0) (JS.Int (F - 1)) (GameJs.hmac fairness)) w1))
    = (Ret u, w2) ->
  exists input secret face w3,
    u = JS.Int input /\ GameJs.getValue fairness = JS.Int secret /\
    0 <= input < F /\ 0 <= secret < F /\
    0 <= (input + secret) mod F < F /\
    GameJs.values d !! Z.to_nat ((input + secret) mod F) = Some face /\
    stdout w3 =
      Said (MsgResult (JS.Int input) (JS.Int secret) (JS.Int ((input + secret) mod F)) F)
      :: Said (MsgMyNumber (JS.Int secret) (GameJs.revealKey fairness)) :: stdout w2 /\
    (GameJs.userDice g = Some d -> GameJs.userThrow hmac g w = (Ret (Some face), w3)) /\
    (GameJs.computerDice g = Some d -> GameJs.computerThrow hmac g w = (Ret (Some face), w3)).
Proof.
  intros n F Hnew Hinput.
  destruct (PlayFacts.throw_with_run hmac g d w fairness w1 u w2 Hnew Hinput)
    as (input & secret & face & Hu & Hsecret & Hin & Hrange & Hmod & Hface & Hrun).
  match type of Hrun with _ = (_, ?w3) => exists input, secret, face, w3 end.
  split; [exact Hu|]. split; [exact Hsecret|].
  split; [exact Hin|]. split; [exact Hrange|]. split; [exact Hmod|].
  split; [exact Hface|]. split; [reflexivity|].
  unfold GameJs.userThrow, GameJs.computerThrow.
  split; intros ->; exact Hrun.
Qed.

(** Scenario C: six faces, secret value 3, the user adds 4: index 1. *)
Lemma throw_selects_combined_face_witness :
  exists w3,
    GameJs.FairRandom_new demo_hmac 6 (session_world x03 [] ["4"])
      = (Ret scenario_session, World [] [] ["4"] [] true) /\
    (4 + 3) mod 6 = 1 /\
    GameJs.values scenario_die !! 1%nat = Some (JS.Int 2) /\
    GameJs.userThrow demo_hmac scenario_game (session_world x03 [] ["4"])
      = (Ret (Some (JS.Int 2)), w3).
Proof.
  assert (H1 : GameJs.FairRandom_new demo_hmac 6 (session_world x03 [] ["4"])
                 = (Ret scenario_session, World [] [] ["4"] [] true))
    by (vm_compute; reflexivity).
  destruct (throw_selects_combined_face demo_hmac scenario_game scenario_die
              (session_world x03 [] ["4"]) scenario_session (World [] [] ["4"] [] true)
              (JS.Int 4)
              (World [] [] []
                 [Asked "Add your number modulo 6: " "4";
                  Said (MsgCommitted (JS.Int 0) (JS.Int 5) (GameJs.hmac scenario_session))] true)
              H1 ltac:(vm_compute; reflexivity))
    as (input & secret & face & w3 & Hu & Hv & _ & _ & _ & Hface & _ & Huser & _).
  injection Hu as <-. injection Hv as <-.
  injection Hface as <-.
  exists w3.
  split; [exact H1|]. split; [reflexivity|].
  split; [reflexivity | exact (Huser eq_refl)].
Defined.

(** C8. The turn-order decision over range 2, when the secret value is 1
    and the user's accepted guess is 0: the combined result (0 + 1) mod 2
    is 1, the guess does not equal the value, the decision is that the
    user does not move first, and the line after the one that reveals the
    value is the computer's announcement that it moves first. The second
    variant resolves the order to the computer on the same value and
    guess. *)
Theorem wrong_guess_computer_moves_first hmac (g : GameJs.DiceGame) (w : world)
    (fairness : GameJs.FairRandom) (w1 w2 : world) :
  GameJs.FairRandom_new hmac 2 (snd (say MsgDetermineFirst w)) = (Ret fairness, w1) ->
  GameJs.getValue fairness = JS.Int 1 ->
  GameJs.getUserInput g "Try to guess my selection (0 or 1): " [0; 1]
    (snd (say (MsgCommitted (JS.Int 0) (JS.Int 1) (GameJs.hmac fairness)) w1))
    = (Ret (JS.Int 0), w2) ->
  JS.rem (JS.add (JS.Int 0) (GameJs.getValue fairness)) (JS.Int 2) = JS.Int 1 /\
  JS.strict_eq (JS.Int 0) (GameJs.getValue fairness) = false /\
  fst (GameJs.decide_first hmac g w) = Ret false /\
  (exists later,
     transcript (snd (GameJs.start hmac g w)) =
       transcript w2
       ++ [Said (MsgMySelection (JS.Int 1) (GameJs.revealKey fairness)); Said MsgIFirst]
       ++ later) /\
  (forall (f : Variant.FairRandomGenerator) (wv : world) ints line lines,
     randomInts wv = 1 :: ints -> stdin wv = line :: lines ->
     JS.parseInt_auto line = JS.Int 0 ->
     fst (Variant.determineTurnOrder hmac f wv) = Ret "computer").
Proof.
  intros Hnew Hvalue Hguess.
  rewrite Hvalue. split; [reflexivity|]. split; [reflexivity|].
  pose (w3 := World (entropy w2) (randomInts w2) (stdin w2)
                (Said (MsgMySelection (JS.Int 1) (GameJs.revealKey fairness)) :: stdout w2) (terminal w2)).
  assert (Hdecide : GameJs.decide_first hmac g w = (Ret false, w3)).
  { unfold GameJs.decide_first.
    unfold bind at 1. unfold say at 1. cbn [snd say] in Hnew, Hguess.
    unfold bind at 1. rewrite Hnew.
    unfold bind at 1. unfold say at 1.
    unfold bind at 1. rewrite Hguess. rewrite Hvalue. reflexivity. }
  split; [rewrite Hdecide; reflexivity|]. split.
  - unfold GameJs.start. unfold bind at 1. rewrite Hdecide.
    pose (rest := (g' <- (g1 <- GameJs.computerSelectDice g;; GameJs.userSelectDice g1);;
                   say MsgLetsRoll;;;
                   computerRoll <- GameJs.computerThrow hmac g';;
                   userRoll <- GameJs.userThrow hmac g';;
                   GameJs.declareWinner userRoll computerRoll)%js).
    change (GameJs.play hmac false g w3) with (rest (snd (say MsgIFirst w3))).
    assert (Hrest : emits rest Revealed (fun _ q => q = Revealed)).
    { subst rest. apply Transcript.emits_selections_and_throws.
      Transcript.next ltac:(apply Transcript.emits_computerSelectDice; right; reflexivity).
      apply Transcript.emits_userSelectDice. right. reflexivity. }
    destruct (PlayFacts.emits_transcript rest Revealed _ (snd (say MsgIFirst w3)) Hrest)
      as (later & Hlater).
    exists later. rewrite Hlater. unfold transcript. cbn [snd say stdout w3 rev].
    rewrite <- !app_assoc. reflexivity.
  - intros f wv ints line lines Hints Hline Hparse.
    destruct wv as [bytes ints' lines' out]. cbn in Hints, Hline. subst ints' lines'.
    unfold Variant.determineTurnOrder, Variant.generateSecureValue.
    cbn -[JS.parseInt_auto]. rewrite Hparse. reflexivity.
Qed.

(** Scenario B, on a byte stream whose first draw after the key is 1 and
    with the user typing 0. *)
Lemma wrong_guess_computer_moves_first_witness :
  exists fairness,
    GameJs.getValue fairness = JS.Int 1 /\
    fst (GameJs.decide_first demo_hmac scenario_game (session_world x01 [] ["0"])) = Ret false /\
    (exists later,
       later <> [] /\
       transcript (snd (GameJs.start demo_hmac scenario_game (session_world x01 [0] ["0"]))) =
         [Said MsgDetermineFirst;
          Said (MsgCommitted (JS.Int 0) (JS.Int 1) (GameJs.hmac fairness));
          Asked "Try to guess my selection (0 or 1): " "0";
          Said (MsgMySelection (JS.Int 1) (GameJs.revealKey fairness));
          Said MsgIFirst] ++ later) /\
    fst (Variant.determineTurnOrder demo_hmac {| Variant.key := replicate 32 x07 |}
           (World [] [1] ["0"] [] true)) = Ret "computer".
Proof.
  pose (fairness := {| GameJs.rangeMax := 2; GameJs.key := replicate 32 x07;
                       GameJs.value := JS.Int 1;
                       GameJs.hmac := GameJs.calculateHMAC demo_hmac (replicate 32 x07)
                                        (JS.Int 1) |}).
  pose (committed := [Said (MsgCommitted (JS.Int 0) (JS.Int 1) (GameJs.hmac fairness));
                      Said MsgDetermineFirst]).
  pose (asked := Asked "Try to guess my selection (0 or 1): " "0").
  destruct (wrong_guess_computer_moves_first demo_hmac scenario_game
              (session_world x01 [0] ["0"]) fairness
              (World [] [0] ["0"] [Said MsgDetermineFirst] true)
              (World [] [0] [] (asked :: committed) true)
              ltac:(vm_compute; reflexivity) eq_refl ltac:(vm_compute; reflexivity))
    as (_ & _ & _ & (later & Hlater) & Hvariant).
  destruct (wrong_guess_computer_moves_first demo_hmac scenario_game
              (session_world x01 [] ["0"]) fairness
              (World [] [] ["0"] [Said MsgDetermineFirst] true)
              (World [] [] [] (asked :: committed) true)
              ltac:(vm_compute; reflexivity) eq_refl ltac:(vm_compute; reflexivity))
    as (_ & _ & Hdecide & _ & _).
  exists fairness. split; [reflexivity|]. split; [exact Hdecide|]. split.
  - exists later. split; [|exact Hlater].
    intros ->. vm_compute in Hlater. discriminate Hlater.
  - exact (Hvariant _ (World [] [1] ["0"] [] true) [] "0" [] eq_refl eq_refl eq_refl).
Defined.

(** ** The probability engine *)

Module CountFacts.

Import JS.

Lemma tally_cons {A} (test : A -> bool) (x : A) (l : list A) :
  tally test (x :: l) = (if test x then 1 else 0) + tally test l.
Proof.
  unfold tally. cbn [List.filter]. destruct (test x); cbn [length]; lia.
Qed.

Lemma count_pairs_nil (holds : number -> number -> bool) (faces2 : list number) :
  count_pairs holds [] faces2 = 0.
Proof. reflexivity. Qed.

Lemma count_pairs_cons (holds : number -> number -> bool) (a : number)
    (faces1 faces2 : list number) :
  count_pairs holds (a :: faces1) faces2 =
    tally (holds a) faces2 + count_pairs holds faces1 faces2.
Proof.
  unfold count_pairs, tally. cbn [list_prod].
  rewrite List.filter_app, length_app, Nat2Z.inj_add. f_equal. f_equal.
  induction faces2 as [|b faces2 IH]; [reflexivity|].
  cbn [List.map List.filter fst snd]. destruct (holds a b); cbn [length]; congruence.
Qed.

Lemma count_pairs_nil_r (holds : number -> number -> bool) (faces1 : list number) :
  count_pairs holds faces1 [] = 0.
Proof.
  induction faces1 as [|a faces1 IH]; [reflexivity|].
  rewrite count_pairs_cons, IH. reflexivity.
Qed.

(** The pairs of a product counted column by column. *)
Lemma count_pairs_cons_r (holds : number -> number -> bool) (b : number)
    (faces1 faces2 : list number) :
  count_pairs holds faces1 (b :: faces2) =
    tally (fun a => holds a b) faces1 + count_pairs holds faces1 faces2.
Proof.
  induction faces1 as [|a faces1 IH]; [reflexivity|].
  rewrite !count_pairs_cons, IH, !tally_cons. lia.
Qed.

(** The inner loop of both programs adds one per face it beats. *)
Lemma inner_loop (v1 : number) (faces2 : list number) (acc : Z) :
  fold_left (fun wins v2 => if gt v1 v2 then wins + 1 else wins) faces2 acc =
    acc + tally (gt v1) faces2.
Proof.
  revert acc. induction faces2 as [|v2 faces2 IH]; intros acc.
  - unfold tally. cbn. lia.
  - cbn [fold_left]. rewrite IH, tally_cons. destruct (gt v1 v2); lia.
Qed.

Lemma count_wins_from (faces1 faces2 : list number) (acc : Z) :
  fold_left
    (fun wins v1 =>
       fold_left (fun wins v2 => if gt v1 v2 then wins + 1 else wins) faces2 wins)
    faces1 acc = acc + wins faces1 faces2.
Proof.
  revert acc. induction faces1 as [|v1 faces1 IH]; intros acc.
  - unfold wins. rewrite count_pairs_nil. cbn. lia.
  - cbn [fold_left]. rewrite IH, inner_loop. unfold wins.
    rewrite count_pairs_cons. lia.
Qed.

(** game.js counts the wins of the spec. *)
Lemma count_wins_spec (d1 d2 : GameJs.Dice) :
  GameJs.count_wins d1 d2 = wins (GameJs.values d1) (GameJs.values d2).
Proof.
  unfold GameJs.count_wins. rewrite count_wins_from. lia.
Qed.

Lemma inner_rolls (roll1 : number) (faces2 : list number) (wins0 total0 : Z) :
  fold_left
    (fun '(wins, total) roll2 =>
       let total := total + 1 in (if gt roll1 roll2 then wins + 1 else wins, total))
    faces2 (wins0, total0) =
    (wins0 + tally (gt roll1) faces2, total0 + Z.of_nat (length faces2)).
Proof.
  revert wins0 total0. induction faces2 as [|roll2 faces2 IH]; intros wins0 total0.
  - unfold tally. cbn. f_equal; lia.
  - cbn [fold_left]. rewrite IH, tally_cons. cbn [length].
    destruct (gt roll1 roll2); f_equal; lia.
Qed.

Lemma count_rolls_from (faces1 faces2 : list number) (wins0 total0 : Z) :
  fold_left
    (fun counts roll1 =>
       fold_left
         (fun '(wins, total) roll2 =>
            let total := total + 1 in (if gt roll1 roll2 then wins + 1 else wins, total))
         faces2 counts)
    faces1 (wins0, total0) =
    (wins0 + wins faces1 faces2,
     total0 + Z.of_nat (length faces1) * Z.of_nat (length faces2)).
Proof.
  revert wins0 total0. induction faces1 as [|roll1 faces1 IH]; intros wins0 total0.
  - unfold wins. rewrite count_pairs_nil. cbn. f_equal; lia.
  - cbn [fold_left]. rewrite inner_rolls, IH. unfold wins.
    rewrite count_pairs_cons. cbn [length]. f_equal; lia.
Qed.

(** The second variant counts the wins of the spec and every pair. *)
Lemma count_rolls_spec (d1 d2 : Variant.Dice) :
  Variant.count_rolls d1 d2 =
    (wins (Variant.values d1) (Variant.values d2),
     Z.of_nat (length (Variant.values d1)) * Z.of_nat (length (Variant.values d2))).
Proof.
  unfold Variant.count_rolls. rewrite count_rolls_from. f_equal; lia.
Qed.

(** *** The table of game.js, cell by cell *)

(** A loop over [indexed l] whose step [k] changes position [k] alone. *)
Lemma fold_indexed_lookup {A B} (update : nat -> A -> list B -> list B)
    (at_k : nat -> A -> option B -> option B) :
  (forall k x t k', update k x t !! k' = if decide (k = k') then at_k k x (t !! k) else t !! k') ->
  forall (l : list A) (off : nat) (t : list B) (k : nat),
    fold_left (fun t '(m, x) => update m x t) (imap (fun m x => (off + m, x)%nat) l) t !! k =
      match (if decide (off <= k)%nat then l !! (k - off)%nat else None) with
      | Some x => at_k k x (t !! k)
      | None => t !! k
      end.
Proof.
  intros Hupdate l. induction l as [|x l IH]; intros off t k.
  - cbn. destruct (decide _); rewrite ?lookup_nil; reflexivity.
  - cbn [imap fold_left].
    rewrite (imap_ext _ (fun m y => (S off + m, y)%nat))
      by (intros; unfold compose; f_equal; lia).
    rewrite IH, Hupdate. replace (off + 0)%nat with off by lia.
    destruct (decide (off = k)) as [<-|Hne].
    + rewrite decide_False by lia. rewrite decide_True by lia.
      replace (off - off)%nat with O by lia. reflexivity.
    + destruct (decide (S off <= k)%nat) as [Hle|Hgt].
      * rewrite decide_True by lia.
        replace (k - off)%nat with (S (k - S off)) by lia. reflexivity.
      * rewrite decide_False by lia. reflexivity.
Qed.

Lemma fold_left_pointwise {A B} (f g : A -> B -> A) (l : list B) (a : A) :
  (forall a b, f a b = g a b) -> fold_left f l a = fold_left g l a.
Proof.
  intros Hfg. revert a. induction l as [|b l IH]; intros a; [reflexivity|].
  cbn. rewrite Hfg. apply IH.
Qed.

(** Writing [table[i][j]] for each [j] changes row [i] alone. *)
Lemma inner_forEach (i : nat) (d1 : GameJs.Dice) (pairs : list (nat * GameJs.Dice))
    (table : list (list GameJs.cell)) :
  fold_left
    (fun table '(j, d2) =>
       if (i =? j)%nat then table else alter (insert j (GameJs.cell_of d1 d2)) i table)
    pairs table =
  alter
    (fold_left
       (fun row '(j, d2) => if (i =? j)%nat then row else <[j := GameJs.cell_of d1 d2]> row)
       pairs)
    i table.
Proof.
  revert table. induction pairs as [|[j d2] pairs IH]; intros table.
  - cbn. symmetry. apply list_alter_id. reflexivity.
  - cbn [fold_left]. rewrite IH. destruct (i =? j)%nat; [reflexivity|].
    rewrite list_alter_alter_eq. reflexivity.
Qed.

Lemma calculateProbabilities_rows (diceList : list GameJs.Dice) (i : nat) (d1 : GameJs.Dice) :
  diceList !! i = Some d1 ->
  GameJs.calculateProbabilities diceList !! i =
    Some (fill_row diceList i d1 (replicate (length diceList) GameJs.Zero)).
Proof.
  intros Hi. unfold GameJs.calculateProbabilities.
  rewrite (fold_left_pointwise _
             (fun table '(i, d1) => alter (fill_row diceList i d1) i table))
    by (intros table [i' d1']; apply inner_forEach).
  unfold GameJs.indexed.
  pose proof (fold_indexed_lookup
    (fun i d1 table => alter (fill_row diceList i d1) i table)
    (fun i d1 row => fill_row diceList i d1 <$> row)) as Hfold.
  rewrite (Hfold ltac:(intros; apply list_lookup_alter) diceList O).
  rewrite decide_True by lia. rewrite Nat.sub_0_r, Hi.
  rewrite lookup_replicate_2 by (apply lookup_lt_Some in Hi; exact Hi).
  reflexivity.
Qed.

Lemma fill_row_lookup (diceList : list GameJs.Dice) (i j : nat) (d1 d2 : GameJs.Dice) :
  diceList !! j = Some d2 ->
  fill_row diceList i d1 (replicate (length diceList) GameJs.Zero) !! j =
    Some (if (i =? j)%nat then GameJs.Zero else GameJs.cell_of d1 d2).
Proof.
  intros Hj. unfold fill_row, GameJs.indexed.
  pose proof (fold_indexed_lookup
    (fun j d2 row => if (i =? j)%nat then row else <[j := GameJs.cell_of d1 d2]> row)
    (fun j d2 (c : option GameJs.cell) =>
       if (i =? j)%nat then c else (fun _ => GameJs.cell_of d1 d2) <$> c)) as Hfold.
  rewrite (Hfold) with (off := O).
  - rewrite decide_True by lia. rewrite Nat.sub_0_r, Hj.
    rewrite lookup_replicate_2 by (apply lookup_lt_Some in Hj; exact Hj).
    destruct (i =? j)%nat; reflexivity.
  - intros k x t k'. destruct (i =? k)%nat eqn:E.
    + destruct (decide (k = k')) as [<-|]; reflexivity.
    + rewrite list_lookup_insert.
      destruct (decide (k = k')) as [<-|Hne].
      * destruct (t !! k) eqn:Hk.
        -- rewrite decide_True; [reflexivity|]. split; [reflexivity|].
           apply lookup_lt_Some in Hk. exact Hk.
        -- rewrite decide_False; [reflexivity|]. intros [_ Hlt].
           apply lookup_ge_None in Hk. lia.
      * rewrite decide_False by tauto. reflexivity.
Qed.

(** The cell of an ordered pair of dice. *)
Lemma calculateProbabilities_lookup (diceList : list GameJs.Dice) (i j : nat)
    (d1 d2 : GameJs.Dice) :
  diceList !! i = Some d1 -> diceList !! j = Some d2 ->
  GameJs.calculateProbabilities diceList !! i ≫= (.!! j) =
    Some (if (i =? j)%nat then GameJs.Zero else GameJs.cell_of d1 d2).
Proof.
  intros Hi Hj. rewrite (calculateProbabilities_rows _ _ _ Hi). cbn.
  apply fill_row_lookup, Hj.
Qed.

Lemma append_assoc (s1 s2 s3 : string) : (s1 +:+ s2) +:+ s3 = s1 +:+ (s2 +:+ s3).
Proof.
  induction s1 as [|c s1 IH]; [reflexivity|].
  change (String c ((s1 +:+ s2) +:+ s3) = String c (s1 +:+ (s2 +:+ s3))).
  rewrite IH. reflexivity.
Qed.

(** Rounding to the nearest integer, the upper one on a tie. *)
Lemma round_half_up_nearest (num den : Z) :
  0 < den ->
  - den <= 2 * (num - round_half_up num den * den) < den.
Proof.
  intros Hden. unfold round_half_up.
  pose proof (Z.div_mod (2 * num + den) (2 * den) ltac:(lia)) as Hdiv.
  pose proof (Z.mod_pos_bound (2 * num + den) (2 * den) ltac:(lia)) as Hmod.
  set (q := (2 * num + den) / (2 * den)) in *.
  set (r := (2 * num + den) mod (2 * den)) in *.
  lia.
Qed.

(** Between two integers exactly one of [>], [<] and [==] holds. *)
Lemma tally_trichotomy (x : Z) (faces : list Z) :
  tally (gt (Int x)) (map Int faces)
  + tally (fun y => gt y (Int x)) (map Int faces)
  + tally (strict_eq (Int x)) (map Int faces) = Z.of_nat (length faces).
Proof.
  induction faces as [|y faces IH]; [reflexivity|].
  cbn [map]. rewrite !tally_cons. cbn [gt strict_eq length].
  destruct (y <? x) eqn:E1, (x <? y) eqn:E2, (x =? y) eqn:E3; lia.
Qed.

Lemma wins_ties_total (faces1 faces2 : list Z) :
  wins (map Int faces1) (map Int faces2)
  + wins (map Int faces2) (map Int faces1)
  + ties (map Int faces1) (map Int faces2)
  = Z.of_nat (length faces1) * Z.of_nat (length faces2).
Proof.
  unfold wins, ties. induction faces1 as [|x faces1 IH]; cbn [map].
  - rewrite !count_pairs_nil, count_pairs_nil_r. reflexivity.
  - rewrite !count_pairs_cons, count_pairs_cons_r.
    pose proof (tally_trichotomy x faces2). cbn [length]. lia.
Qed.

End CountFacts.

(** *** The rounding of the quotient and of the percentage *)

Module DoubleFacts.

Import JS.

(** Rounding to the nearest integer is off by half at most. *)
Lemma nearest_even_bound (num den : Z) :
  0 <= num -> 0 < den ->
  - den <= 2 * (nearest_even num den * den - num) <= den.
Proof.
  intros Hn Hd. unfold nearest_even.
  pose proof (Z.div_mod num den ltac:(lia)) as Hdm.
  pose proof (Z.mod_pos_bound num den Hd) as Hmod.
  set (q := num / den) in *. set (r := num mod den) in *.
  destruct (2 * r <? den) eqn:E1; [apply Z.ltb_lt in E1; lia|].
  apply Z.ltb_ge in E1.
  destruct (den <? 2 * r) eqn:E2; [apply Z.ltb_lt in E2; lia|].
  apply Z.ltb_ge in E2. destruct (Z.even q); lia.
Qed.

(** The logarithm of a quotient below [2^k] is below [k]. *)
Lemma floor_log2_lt (num den k : Z) :
  0 < num -> 0 < den -> 0 <= k -> num < den * 2 ^ k -> floor_log2 num den < k.
Proof.
  intros Hn Hd Hk Hlt. unfold floor_log2.
  assert (Z.log2 num <= Z.log2 den + k) as Hlog.
  { rewrite Z.add_comm, <- (Z.log2_mul_pow2 den k) by lia. apply Z.log2_le_mono. lia. }
  set (kk := Z.log2 num - Z.log2 den) in *.
  destruct (Z_lt_le_dec kk k) as [Hsmall|Hbig].
  - destruct (if 0 <=? kk then _ else _); lia.
  - assert (kk = k) as -> by lia.
    destruct (0 <=? k) eqn:E0; [|apply Z.leb_gt in E0; lia].
    destruct (den * 2 ^ k <=? num) eqn:E1; [apply Z.leb_le in E1; lia | lia].
Qed.

(** The double nearest to a quotient below [2^k], for a [k] of [0, 52]:
    a mantissa over a power of two of at least [2^(53 - k)], off by half
    a unit of that power at most. *)
Lemma nearest_double_below (num den k : Z) :
  0 < num -> 0 < den -> 0 <= k <= 52 -> num < den * 2 ^ k ->
  exists m s,
    nearest_double num den = Double m (- Z.log2 s) /\
    s = 2 ^ Z.log2 s /\ 2 ^ (53 - k) <= s /\ Z.log2 s <= 1074 /\ 0 < Z.log2 s /\
    - den <= 2 * (m * den - num * s) <= den.
Proof.
  intros Hn Hd Hk Hlt. unfold nearest_double.
  destruct (num =? 0) eqn:E0; [apply Z.eqb_eq in E0; lia|].
  pose proof (floor_log2_lt num den k Hn Hd ltac:(lia) Hlt) as Hfl.
  set (e := Z.max (floor_log2 num den - 52) (- 1074)).
  assert (- 1074 <= e <= k - 53) as He by (subst e; lia).
  destruct (0 <=? e) eqn:Epos; [apply Z.leb_le in Epos; lia|].
  destruct (971 <? e) eqn:E1; [apply Z.ltb_lt in E1; lia|].
  destruct (e =? 971) eqn:E2; [apply Z.eqb_eq in E2; lia|]. cbn [orb andb].
  exists (nearest_even (num * 2 ^ (- e)) den), (2 ^ (- e)).
  rewrite Z.log2_pow2 by lia. rewrite Z.opp_involutive.
  split; [reflexivity|]. split; [reflexivity|].
  split; [apply Z.pow_le_mono_r; lia|]. split; [lia|]. split; [lia|].
  apply nearest_even_bound; [|exact Hd].
  apply Z.mul_nonneg_nonneg; [lia | apply Z.pow_nonneg; lia].
Qed.

(** The digits [toFixed] writes of a double with a negative exponent. *)
Lemma fixed_digits_bound (digits : nat) (m s : Z) :
  0 < Z.log2 s -> s = 2 ^ Z.log2 s ->
  - s <= 2 * (m * 10 ^ Z.of_nat digits - fixed_digits digits m (- Z.log2 s) * s) < s.
Proof.
  intros Hlog Hs. unfold fixed_digits.
  destruct (0 <=? - Z.log2 s) eqn:E; [apply Z.leb_le in E; lia|].
  rewrite Z.opp_involutive, <- Hs.
  apply CountFacts.round_half_up_nearest. rewrite Hs. apply Z.pow_pos_nonneg; lia.
Qed.

(** [(W / T).toFixed(4)] for counts [W <= T] with [T] up to 2^36: the
    digits written are within half a unit of [10000 * W / T]. *)
Lemma toFixed_4_bound (W T : Z) :
  0 <= W <= T -> 0 < T <= 2 ^ 36 ->
  exists n,
    toFixed 4 W T = place_point 4 (pretty n) /\
    - T <= 2 * (10000 * W - n * T) <= T.
Proof.
  intros HW HT. unfold toFixed, divide.
  destruct (T =? 0) eqn:ET; [apply Z.eqb_eq in ET; lia|].
  destruct (Z.eq_dec W 0) as [->|HW0].
  { exists 0. split; [reflexivity | lia]. }
  destruct (nearest_double_below W T 1 ltac:(lia) ltac:(lia) ltac:(lia) ltac:(lia))
    as (m & s & -> & Hs & Hbig & _ & Hlog & Hm).
  cbn [toFixed_double]. exists (fixed_digits 4 m (- Z.log2 s)).
  split; [reflexivity|].
  pose proof (fixed_digits_bound 4 m s Hlog Hs) as Hn.
  change (10 ^ Z.of_nat 4) with 10000 in Hn.
  set (n := fixed_digits 4 m (- Z.log2 s)) in *.
  change (2 ^ (53 - 1)) with 4503599627370496 in Hbig.
  change (2 ^ 36) with 68719476736 in HT.
  assert (Hid : 2 * (10000 * W - n * T) * s
                = 10000 * (2 * (W * s) - 2 * (m * T)) + T * (2 * (m * 10000) - 2 * (n * s)))
    by ring.
  assert (H1 : T * (2 * (m * 10000) - 2 * (n * s)) <= T * s) by (apply Z.mul_le_mono_nonneg_l; lia).
  assert (H2 : - (T * s) <= T * (2 * (m * 10000) - 2 * (n * s))).
  { rewrite <- Z.mul_opp_r. apply Z.mul_le_mono_nonneg_l; lia. }
  split.
  - apply Z.nlt_ge. intros Hlow.
    assert (2 * (10000 * W - n * T) * s <= (- T - 1) * s)
      by (apply Z.mul_le_mono_nonneg_r; lia).
    nia.
  - apply Z.nlt_ge. intros Hhigh.
    assert ((T + 1) * s <= 2 * (10000 * W - n * T) * s)
      by (apply Z.mul_le_mono_nonneg_r; lia).
    nia.
Qed.

(** [(W / T * 100).toFixed(2)] for counts [W <= T] with [T] up to 2^36:
    the digits written are within half a unit of [10000 * W / T]. *)
Lemma percentage_bound (W T : Z) :
  0 <= W <= T -> 0 < T <= 2 ^ 36 ->
  exists n,
    toFixed_double 2 (times (divide W T) 100) = place_point 2 (pretty n) /\
    - T <= 2 * (10000 * W - n * T) <= T.
Proof.
  intros HW HT. unfold divide.
  destruct (T =? 0) eqn:ET; [apply Z.eqb_eq in ET; lia|].
  destruct (Z.eq_dec W 0) as [->|HW0].
  { exists 0. split; [reflexivity | lia]. }
  destruct (nearest_double_below W T 1 ltac:(lia) ltac:(lia) ltac:(lia) ltac:(lia))
    as (m & s & -> & Hs & Hbig & _ & Hlog & Hm).
  change (2 ^ (53 - 1)) with 4503599627370496 in Hbig.
  change (2 ^ 36) with 68719476736 in HT.
  assert (Hspos : 0 < s) by lia.
  assert (Hmpos : 0 < m) by nia.
  assert (Hmle : m <= s) by nia.
  cbn [times]. destruct (0 <=? - Z.log2 s) eqn:E; [apply Z.leb_le in E; lia|].
  rewrite Z.opp_involutive, <- Hs.
  destruct (nearest_double_below (100 * m) s 7 ltac:(lia) Hspos ltac:(lia)
              ltac:(change (2 ^ 7) with 128; lia))
    as (m2 & s2 & -> & Hs2 & Hbig2 & _ & Hlog2 & Hm2).
  change (2 ^ (53 - 7)) with 70368744177664 in Hbig2.
  cbn [toFixed_double]. exists (fixed_digits 2 m2 (- Z.log2 s2)).
  split; [reflexivity|].
  pose proof (fixed_digits_bound 2 m2 s2 Hlog2 Hs2) as Hn.
  change (10 ^ Z.of_nat 2) with 100 in Hn.
  set (n := fixed_digits 2 m2 (- Z.log2 s2)) in *.
  set (X := 2 * (W * s) - 2 * (m * T)) in *.
  set (Y := 2 * (m2 * s) - 2 * (100 * m * s2)) in *.
  set (V := 2 * (m2 * 100) - 2 * (n * s2)) in *.
  assert (HX : - T <= X <= T) by (subst X; lia).
  assert (HY : - s <= Y <= s) by (subst Y; lia).
  assert (HV : - s2 <= V <= s2) by (subst V; lia).
  assert (Hid : 2 * (10000 * W - n * T) * (s * s2)
                = 10000 * s2 * X - 100 * T * Y + T * s * V)
    by (subst X Y V; ring).
  assert (Hss : 0 < s * s2) by nia.
  assert (B1 : 10000 * s2 * X <= 10000 * s2 * T) by (apply Z.mul_le_mono_nonneg_l; lia).
  assert (B1' : - (10000 * s2 * T) <= 10000 * s2 * X).
  { rewrite <- Z.mul_opp_r. apply Z.mul_le_mono_nonneg_l; lia. }
  assert (B2 : 100 * T * Y <= 100 * T * s) by (apply Z.mul_le_mono_nonneg_l; lia).
  assert (B2' : - (100 * T * s) <= 100 * T * Y).
  { rewrite <- Z.mul_opp_r. apply Z.mul_le_mono_nonneg_l; lia. }
  assert (B3 : T * s * V <= T * s * s2) by (apply Z.mul_le_mono_nonneg_l; nia).
  assert (B3' : - (T * s * s2) <= T * s * V).
  { rewrite <- Z.mul_opp_r. apply Z.mul_le_mono_nonneg_l; nia. }
  assert (C1 : 6 * (10000 * s2 * T) <= s * s2).
  { replace (6 * (10000 * s2 * T)) with ((60000 * T) * s2) by ring.
    apply Z.mul_le_mono_nonneg_r; lia. }
  assert (C2 : 10 * (100 * T * s) <= s * s2).
  { replace (10 * (100 * T * s)) with (s * (1000 * T)) by ring.
    apply Z.mul_le_mono_nonneg_l; lia. }
  split.
  - apply Z.nlt_ge. intros Hlow.
    assert (2 * (10000 * W - n * T) * (s * s2) <= (- T - 1) * (s * s2))
      by (apply Z.mul_le_mono_nonneg_r; lia).
    replace ((- T - 1) * (s * s2)) with (- (T * s * s2) - s * s2) in H by ring.
    lia.
  - apply Z.nlt_ge. intros Hhigh.
    assert ((T + 1) * (s * s2) <= 2 * (10000 * W - n * T) * (s * s2))
      by (apply Z.mul_le_mono_nonneg_r; lia).
    replace ((T + 1) * (s * s2)) with (T * s * s2 + s * s2) in H by ring.
    lia.
Qed.

(** The wins are at most the pairs. *)
Lemma wins_range (faces1 faces2 : list number) :
  0 <= wins faces1 faces2 <= Z.of_nat (length faces1) * Z.of_nat (length faces2).
Proof.
  unfold wins, count_pairs.
  pose proof (List.filter_length_le (fun ab => gt (fst ab) (snd ab))
                (list_prod faces1 faces2)) as Hle.
  rewrite length_prod in Hle. lia.
Qed.

(** The quotient is rounded twice, to a double and then to the decimals:
    230 / 1600 is 0.14375, the double nearest to it lies below, and four
    decimals of that are 0.1437; likewise 58 / 1600 * 100 prints 3.62. *)
Example toFixed_rounds_the_double :
  toFixed 4 230 1600 = "0.1437" /\
  toFixed_double 2 (times (divide 58 1600) 100) = "3.62" /\
  toFixed 4 20 36 = "0.5556" /\
  toFixed_double 2 (times (divide 1 3) 100) = "33.33" /\
  toFixed 4 0 0 = "NaN".
Proof.
  repeat split; vm_compute; reflexivity.
Qed.

(** Two dice of 40 faces with 230 wins of the first over the second. *)
Example calculateProbabilities_rounds_the_double :
  GameJs.calculateProbabilities wide_dice !! 0%nat ≫= (.!! 1%nat)
    = Some (GameJs.Fixed "0.1437").
Proof.
  vm_compute. reflexivity.
Qed.

(** What is read from a string is the nearest double: digits beyond the
    53 bits are rounded, a decimal too small is the integer 0, one too
    large is an infinity. *)
Example strings_are_read_as_doubles :
  parseInt "9007199254740993" = Int 9007199254740992 /\
  parseInt "-9007199254740995" = Int (-9007199254740996) /\
  isInteger (Number "1e-400") = true /\ integer_value (Number "1e-400") = 0 /\
  isInteger (Number "0.1e1") = true /\ integer_value (Number "0.1e1") = 1 /\
  isInteger (Number "2.5") = false /\
  isInteger (Number "1e400") = false /\ isNaN_string "1e400" = false /\
  isInteger (Number "0x1f") = true /\ integer_value (Number "0x1f") = 31.
Proof.
  repeat split; vm_compute; reflexivity.
Qed.

(** White space of Unicode is dropped as that of ASCII is: U+00A0 before
    a digit, U+3000 and U+FEFF around one. *)
Example unicode_white_space_is_dropped :
  let wide := String (ascii_of_N 227) (String (ascii_of_N 128)
                (String (ascii_of_N 128) EmptyString)) in
  let bom := String (ascii_of_N 239) (String (ascii_of_N 187)
               (String (ascii_of_N 191) EmptyString)) in
  trim (nbsp +:+ "1") = "1" /\
  parseInt (nbsp +:+ "1") = Int 1 /\
  trim (wide +:+ " 7" +:+ bom +:+ nbsp) = "7" /\
  isInteger (Number (nbsp +:+ "4" +:+ wide)) = true /\
  integer_value (Number (nbsp +:+ "4" +:+ wide)) = 4 /\
  passed_over [0; 1] (nbsp +:+ "1") = false /\
  fst (GameJs.getUserInput scenario_game "? " [0; 1]
         (World [] [] [nbsp +:+ "1" +:+ nbsp] [] true)) = Ret (Int 1).
Proof.
  repeat split; vm_compute; reflexivity.
Qed.

(** With no line to read and no terminal the question fails; with a
    terminal it waits. *)
Example question_needs_a_terminal :
  fst (question "? " (World [] [] [] [] false)) = Throw no_terminal /\
  fst (question "? " (World [] [] [] [] true)) = Stall /\
  fst (GameJs.getUserInput scenario_game "? " [0; 1] (World [] [] [] [] false))
    = Throw no_terminal.
Proof.
  repeat split; vm_compute; reflexivity.
Qed.

End DoubleFacts.

(** C2. For dice of F faces each, F from 1 to 2^18, and two different
    positions i and j of the sequence: the engine counts as wins the face
    pairs (a, b) of the Cartesian product with a > b and as total F * F;
    the cell it produces shows [wins/total] and the percentage
    100 * wins / (F * F) with two decimals, the hundredths written being
    within one half of the exact value; the cell of game.js for the same
    pair is wins / total with four decimals, within half a unit of the
    fourth. (The quotient and the percentage are doubles: where the exact
    value lies halfway between two decimals either may be written.) *)
Theorem probability_cell_counts_wins (diceList : list Variant.Dice) (i j : nat)
    (d1 d2 : Variant.Dice) (F : nat) :
  i <> j -> diceList !! i = Some d1 -> diceList !! j = Some d2 ->
  length (Variant.values d1) = F -> length (Variant.values d2) = F ->
  1 <= Z.of_nat F <= 2 ^ 18 ->
  let W := wins (Variant.values d1) (Variant.values d2) in
  let T := Z.of_nat F * Z.of_nat F in
  Variant.count_rolls d1 d2 = (W, T) /\
  exists hundredths tenthousandths,
    Variant.calculateProbability d1 d2 =
      {| Variant.fraction := pretty W +:+ "/" +:+ pretty T;
         Variant.percentage := JS.place_point 2 (pretty hundredths) |} /\
    - T <= 2 * (100 * (100 * W) - hundredths * T) <= T /\
    Variant.table_rows diceList !! i ≫= (.!! j) =
      Some (pretty W +:+ "/" +:+ pretty T +:+ " ("
            +:+ JS.place_point 2 (pretty hundredths) +:+ "%)") /\
    GameJs.calculateProbabilities
      (map (fun d => {| GameJs.values := Variant.values d |}) diceList) !! i ≫= (.!! j) =
      Some (GameJs.Fixed (JS.place_point 4 (pretty tenthousandths))) /\
    - T <= 2 * (10000 * W - tenthousandths * T) <= T.
Proof.
  intros Hij Hi Hj H1 H2 HF W T.
  assert (Hcount : Variant.count_rolls d1 d2 = (W, T)).
  { rewrite CountFacts.count_rolls_spec, H1, H2. reflexivity. }
  assert (HW : 0 <= W <= T).
  { pose proof (DoubleFacts.wins_range (Variant.values d1) (Variant.values d2)) as Hr.
    rewrite H1, H2 in Hr. exact Hr. }
  assert (HT : 0 < T <= 2 ^ 36).
  { subst T. change (2 ^ 36) with (2 ^ 18 * 2 ^ 18). split; [nia|].
    apply Z.mul_le_mono_nonneg; lia. }
  destruct (DoubleFacts.percentage_bound W T HW HT) as (hundredths & Hpercent & Hh).
  destruct (DoubleFacts.toFixed_4_bound W T HW HT) as (tenthousandths & Hfixed & Ht).
  assert (Hcalc : Variant.calculateProbability d1 d2 =
    {| Variant.fraction := pretty W +:+ "/" +:+ pretty T;
       Variant.percentage := JS.place_point 2 (pretty hundredths) |}).
  { unfold Variant.calculateProbability. rewrite Hcount, Hpercent. reflexivity. }
  split; [exact Hcount|]. exists hundredths, tenthousandths.
  split; [exact Hcalc|]. split; [lia|]. split; [|split; [|exact Ht]].
  - unfold Variant.table_rows. rewrite list_lookup_imap, Hi.
    cbn -[JS.place_point String.append Variant.row_cells].
    unfold Variant.row_cells. rewrite list_lookup_imap, Hj.
    cbn -[JS.place_point String.append Variant.calculateProbability JS.toFixed_double
          JS.times JS.divide].
    destruct (i =? j)%nat eqn:E; [apply Nat.eqb_eq in E; contradiction|].
    rewrite Hcalc. cbn [Variant.fraction Variant.percentage].
    rewrite (CountFacts.append_assoc (pretty W)), (CountFacts.append_assoc "/").
    reflexivity.
  - rewrite (CountFacts.calculateProbabilities_lookup _ i j
               {| GameJs.values := Variant.values d1 |}
               {| GameJs.values := Variant.values d2 |})
      by (rewrite list_lookup_fmap; first [rewrite Hi | rewrite Hj]; reflexivity).
    destruct (i =? j)%nat eqn:E; [apply Nat.eqb_eq in E; contradiction|].
    unfold GameJs.cell_of, GameJs.cell_counts.
    rewrite CountFacts.count_wins_spec. cbn [GameJs.values]. rewrite H1, H2.
    fold W T. rewrite Hfixed. reflexivity.
Qed.

(** Scenario A: the first die against the second wins 20 of 36 pairs,
    55.56 per cent. *)
Lemma probability_cell_counts_wins_witness :
  (Variant.count_rolls
     {| Variant.values := map JS.Int [2; 2; 4; 4; 9; 9] |}
     {| Variant.values := map JS.Int [1; 1; 6; 6; 8; 8] |} = (20, 36) /\
   exists hundredths tenthousandths,
     Variant.calculateProbability
       {| Variant.values := map JS.Int [2; 2; 4; 4; 9; 9] |}
       {| Variant.values := map JS.Int [1; 1; 6; 6; 8; 8] |} =
       {| Variant.fraction := "20/36";
          Variant.percentage := JS.place_point 2 (pretty hundredths) |} /\
     - 36 <= 2 * (100 * (100 * 20) - hundredths * 36) <= 36 /\
     Variant.table_rows scenario_dice !! 0%nat ≫= (.!! 1%nat) =
       Some ("20/36" +:+ " (" +:+ JS.place_point 2 (pretty hundredths) +:+ "%)") /\
     GameJs.calculateProbabilities
       (map (fun d => {| GameJs.values := Variant.values d |}) scenario_dice) !! 0%nat
       ≫= (.!! 1%nat) = Some (GameJs.Fixed (JS.place_point 4 (pretty tenthousandths))) /\
     - 36 <= 2 * (10000 * 20 - tenthousandths * 36) <= 36) /\
  Variant.calculateProbability
    {| Variant.values := map JS.Int [2; 2; 4; 4; 9; 9] |}
    {| Variant.values := map JS.Int [1; 1; 6; 6; 8; 8] |} =
    {| Variant.fraction := "20/36"; Variant.percentage := "55.56" |} /\
  Variant.table_rows scenario_dice !! 0%nat ≫= (.!! 1%nat) = Some "20/36 (55.56%)" /\
  GameJs.calculateProbabilities
    (map (fun d => {| GameJs.values := Variant.values d |}) scenario_dice) !! 0%nat
    ≫= (.!! 1%nat) = Some (GameJs.Fixed "0.5556").
Proof.
  split; [|split; [|split]]; [|vm_compute; reflexivity..].
  exact (probability_cell_counts_wins scenario_dice 0 1 _ _ 6
           ltac:(discriminate) eq_refl eq_refl eq_refl eq_refl ltac:(cbn; lia)).
Defined.



(** A face that is NaN (game.js reads one from an empty token) is in no
    order with any face and equal to none: such pairs fall outside the
    three counts. *)
Lemma NaN_face_is_in_no_count :
  GameJs.count_wins {| GameJs.values := [JS.NaN] |} {| GameJs.values := [JS.Int 1] |}
  + GameJs.count_wins {| GameJs.values := [JS.Int 1] |} {| GameJs.values := [JS.NaN] |}
  + ties [JS.NaN] [JS.Int 1] = 0.
Proof. reflexivity. Qed.



(** ** The dice on the command line *)

Module ParseFacts.

Import JS GameJs.

Lemma parse_value_run (index : nat) (token : string) (w : world) :
  parse_value index token w =
    if token_passes token then (Ret (parseInt token), w)
    else (Exit 1, snd (say (MsgErrNonInteger (Z.of_nat index + 1) token) w)).
Proof.
  unfold parse_value, token_passes. destruct (isNaN_string token); reflexivity.
Qed.

Lemma mapM_parse_value (index : nat) (tokens : list string) (w : world) :
  if forallb token_passes tokens
  then mapM (parse_value index) tokens w = (Ret (map parseInt tokens), w)
  else fst (mapM (parse_value index) tokens w) = Exit 1.
Proof.
  induction tokens as [|token tokens IH]; [reflexivity|].
  cbn [forallb mapM].
  destruct (token_passes token) eqn:Etoken; cbn [andb];
    [| unfold bind; rewrite parse_value_run, Etoken; reflexivity].
  destruct (forallb token_passes tokens);
    unfold bind; rewrite parse_value_run, Etoken.
  - rewrite IH. reflexivity.
  - destruct (mapM _ tokens w) as [[vs|c|e|] w']; cbn in IH |- *; congruence.
Qed.

Lemma parse_arg_run (index : nat) (arg : string) (w : world) :
  if arg_passes arg
  then parse_arg (index, arg) w = (Ret (die_of arg), w)
  else fst (parse_arg (index, arg) w) = Exit 1.
Proof.
  unfold arg_passes.
  pose proof (mapM_parse_value index (split_comma arg) w) as Htokens.
  destruct (forallb token_passes (split_comma arg)); cbn [andb].
  - destruct (length (split_comma arg) =? 6)%nat eqn:Esix;
      unfold parse_arg, bind; rewrite Htokens, length_map, Esix; reflexivity.
  - unfold parse_arg, bind.
    destruct (mapM _ _ w) as [[vs|c|e|] w']; cbn in Htokens |- *; congruence.
Qed.

Lemma mapM_parse_arg (entries : list (nat * string)) (w : world) :
  if forallb arg_passes (map snd entries)
  then mapM parse_arg entries w = (Ret (map die_of (map snd entries)), w)
  else fst (mapM parse_arg entries w) = Exit 1.
Proof.
  induction entries as [|[index arg] entries IH]; [reflexivity|].
  cbn [map snd forallb mapM].
  pose proof (parse_arg_run index arg w) as Harg.
  destruct (arg_passes arg); cbn [andb].
  - destruct (forallb arg_passes (map snd entries)); unfold bind; rewrite Harg.
    + rewrite IH. reflexivity.
    + destruct (mapM _ entries w) as [[ds|c|e|] w']; cbn in IH |- *; congruence.
  - unfold bind. destruct (parse_arg _ w) as [[d|c|e|] w']; cbn in Harg |- *; congruence.
Qed.

Lemma snd_indexed {A} (l : list A) : map snd (indexed l) = l.
Proof.
  unfold indexed. apply list_eq. intros i.
  rewrite list_lookup_fmap, list_lookup_imap. destruct (l !! i); reflexivity.
Qed.

(** What [parseDice] accepts, and what it makes of it: at least three
    arguments, each of six tokens that [Number] does not turn into NaN;
    every face is [parseInt] of its token. Anything else ends the process
    with code 1. *)
Lemma parseDice_run (args : list string) (w : world) :
  fst (parseDice args w) =
    if (3 <=? length args)%nat && forallb arg_passes args
    then Ret (map die_of args)
    else Exit 1.
Proof.
  unfold parseDice.
  destruct (length args <? 3)%nat eqn:E.
  - apply Nat.ltb_lt in E. destruct (3 <=? length args)%nat eqn:E'; [|reflexivity].
    apply Nat.leb_le in E'. lia.
  - apply Nat.ltb_ge in E. destruct (3 <=? length args)%nat eqn:E';
      [|apply Nat.leb_gt in E'; lia]. cbn [andb].
    pose proof (mapM_parse_arg (indexed args) w) as Hrun.
    rewrite snd_indexed in Hrun.
    destruct (forallb arg_passes args); [rewrite Hrun; reflexivity | exact Hrun].
Qed.

(** Fewer than three arguments are turned down. *)
Lemma parseDice_too_few (args : list string) (w : world) :
  (length args < 3)%nat -> fst (parseDice args w) = Exit 1.
Proof.
  intros Hlen. rewrite parseDice_run.
  destruct (3 <=? length args)%nat eqn:E; [apply Nat.leb_le in E; lia | reflexivity].
Qed.

(** A die whose number of tokens is not six is turned down. *)
Lemma parseDice_wrong_count (args : list string) (arg : string) (w : world) :
  In arg args -> length (split_comma arg) <> 6%nat -> fst (parseDice args w) = Exit 1.
Proof.
  intros Hin Hcount. rewrite parseDice_run.
  destruct (forallb arg_passes args) eqn:E; [|rewrite andb_false_r; reflexivity].
  exfalso. rewrite forallb_forall in E. specialize (E arg Hin).
  unfold arg_passes in E. apply andb_prop in E as [_ E].
  apply Nat.eqb_eq in E. contradiction.
Qed.

(** The second variant turns down fewer than three arguments too. *)
Lemma parseArgs_too_few (args : list string) (w : world) :
  (length args < 3)%nat ->
  fst (Variant.parseArgs args w) = Throw "At least three dice configurations are required.".
Proof.
  intros Hlen. unfold Variant.parseArgs.
  destruct (length args <? 3)%nat eqn:E; [reflexivity | apply Nat.ltb_ge in E; lia].
Qed.

End ParseFacts.

(** C9, at the inputs where the programs part from it. Both accept three
    arguments of six tokens of which one is no integer: game.js reads
    [2.5] as the face 2 and an empty token as the face NaN, the second
    variant reads an empty token as the face 0. (The other rejections of
    the claim hold: [ParseFacts.parseDice_too_few],
    [ParseFacts.parseDice_wrong_count], [ParseFacts.parseArgs_too_few].) *)
Theorem parsers_accept_tokens_that_are_no_integers :
  fst (GameJs.parseDice ["2.5,2,4,4,9,9"; "1,1,6,6,8,8"; "3,3,5,5,7,"] (World [] [] [] [] true)) =
    Ret [ {| GameJs.values := map JS.Int [2; 2; 4; 4; 9; 9] |};
          {| GameJs.values := map JS.Int [1; 1; 6; 6; 8; 8] |};
          {| GameJs.values := map JS.Int [3; 3; 5; 5; 7] ++ [JS.NaN] |} ] /\
  fst (Variant.parseArgs ["2,2,4,4,9,9"; "1,1,6,6,8,8"; "3,3,5,5,7,"] (World [] [] [] [] true)) =
    Ret [ {| Variant.values := map JS.Int [2; 2; 4; 4; 9; 9] |};
          {| Variant.values := map JS.Int [1; 1; 6; 6; 8; 8] |};
          {| Variant.values := map JS.Int [3; 3; 5; 5; 7; 0] |} ] /\
  fst (Variant.parseArgs ["2.5,2,4,4,9,9"; "1,1,6,6,8,8"; "3,3,5,5,7,7"] (World [] [] [] [] true)) =
    Throw "Each dice must have 6 integer values." /\
  fst (GameJs.parseDice ["2,2,4,4,9"; "1,1,6,6,8,8"; "3,3,5,5,7,7"] (World [] [] [] [] true)) = Exit 1 /\
  fst (GameJs.parseDice ["2,2,4,4,9,9"; "1,1,6,6,8,8"] (World [] [] [] [] true)) = Exit 1 /\
  fst (GameJs.parseDice ["2,2,4,4,9,9"; "1,1,6,6,8,8"; "3,3,5,x,7,7"] (World [] [] [] [] true)) = Exit 1.
Proof.
  repeat split; vm_compute; reflexivity.
Qed.

(** ** Further properties of the programs *)

(** A throw returns: on a stream that opens with the 32 key bytes and a
    draw below the limit, and with a first line that reads as a number of
    [0, F), [userThrow] returns the face at (input + draw mod F) mod F. *)
Theorem userThrow_returns_face hmac (g : GameJs.DiceGame) (d : GameJs.Dice)
    (keybytes : list byte) (b0 b1 b2 b3 : byte) (rest : list byte) (ints : list Z)
    (line : string) (lines : list string) (out : list event) (tty : bool) (z : Z) :
  let F := Z.of_nat (length (GameJs.values d)) in
  let draw := JS.readUInt32BE [b0; b1; b2; b3] in
  GameJs.userDice g = Some d -> length keybytes = 32%nat ->
  draw < 2 ^ 32 - 2 ^ 32 mod F ->
  JS.parseInt (JS.trim line) = JS.Int z -> 0 <= z < F ->
  exists face,
    GameJs.values d !! Z.to_nat ((z + draw mod F) mod F) = Some face /\
    fst (GameJs.userThrow hmac g
           (World (keybytes ++ b0 :: b1 :: b2 :: b3 :: rest) ints (line :: lines) out tty))
      = Ret (Some face).
Proof.
  intros F draw Hdie Hkey Hdraw Hparse Hz.
  pose proof (PlayFacts.FairRandom_new_first_draw hmac F keybytes b0 b1 b2 b3 rest ints
                (line :: lines) out tty Hkey ltac:(lia) Hdraw) as Hnew.
  match type of Hnew with _ = (Ret ?s, ?w1) =>
    pose proof (PlayFacts.getUserInput_first_line g
      ("Add your number modulo " +:+ pretty (length (GameJs.values d)) +:+ ": ")
      (JS.keys (length (GameJs.values d)))
      (snd (say (MsgCommitted (JS.Int 0) (JS.Int (F - 1)) (GameJs.hmac s)) w1))
      line lines z eq_refl Hparse (proj2 (PlayFacts.In_keys _ _) Hz)) as Hinput
  end.
  destruct (PlayFacts.throw_with_run hmac g d _ _ _ _ _ Hnew Hinput)
    as (input & secret & face & Hu & Hsecret & _ & _ & _ & Hface & Hrun).
  injection Hu as <-. cbn in Hsecret. injection Hsecret as <-.
  exists face. split; [exact Hface|].
  unfold GameJs.userThrow. rewrite Hdie, Hrun. reflexivity.
Qed.

Lemma userThrow_returns_face_example :
  exists face,
    GameJs.values scenario_die !! 1%nat = Some face /\
    fst (GameJs.userThrow demo_hmac scenario_game (session_world x03 [] [" 4 "; "x"]))
      = Ret (Some face).
Proof.
  exact (userThrow_returns_face demo_hmac scenario_game scenario_die
           (replicate 32 x07) x00 x00 x00 x03 [] [] " 4 " ["x"] [] true 4
           eq_refl eq_refl ltac:(vm_compute; reflexivity) eq_refl ltac:(cbn; lia)).
Defined.

(** The sampler on a range above 2^32, on the stream of the sampler
    scenario. *)
Lemma wide_range_example :
  fst (GameJs.generateUniformRandom (2 ^ 32 + 1) sampler_world) = Stall.
Proof.
  exact (generateUniformRandom_wide_range_never_returns (2 ^ 32 + 1) sampler_world
           ltac:(lia)).
Defined.

(** What [parseDice] accepts: at least three arguments, each of six
    tokens that [Number] does not turn into NaN; the faces are [parseInt]
    of the tokens, the doubles nearest to their digits. Everything else
    ends the process with code 1. *)
Theorem parseDice_accepts_exactly (args : list string) (w : world) :
  fst (GameJs.parseDice args w) =
    if (3 <=? length args)%nat && forallb arg_passes args
    then Ret (map die_of args)
    else Exit 1.
Proof.
  apply ParseFacts.parseDice_run.
Qed.

Lemma parseDice_accepts_exactly_example :
  fst (GameJs.parseDice odd_args (World [] [] [] [] true))
    = Ret [ {| GameJs.values := map JS.Int [2; 2; 4; 4; 9; 9007199254740992] |};
            {| GameJs.values := map JS.Int [1; 1; 6; 6; 8; 8] |};
            {| GameJs.values := map JS.Int [3; 3; 5; 5; 7; 7] |} ].
Proof.
  refine (eq_trans (parseDice_accepts_exactly odd_args (World [] [] [] [] true)) _).
  vm_compute. reflexivity.
Defined.



(** [getUserInput] takes the first line typed when, trimmed, it reads as
    a number among the valid inputs: it asks once and prints nothing. *)
Theorem getUserInput_takes_first_valid_line (g : GameJs.DiceGame) (prompt : string)
    (validInputs : list Z) (w : world) (line : string) (lines : list string) (z : Z) :
  stdin w = line :: lines ->
  JS.parseInt (JS.trim line) = JS.Int z -> In z validInputs ->
  GameJs.getUserInput g prompt validInputs w =
    (Ret (JS.Int z),
     World (entropy w) (randomInts w) lines (Asked prompt line :: stdout w) (terminal w)).
Proof.
  apply PlayFacts.getUserInput_first_line.
Qed.

Lemma getUserInput_takes_first_valid_line_example :
  GameJs.getUserInput scenario_game "Your selection: " [0; 1; 2] (World [] [] [" 2"; "0"] [] true)
    = (Ret (JS.Int 2), World [] [] ["0"] [Asked "Your selection: " " 2"] true).
Proof.
  exact (getUserInput_takes_first_valid_line scenario_game "Your selection: " [0; 1; 2]
           (World [] [] [" 2"; "0"] [] true) " 2" ["0"] 2 eq_refl eq_refl
           ltac:(cbn; tauto)).
Defined.

(** ** The sampler and the commitment, further *)

Module FairnessFacts.

Import JS GameJs.

(** The draws below the limit are those of the form [q * N + r]. *)
Lemma below_limit_iff (N d r : Z) :
  1 <= N -> 0 <= r < N ->
  (0 <= d < N * (2 ^ 32 / N) /\ d mod N = r) <->
  (exists q, 0 <= q < 2 ^ 32 / N /\ d = q * N + r).
Proof.
  intros HN Hr. split.
  - intros [[Hd0 Hdl] Hmod]. exists (d / N).
    pose proof (Z.div_mod d N ltac:(lia)) as Hdm.
    split; [|lia]. split; [apply Z.div_pos; lia|].
    apply Z.div_lt_upper_bound; lia.
  - intros (q & [Hq0 Hq] & ->). split.
    + split; [nia|]. assert (q + 1 <= 2 ^ 32 / N) by lia. nia.
    + rewrite Z.add_comm, Z.mod_add by lia. apply Z.mod_small. lia.
Qed.

Lemma limit_value (N : Z) : 1 <= N -> 2 ^ 32 - 2 ^ 32 mod N = N * (2 ^ 32 / N).
Proof.
  intros HN. pose proof (Z.div_mod (2 ^ 32) N ltac:(lia)). lia.
Qed.

(** More than half of the 32-bit values lie below the limit. *)
Lemma limit_above_half (N : Z) : 1 <= N <= 2 ^ 32 -> 2 ^ 31 < N * (2 ^ 32 / N) <= 2 ^ 32.
Proof.
  intros HN. rewrite <- limit_value by lia.
  pose proof (Z.mod_pos_bound (2 ^ 32) N ltac:(lia)) as Hmod.
  split; [|lia].
  destruct (Z_le_gt_dec N (2 ^ 31)) as [Hsmall|Hbig]; [lia|].
  assert (2 ^ 32 mod N = 2 ^ 32 - N) as ->; [|lia].
  symmetry. apply (Z.mod_unique_pos _ _ 1); lia.
Qed.

(** The first character of the decimal text of a positive number is a
    decimal digit. *)
Lemma pretty_N_go_head (x : N) (s : string) :
  (0 < x)%N -> exists d rest, (d < 10)%N /\ pretty_N_go x s = String (pretty_N_char d) rest.
Proof.
  revert s. induction (N.lt_wf_0 x) as [x _ IH]. intros s Hx.
  rewrite pretty_N_go_step by exact Hx.
  destruct (N.eq_dec (x `div` 10) 0) as [Hz|Hnz].
  - rewrite Hz, pretty_N_go_0. exists (x `mod` 10)%N, s.
    split; [apply N.mod_lt; discriminate | reflexivity].
  - apply IH; [apply N.div_lt; lia | apply N.neq_0_lt_0, Hnz].
Qed.

Lemma pretty_N_char_is_digit (d : N) :
  (d < 10)%N -> 48 <= code (pretty_N_char d) <= 57.
Proof.
  intros Hd. rewrite <- (N2Nat.id d).
  assert (N.to_nat d < 10)%nat as Hk by lia.
  generalize dependent (N.to_nat d). intros k Hk.
  do 10 (destruct k as [|k]; [vm_compute; split; discriminate|]). lia.
Qed.

(** The decimal text of an integer starts with a digit, after a minus
    sign if the integer is negative. *)
Lemma pretty_Z_head (z : Z) :
  exists c rest,
    48 <= code c <= 57 /\
    (pretty z = String c rest \/ pretty z = String "-" (String c rest)).
Proof.
  assert (Hpos : forall p, exists c rest,
            48 <= code c <= 57 /\ pretty (N.pos p) = String c rest).
  { intros p. unfold pretty, pretty_N.
    destruct (decide (N.pos p = 0%N)) as [|_]; [discriminate|].
    destruct (pretty_N_go_head (N.pos p) "" ltac:(lia)) as (d & rest & Hd & ->).
    exists (pretty_N_char d), rest. split; [exact (pretty_N_char_is_digit d Hd) | reflexivity]. }
  unfold pretty at 1 2, pretty_Z. destruct z as [|p|p].
  - exists "0"%char, "". split; [vm_compute; split; discriminate | left; reflexivity].
  - destruct (Hpos p) as (c & rest & Hc & Heq). exists c, rest.
    split; [exact Hc | left; exact Heq].
  - destruct (Hpos p) as (c & rest & Hc & Heq). exists c, rest.
    split; [exact Hc|]. right. unfold pretty, pretty_positive. rewrite Heq. reflexivity.
Qed.

(** No integer prints as [NaN] or as an infinity. *)
Lemma pretty_Z_is_no_word (z : Z) :
  pretty z <> "NaN" /\ pretty z <> "Infinity" /\ pretty z <> "-Infinity".
Proof.
  destruct (pretty_Z_head z) as (c & rest & Hc & [-> | ->]);
    (split; [|split]); intros [= ->]; vm_compute in Hc; destruct Hc as [H1 H2];
    first [ apply H1; reflexivity | apply H2; reflexivity ].
Qed.

(** Different values have different texts. *)
Lemma toString_inj (v1 v2 : number) : toString v1 = toString v2 -> v1 = v2.
Proof.
  destruct v1 as [z1|[]|], v2 as [z2|[]|]; cbn [toString]; intros H;
    try reflexivity; try discriminate H;
    try (f_equal; exact (pretty_Z_inj _ _ H));
    first [ pose proof (pretty_Z_is_no_word z1) as (Ha & Hb & Hc)
          | pose proof (pretty_Z_is_no_word z2) as (Ha & Hb & Hc) ];
    first [ destruct (Ha H) | destruct (Hb H) | destruct (Hc H)
          | destruct (Ha (eq_sym H)) | destruct (Hb (eq_sym H)) | destruct (Hc (eq_sym H)) ].
Qed.

Lemma utf8_inj (s1 s2 : string) : utf8 s1 = utf8 s2 -> s1 = s2.
Proof.
  unfold utf8. intros H.
  rewrite <- (String.string_of_list_byte_of_string s1),
          <- (String.string_of_list_byte_of_string s2), H.
  reflexivity.
Qed.

Lemma byte_of_Z_inj (a b : Z) :
  0 <= a < 256 -> 0 <= b < 256 -> byte_of_Z a = byte_of_Z b -> a = b.
Proof.
  intros Ha Hb. unfold byte_of_Z.
  destruct (Byte.of_N (Z.to_N a)) as [x|] eqn:Ex;
    [|apply Byte.of_N_None_iff in Ex; lia].
  destruct (Byte.of_N (Z.to_N b)) as [y|] eqn:Ey;
    [|apply Byte.of_N_None_iff in Ey; lia].
  intros ->. apply Byte.to_of_N in Ex, Ey. lia.
Qed.

Lemma toHex_inj (a b : list byte) : toHex a = toHex b -> a = b.
Proof.
  intros H. pose proof (SessionFacts.fromHex_toHex a) as Ha.
  rewrite H, SessionFacts.fromHex_toHex in Ha. congruence.
Qed.

Lemma append_inj_r (p s1 s2 : string) : p +:+ s1 = p +:+ s2 -> s1 = s2.
Proof.
  induction p as [|c p IH]; [auto|].
  change (String c (p +:+ s1) = String c (p +:+ s2) -> s1 = s2).
  intros [= H]. auto.
Qed.

(** The stand-in hash shows its message. *)
Lemma demo_hmac_inj (key data1 data2 : list byte) :
  demo_hmac key data1 = demo_hmac key data2 -> data1 = data2.
Proof.
  intros H. unfold demo_hmac in H.
  apply append_inj_r, append_inj_r in H. apply toHex_inj, H.
Qed.





(** Adding the same number modulo [F] keeps different residues apart. *)
Lemma mod_add_cancel (F a b c : Z) :
  0 <= a < F -> 0 <= b < F -> (a + c) mod F = (b + c) mod F -> a = b.
Proof.
  intros Ha Hb H.
  assert ((a - b) mod F = 0) as Hzero.
  { replace (a - b) with ((a + c) - (b + c)) by lia.
    rewrite Zminus_mod, H, Z.sub_diag. apply Z.mod_0_l. lia. }
  apply Z.mod_divide in Hzero; [|lia]. destruct Hzero as [k Hk].
  assert (k = 0) by nia. lia.
Qed.

End FairnessFacts.

(** ** Runs of the game *)

Module RunFacts.

Import JS GameJs.

Lemma bind_Ret {A B} (m : M A) (k : A -> M B) (w : world) (b : B) (w' : world) :
  bind m k w = (Ret b, w') -> exists a w1, m w = (Ret a, w1) /\ k a w1 = (Ret b, w').
Proof.
  unfold bind. destruct (m w) as [[a|c|e|] w1]; try discriminate. eauto.
Qed.

Lemma only_terminal_error_bind {A B} (m : M A) (k : A -> M B) (Q : A -> Prop) (R : B -> Prop) :
  only_terminal_error m Q -> (forall a, Q a -> only_terminal_error (k a) R) ->
  only_terminal_error (bind m k) R.
Proof.
  intros Hm Hk w. destruct (Hm w) as [Ht Hc]. unfold bind.
  destruct (m w) as [[a|c|e|] w1]; cbn [fst snd] in *; [|auto..].
  destruct (Hk a Hc w1) as [Ht2 Hc2]. split; [congruence|].
  destruct (fst (k a w1)); [auto..| |auto].
  split; [exact (proj1 Hc2) | rewrite <- Ht; exact (proj2 Hc2)].
Qed.

Lemma only_terminal_error_weaken {A} (m : M A) (Q R : A -> Prop) :
  only_terminal_error m Q -> (forall a, Q a -> R a) -> only_terminal_error m R.
Proof.
  intros Hm HQR w. destruct (Hm w) as [Ht Hc]. split; [exact Ht|].
  destruct (fst (m w)); auto.
Qed.

Lemma only_terminal_error_ret {A} (a : A) (Q : A -> Prop) : Q a -> only_terminal_error (ret a) Q.
Proof. intros HQ w. split; [reflexivity | exact HQ]. Qed.

Lemma only_terminal_error_say (m : message) : only_terminal_error (say m) (fun _ => True).
Proof. intros w. split; [reflexivity | exact I]. Qed.

Lemma only_terminal_error_exit {A} (code : Z) (Q : A -> Prop) :
  code = 0 \/ code = 1 -> only_terminal_error (exit code) Q.
Proof. intros Hc w. split; [reflexivity | exact Hc]. Qed.

(** The rejected draws, the accepted one and what is left of the stream. *)
Lemma draw_until_split (l : Z) (bs : list byte) (rand : Z) (rest : list byte) :
  draw_until (Int l) bs = Some (rand, rest) ->
  exists rejected b0 b1 b2 b3,
    bs = rejected ++ b0 :: b1 :: b2 :: b3 :: rest /\
    rand = readUInt32BE [b0; b1; b2; b3] /\ rand < l /\
    Forall (fun d => l <= d) (draws rejected) /\
    length rejected = (4 * length (draws rejected))%nat.
Proof.
  remember (length bs) as n eqn:Hn.
  revert bs Hn. induction n as [n IH] using lt_wf_ind. intros bs Hn.
  destruct bs as [|b0 [|b1 [|b2 [|b3 more]]]]; try discriminate.
  cbn [draw_until]. unfold ge. destruct (l <=? _) eqn:E.
  - intros Hrun.
    destruct (IH (length more) ltac:(subst n; cbn; lia) more eq_refl Hrun)
      as (rejected & c0 & c1 & c2 & c3 & -> & Hrand & Hlt & Hall & Hlen).
    exists (b0 :: b1 :: b2 :: b3 :: rejected), c0, c1, c2, c3.
    split; [reflexivity|]. split; [exact Hrand|]. split; [exact Hlt|].
    cbn [draws length]. split; [|lia].
    constructor; [apply Z.leb_le, E | exact Hall].
  - intros [= <- <-]. exists [], b0, b1, b2, b3.
    split; [reflexivity|]. split; [reflexivity|].
    split; [apply Z.leb_gt, E|]. split; [constructor | reflexivity].
Qed.

Lemma only_terminal_error_FairRandom_new hmac (N : Z) :
  only_terminal_error (FairRandom_new hmac N) (fun _ => True).
Proof.
  intros w. rewrite SessionFacts.FairRandom_new_unfold.
  destruct (32 <=? _)%nat; [|split; [reflexivity | exact I]].
  destruct (sample N _) as [[v rest]|]; (split; [reflexivity | exact I]).
Qed.

Lemma only_terminal_error_randomInt (max : Z) :
  0 < max -> only_terminal_error (randomInt max) (fun r => 0 <= r < max).
Proof.
  intros Hmax w. unfold randomInt.
  destruct (max <=? 0) eqn:E; [apply Z.leb_le in E; lia|].
  destruct (randomInts w) as [|r rest]; [split; [reflexivity | exact I]|].
  destruct ((0 <=? r) && (r <? max)) eqn:Er; [|split; [reflexivity | exact I]].
  apply andb_prop in Er as [H0 H1]. split; [reflexivity|]. cbn [fst].
  apply Z.leb_le in H0. apply Z.ltb_lt in H1. lia.
Qed.

Lemma say_options_run (options : list (nat * Dice)) (w : world) :
  exists out, say_options options w =
    (Ret tt, World (entropy w) (randomInts w) (stdin w) (out ++ stdout w) (terminal w)).
Proof.
  revert w. induction options as [|[index die] options IH]; intros w.
  - exists []. destruct w; reflexivity.
  - cbn [say_options]. unfold bind at 1, say at 1.
    match goal with |- context [say_options options ?w1] =>
      destruct (IH w1) as [out ->] end.
    cbn [entropy randomInts stdin stdout].
    exists (out ++ [Said (MsgDiceOption (Z.of_nat index) (values die))]).
    rewrite <- app_assoc. reflexivity.
Qed.

(** A line passed over moves from the input to the lines skipped. *)
Lemma input_outcome_skip (prompt : string) (validInputs : list Z) (w w2 : world)
    (line : string) (r : outcome number * world) :
  stdin w = line :: stdin w2 -> entropy w2 = entropy w -> randomInts w2 = randomInts w ->
  terminal w2 = terminal w ->
  passed_over validInputs line = true ->
  input_outcome prompt validInputs w2 r -> input_outcome prompt validInputs w r.
Proof.
  intros Hin He Hr Ht Hpass (He' & Hr' & Ht' & Hcase).
  split; [congruence|]. split; [congruence|]. split; [congruence|].
  destruct (fst r) as [u|c|e|].
  - destruct Hcase as (skipped & line' & z & Hsplit & Hall & Hrest).
    exists (line :: skipped), line', z.
    split; [rewrite Hin, Hsplit; reflexivity|].
    split; [constructor; assumption | exact Hrest].
  - destruct Hcase as (Hc & skipped & line' & earlier & Hsplit & Hall & Hrest).
    split; [exact Hc|]. exists (line :: skipped), line', earlier.
    split; [rewrite Hin, Hsplit; reflexivity|].
    split; [constructor; assumption | exact Hrest].
  - destruct Hcase as (Herr & Hno & Hend & Hall).
    split; [exact Herr|]. split; [congruence|]. split; [exact Hend|].
    rewrite Hin. constructor; assumption.
  - destruct Hcase as (Hyes & Hend & Hall).
    split; [congruence|]. split; [exact Hend|].
    rewrite Hin. constructor; assumption.
Qed.

Lemma getUserInput_rounds_outcome (g : DiceGame) (prompt : string) (validInputs : list Z)
    (fuel : nat) (w : world) :
  (length (stdin w) < fuel)%nat ->
  input_outcome prompt validInputs w (getUserInput_rounds fuel g prompt validInputs w).
Proof.
  revert w. induction fuel as [|fuel IH]; intros w Hfuel; [lia|].
  rewrite PlayFacts.getUserInput_rounds_S.
  destruct (stdin w) as [|line rest] eqn:Hin.
  { destruct (terminal w) eqn:Htty;
      (split; [reflexivity|]; split; [reflexivity|]; split; [reflexivity|]);
      cbn [fst snd]; rewrite Hin; auto. }
  cbn zeta. cbn [length] in Hfuel.
  destruct (String.eqb (toLowerCase (trim line)) "x") eqn:Ex.
  { split; [reflexivity|]. split; [reflexivity|]. split; [reflexivity|].
    cbn [fst snd say stdin stdout].
    split; [reflexivity|]. exists [], line, (stdout w).
    split; [exact Hin|]. split; [constructor|].
    split; [apply String.eqb_eq, Ex | reflexivity]. }
  destruct (String.eqb (toLowerCase (trim line)) "?") eqn:Eq.
  { destruct (PlayFacts.displayTable_run (dice g)
                (World (entropy w) (randomInts w) rest (Asked prompt line :: stdout w) (terminal w)))
      as [out ->]. cbn [snd entropy randomInts stdin stdout].
    eapply input_outcome_skip; [| | | | | apply IH; cbn; lia];
      [exact Hin | reflexivity | reflexivity | reflexivity |].
    unfold passed_over. cbn zeta. rewrite Ex, Eq. reflexivity. }
  destruct (negb (isNaN (parseInt (trim line))) && includes validInputs (parseInt (trim line)))
    eqn:Ev.
  { split; [reflexivity|]. split; [reflexivity|]. split; [reflexivity|].
    cbn [fst snd stdin stdout].
    apply andb_prop in Ev as [Hnum Hin'].
    destruct (parseInt (trim line)) as [z| |] eqn:Hparse; [|discriminate|discriminate].
    cbn [includes] in Hin'. apply existsb_exists in Hin' as (z' & Hz' & Heq).
    apply Z.eqb_eq in Heq. subst z'.
    exists [], line, z. split; [exact Hin|]. split; [constructor|].
    split; [first [reflexivity | exact Hparse]|].
    split; [first [reflexivity | exact Hparse]|]. split; [exact Hz' | reflexivity]. }
  cbn [snd say entropy randomInts stdin stdout].
  eapply input_outcome_skip; [| | | | | apply IH; cbn; lia];
    [exact Hin | reflexivity | reflexivity | reflexivity |].
  unfold passed_over. cbn zeta. rewrite Ex, Eq, Ev. reflexivity.
Qed.

Lemma getUserInput_outcome (g : DiceGame) (prompt : string) (validInputs : list Z)
    (w : world) :
  input_outcome prompt validInputs w (getUserInput g prompt validInputs w).
Proof.
  unfold getUserInput. apply getUserInput_rounds_outcome. lia.
Qed.

Lemma only_terminal_error_getUserInput (g : DiceGame) (prompt : string) (validInputs : list Z) :
  only_terminal_error (getUserInput g prompt validInputs)
    (fun u => exists z, u = Int z /\ In z validInputs).
Proof.
  intros w.
  destruct (getUserInput_outcome g prompt validInputs w) as (_ & _ & Ht & Hcase).
  split; [exact Ht|].
  destruct (fst (getUserInput g prompt validInputs w)) as [u|c|e|].
  - destruct Hcase as (_ & _ & z & _ & _ & Hu & _ & Hz & _). eauto.
  - left. exact (proj1 Hcase).
  - destruct Hcase as (Herr & Hno & _). auto.
  - exact I.
Qed.

(** [splice(start, 1)] with a start inside the array removes that one. *)
Lemma splice1_at {A} (z : Z) (arr : list A) :
  0 <= z < Z.of_nat (length arr) ->
  splice1 (Int z) arr = (arr !! Z.to_nat z, delete (Z.to_nat z) arr).
Proof.
  intros Hz. unfold splice1. destruct (z <? 0) eqn:E; [apply Z.ltb_lt in E; lia|].
  rewrite Z.min_l by lia. reflexivity.
Qed.

Lemma only_terminal_error_say_options (options : list (nat * Dice)) :
  only_terminal_error (say_options options) (fun _ => True).
Proof.
  intros w. destruct (say_options_run options w) as [out ->]. split; [reflexivity | exact I].
Qed.

(** The selection of the user, when it returns. *)
Lemma userSelectDice_Ret (g : DiceGame) (w : world) (g' : DiceGame) (w' : world) :
  userSelectDice g w = (Ret g', w') ->
  exists (i : nat) (d : Dice),
    dice g !! i = Some d /\
    g' = {| dice := delete i (dice g); availableDice := availableDice g;
            userDice := Some d; computerDice := computerDice g |} /\
    entropy w' = entropy w /\ randomInts w' = randomInts w /\
    exists skipped line,
      stdin w = skipped ++ line :: stdin w' /\
      Forall (fun l => passed_over (keys (length (dice g))) l = true) skipped /\
      parseInt (trim line) = Int (Z.of_nat i).
Proof.
  unfold userSelectDice. intros Hrun.
  apply bind_Ret in Hrun as (? & w1 & Hsay & Hrun).
  apply bind_Ret in Hrun as (? & w2 & Hopts & Hrun).
  apply bind_Ret in Hrun as (u & w3 & Hinput & Hrun).
  unfold say in Hsay. inversion Hsay; subst; clear Hsay.
  destruct (say_options_run (indexed (dice g))
              (World (entropy w) (randomInts w) (stdin w) (Said MsgChooseDice :: stdout w) (terminal w)))
    as [out Heq].
  rewrite Heq in Hopts. inversion Hopts; subst; clear Hopts.
  match type of Hinput with getUserInput _ ?prompt ?valid ?w2 = _ =>
    destruct (getUserInput_outcome g prompt valid w2) as (He & Hr & _ & Hcase) end.
  rewrite Hinput in He, Hr, Hcase. cbn [fst snd entropy randomInts stdin] in He, Hr, Hcase.
  destruct Hcase as (skipped & line & z & Hsplit & Hall & -> & Hparse & Hz & _).
  apply PlayFacts.In_keys in Hz.
  rewrite (splice1_at z (dice g) Hz) in Hrun.
  destruct (lookup_lt_is_Some_2 (dice g) (Z.to_nat z)) as [d Hd]; [lia|].
  rewrite Hd in Hrun. unfold ret in Hrun. injection Hrun as <- <-.
  exists (Z.to_nat z), d.
  split; [exact Hd|]. split; [reflexivity|]. split; [exact He|]. split; [exact Hr|].
  exists skipped, line. split; [exact Hsplit|]. split; [exact Hall|].
  rewrite Z2Nat.id by lia. exact Hparse.
Qed.

(** The selection of the computer, in each of its outcomes. *)
Lemma computerSelectDice_cases (g : DiceGame) (w : world) :
  match computerSelectDice g w with
  | (Ret g', w') =>
      exists (i : nat) (d : Dice),
        randomInts w = Z.of_nat i :: randomInts w' /\
        dice g !! i = Some d /\
        g' = {| dice := delete i (dice g); availableDice := availableDice g;
                userDice := userDice g; computerDice := Some d |} /\
        entropy w' = entropy w /\ stdin w' = stdin w /\
        stdout w' = Said (MsgIChoose (values d)) :: stdout w
  | (Exit _, _) => False
  | (Throw error, w') => dice g = [] /\ error = "ERR_OUT_OF_RANGE" /\ w' = w
  | (Stall, w') =>
      dice g <> [] /\ w' = w /\
      match randomInts w with
      | [] => True
      | r :: _ => ~ (0 <= r < Z.of_nat (length (dice g)))
      end
  end.
Proof.
  unfold computerSelectDice, bind, randomInt.
  destruct (Z.of_nat (length (dice g)) <=? 0) eqn:E.
  { apply Z.leb_le in E. destruct (dice g); [auto | cbn [length] in E; lia]. }
  apply Z.leb_gt in E.
  assert (dice g <> []) as Hsome by (intros Hnil; rewrite Hnil in E; cbn in E; lia).
  destruct (randomInts w) as [|r rest] eqn:Hints; [auto|].
  destruct ((0 <=? r) && (r <? Z.of_nat (length (dice g)))) eqn:Er.
  - apply andb_prop in Er as [H0 H1]. apply Z.leb_le in H0. apply Z.ltb_lt in H1.
    rewrite (splice1_at r (dice g)) by lia.
    destruct (lookup_lt_is_Some_2 (dice g) (Z.to_nat r)) as [d Hd]; [lia|].
    rewrite Hd. cbn. exists (Z.to_nat r), d.
    rewrite Z2Nat.id by lia. auto 10.
  - split; [exact Hsome|]. split; [reflexivity|].
    intros [H0 H1]. apply Z.leb_le in H0. apply Z.ltb_lt in H1.
    rewrite H0, H1 in Er. discriminate Er.
Qed.

(** A die taken from the pool left by an earlier pick sits at another
    position of the original pool. *)
Lemma lookup_delete_elsewhere {A} (l : list A) (i j : nat) (x : A) :
  delete i l !! j = Some x -> exists j', j' <> i /\ l !! j' = Some x.
Proof.
  rewrite list_lookup_delete. destruct (decide (j < i)%nat) as [Hlt|Hge]; intros Hx.
  - exists j. split; [lia | exact Hx].
  - exists (S j). split; [lia | exact Hx].
Qed.

(** A throw, when it returns. *)
Lemma throw_with_Ret hmac (g : DiceGame) (die : option Dice) (w : world)
    (face : option number) (w' : world) :
  throw_with hmac g die w = (Ret face, w') ->
  exists d input secret v earlier,
    die = Some d /\
    0 <= input < Z.of_nat (length (values d)) /\
    0 <= secret < Z.of_nat (length (values d)) /\
    values d !! Z.to_nat ((input + secret) mod Z.of_nat (length (values d))) = Some v /\
    face = Some v /\
    stdout w' =
      Said (MsgResult (Int input) (Int secret)
              (Int ((input + secret) mod Z.of_nat (length (values d))))
              (Z.of_nat (length (values d)))) :: earlier.
Proof.
  destruct die as [d|]; [|discriminate]. intros Hrun.
  pose proof Hrun as Hsteps. cbn [throw_with] in Hsteps.
  apply bind_Ret in Hsteps as (fairness & w1 & Hnew & Hsteps).
  apply bind_Ret in Hsteps as (? & w1' & Hsay & Hsteps).
  apply bind_Ret in Hsteps as (u & w2 & Hinput & _).
  unfold say in Hsay. inversion Hsay; subst; clear Hsay.
  destruct (PlayFacts.throw_with_run hmac g d w fairness w1 u w2 Hnew Hinput)
    as (input & secret & v & _ & _ & Hin & Hsec & _ & Hface & Heq).
  rewrite Heq in Hrun. injection Hrun as <- <-.
  exists d, input, secret, v. eexists.
  split; [reflexivity|]. split; [exact Hin|]. split; [exact Hsec|].
  split; [exact Hface|]. split; reflexivity.
Qed.

(** The two selections in either order, when they return: the players
    hold dice of two different positions of the pool. *)
Lemma selections_Ret (userFirst : bool) (g : DiceGame) (w : world) (g2 : DiceGame)
    (w2 : world) :
  (if userFirst then (g1 <- userSelectDice g;; computerSelectDice g1)
   else (g1 <- computerSelectDice g;; userSelectDice g1))%js w = (Ret g2, w2) ->
  exists i j d1 d2,
    i <> j /\ dice g !! i = Some d1 /\ dice g !! j = Some d2 /\
    userDice g2 = Some d1 /\ computerDice g2 = Some d2 /\
    (length (dice g2) + 2 = length (dice g))%nat.
Proof.
  intros Hrun. destruct userFirst.
  - apply bind_Ret in Hrun as (g1 & w1 & Huser & Hcomp).
    apply userSelectDice_Ret in Huser as (i & d1 & Hi & -> & _).
    pose proof (computerSelectDice_cases
                  {| dice := delete i (dice g); availableDice := availableDice g;
                     userDice := Some d1; computerDice := computerDice g |} w1) as Hcases.
    rewrite Hcomp in Hcases. cbn [dice userDice availableDice] in Hcases.
    destruct Hcases as (j & d2 & _ & Hj & -> & _).
    pose proof (length_delete _ _ (ex_intro _ _ Hj)) as Hlen2.
    pose proof (length_delete _ _ (ex_intro _ _ Hi)) as Hlen1.
    pose proof (lookup_lt_Some _ _ _ Hj) as Hlt2.
    pose proof (lookup_lt_Some _ _ _ Hi) as Hlt1.
    destruct (lookup_delete_elsewhere _ _ _ _ Hj) as (j' & Hne & Hj').
    exists i, j', d1, d2. cbn [dice userDice computerDice].
    split; [auto|]. split; [exact Hi|]. split; [exact Hj'|].
    split; [reflexivity|]. split; [reflexivity | lia].
  - apply bind_Ret in Hrun as (g1 & w1 & Hcomp & Huser).
    pose proof (computerSelectDice_cases g w) as Hcases.
    rewrite Hcomp in Hcases. destruct Hcases as (j & d2 & _ & Hj & -> & _).
    apply userSelectDice_Ret in Huser as (i & d1 & Hi & -> & _).
    cbn [dice userDice computerDice availableDice] in *.
    pose proof (length_delete _ _ (ex_intro _ _ Hj)) as Hlen2.
    pose proof (length_delete _ _ (ex_intro _ _ Hi)) as Hlen1.
    pose proof (lookup_lt_Some _ _ _ Hj) as Hlt2.
    pose proof (lookup_lt_Some _ _ _ Hi) as Hlt1.
    destruct (lookup_delete_elsewhere _ _ _ _ Hi) as (i' & Hne & Hi').
    exists i', j, d1, d2.
    split; [exact Hne|]. split; [exact Hi'|]. split; [exact Hj|].
    split; [reflexivity|]. split; [reflexivity | lia].
Qed.

(** A game that runs to its end: two dice of different positions, a face
    of each, and the verdict on the two faces. *)
Lemma start_Ret hmac (g : DiceGame) (w w' : world) :
  start hmac g w = (Ret tt, w') ->
  exists i j d1 d2 u c earlier,
    i <> j /\ dice g !! i = Some d1 /\ dice g !! j = Some d2 /\
    In u (values d1) /\ In c (values d2) /\
    stdout w' =
      Said (if gt u c then MsgYouWin else if lt u c then MsgIWin else MsgTie)
      :: Said (MsgMyThrow (Some c)) :: Said (MsgYourThrow (Some u)) :: earlier.
Proof.
  unfold start, play. intros Hrun.
  apply bind_Ret in Hrun as (userFirst & w1 & _ & Hrun).
  apply bind_Ret in Hrun as (g2 & w2 & Hselect & Hrun).
  assert (exists w1',
            (if userFirst then (g1 <- userSelectDice g;; computerSelectDice g1)
             else (g1 <- computerSelectDice g;; userSelectDice g1))%js w1'
            = (Ret g2, w2)) as [w1' Hboth].
  { destruct userFirst;
      apply bind_Ret in Hselect as (? & w1' & _ & Hselect); exists w1'; exact Hselect. }
  apply selections_Ret in Hboth as (i & j & d1 & d2 & Hne & Hi & Hj & Hu & Hc & _).
  apply bind_Ret in Hrun as (? & w3 & _ & Hrun).
  apply bind_Ret in Hrun as (computerRoll & w4 & Hcthrow & Hrun).
  apply bind_Ret in Hrun as (userRoll & w5 & Huthrow & Hrun).
  unfold computerThrow in Hcthrow. unfold userThrow in Huthrow.
  apply throw_with_Ret in Hcthrow
    as (dc & ? & ? & c & ? & Hdc & _ & _ & Hcface & -> & _).
  apply throw_with_Ret in Huthrow
    as (du & ? & ? & u & ? & Hdu & _ & _ & Huface & -> & _).
  rewrite Hc in Hdc. injection Hdc as <-. rewrite Hu in Hdu. injection Hdu as <-.
  exists i, j, d1, d2, u, c, (stdout w5).
  split; [exact Hne|]. split; [exact Hi|]. split; [exact Hj|].
  split; [apply list_elem_of_In; exact (list_elem_of_lookup_2 _ _ _ Huface)|].
  split; [apply list_elem_of_In; exact (list_elem_of_lookup_2 _ _ _ Hcface)|].
  unfold declareWinner, bind, say in Hrun. cbn [toNumber] in Hrun.
  destruct (gt u c); [injection Hrun as <-; reflexivity|].
  destruct (lt u c); injection Hrun as <-; reflexivity.
Qed.

Lemma only_terminal_error_userSelectDice (g : DiceGame) :
  only_terminal_error (userSelectDice g)
    (fun g' => (length (dice g') + 1 = length (dice g))%nat /\
               is_Some (userDice g') /\ computerDice g' = computerDice g).
Proof.
  unfold userSelectDice.
  eapply only_terminal_error_bind; [apply only_terminal_error_say|]. intros _ _.
  eapply only_terminal_error_bind; [apply only_terminal_error_say_options|]. intros _ _.
  eapply only_terminal_error_bind; [apply only_terminal_error_getUserInput|].
  intros u (z & -> & Hz). apply PlayFacts.In_keys in Hz.
  rewrite (splice1_at z (dice g) Hz).
  destruct (lookup_lt_is_Some_2 (dice g) (Z.to_nat z)) as [d Hd]; [lia|].
  apply only_terminal_error_ret. cbn [dice userDice computerDice].
  rewrite (length_delete _ _ (ex_intro _ _ Hd)).
  split; [lia|]. split; [rewrite Hd; eexists; reflexivity | reflexivity].
Qed.

Lemma computerSelectDice_terminal (g : DiceGame) (w : world) :
  terminal (snd (computerSelectDice g w)) = terminal w.
Proof.
  unfold computerSelectDice, bind, randomInt.
  destruct (_ <=? 0); [reflexivity|].
  destruct (randomInts w) as [|r rest]; [reflexivity|].
  destruct (_ && _); [|reflexivity].
  destruct (splice1 _ _) as [[chosen|] rest']; reflexivity.
Qed.

Lemma only_terminal_error_computerSelectDice (g : DiceGame) :
  (1 <= length (dice g))%nat ->
  only_terminal_error (computerSelectDice g)
    (fun g' => (length (dice g') + 1 = length (dice g))%nat /\
               is_Some (computerDice g') /\ userDice g' = userDice g).
Proof.
  intros Hlen w. split; [apply computerSelectDice_terminal|].
  pose proof (computerSelectDice_cases g w) as Hcases.
  destruct (computerSelectDice g w) as [[g'|c|e|] w']; cbn [fst].
  - destruct Hcases as (i & d & _ & Hi & -> & _). cbn [dice userDice computerDice].
    rewrite (length_delete _ _ (ex_intro _ _ Hi)).
    pose proof (lookup_lt_Some _ _ _ Hi).
    split; [lia|]. split; [eexists; reflexivity | reflexivity].
  - destruct Hcases.
  - destruct Hcases as [Hnil _]. rewrite Hnil in Hlen. cbn in Hlen. lia.
  - exact I.
Qed.

Lemma only_terminal_error_throw_with hmac (g : DiceGame) (d : Dice) :
  only_terminal_error (throw_with hmac g (Some d)) (fun _ => True).
Proof.
  cbn [throw_with].
  eapply only_terminal_error_bind; [apply only_terminal_error_FairRandom_new|]. intros fairness _.
  eapply only_terminal_error_bind; [apply only_terminal_error_say|]. intros _ _.
  eapply only_terminal_error_bind; [apply only_terminal_error_getUserInput|]. intros u _.
  eapply only_terminal_error_bind; [apply only_terminal_error_say|]. intros _ _.
  eapply only_terminal_error_bind; [apply only_terminal_error_say|]. intros _ _.
  apply only_terminal_error_ret. exact I.
Qed.

Lemma only_terminal_error_declareWinner (userRoll computerRoll : option number) :
  only_terminal_error (declareWinner userRoll computerRoll) (fun _ => True).
Proof.
  unfold declareWinner.
  eapply only_terminal_error_bind; [apply only_terminal_error_say|]. intros _ _.
  eapply only_terminal_error_bind; [apply only_terminal_error_say|]. intros _ _.
  destruct (gt _ _); [apply only_terminal_error_say|].
  destruct (lt _ _); apply only_terminal_error_say.
Qed.

Lemma only_terminal_error_play hmac (userFirst : bool) (g : DiceGame) :
  (2 <= length (dice g))%nat -> only_terminal_error (play hmac userFirst g) (fun _ => True).
Proof.
  intros Hlen. unfold play.
  eapply only_terminal_error_bind with
    (Q := fun g2 => is_Some (userDice g2) /\ is_Some (computerDice g2)).
  { destruct userFirst.
    - eapply only_terminal_error_bind; [apply only_terminal_error_say|]. intros _ _.
      eapply only_terminal_error_bind; [apply only_terminal_error_userSelectDice|].
      intros g1 (Hlen1 & Huser & _).
      eapply only_terminal_error_weaken; [apply only_terminal_error_computerSelectDice; lia|].
      intros g2 (_ & Hcomp & Hsame). split; [rewrite Hsame; exact Huser | exact Hcomp].
    - eapply only_terminal_error_bind; [apply only_terminal_error_say|]. intros _ _.
      eapply only_terminal_error_bind; [apply only_terminal_error_computerSelectDice; lia|].
      intros g1 (Hlen1 & Hcomp & _).
      eapply only_terminal_error_weaken; [apply only_terminal_error_userSelectDice|].
      intros g2 (_ & Huser & Hsame). split; [exact Huser | rewrite Hsame; exact Hcomp]. }
  intros g2 [[du Hdu] [dc Hdc]].
  eapply only_terminal_error_bind; [apply only_terminal_error_say|]. intros _ _.
  unfold computerThrow, userThrow. rewrite Hdu, Hdc.
  eapply only_terminal_error_bind; [apply only_terminal_error_throw_with|]. intros computerRoll _.
  eapply only_terminal_error_bind; [apply only_terminal_error_throw_with|]. intros userRoll _.
  apply only_terminal_error_declareWinner.
Qed.

Lemma only_terminal_error_decide_first hmac (g : DiceGame) :
  only_terminal_error (decide_first hmac g) (fun _ => True).
Proof.
  unfold decide_first.
  eapply only_terminal_error_bind; [apply only_terminal_error_say|]. intros _ _.
  eapply only_terminal_error_bind; [apply only_terminal_error_FairRandom_new|]. intros fairness _.
  eapply only_terminal_error_bind; [apply only_terminal_error_say|]. intros _ _.
  eapply only_terminal_error_bind; [apply only_terminal_error_getUserInput|]. intros u _.
  eapply only_terminal_error_bind; [apply only_terminal_error_say|]. intros _ _.
  apply only_terminal_error_ret. exact I.
Qed.

Lemma only_terminal_error_start hmac (g : DiceGame) :
  (2 <= length (dice g))%nat -> only_terminal_error (start hmac g) (fun _ => True).
Proof.
  intros Hlen. unfold start.
  eapply only_terminal_error_bind; [apply only_terminal_error_decide_first|]. intros userFirst _.
  apply only_terminal_error_play, Hlen.
Qed.

(** A session, when it returns: what it took from the entropy. *)
Lemma FairRandom_new_Ret hmac (N : Z) (w : world)
    (s : GameJs.FairRandom) (w' : world) :
  1 <= N -> GameJs.FairRandom_new hmac N w = (Ret s, w') ->
  exists rejected b0 b1 b2 b3,
    entropy w = GameJs.key s ++ rejected ++ [b0; b1; b2; b3] ++ entropy w' /\
    length (GameJs.key s) = 32%nat /\
    length rejected = (4 * length (GameJs.draws rejected))%nat /\
    Forall (fun d => 2 ^ 32 - 2 ^ 32 mod N <= d) (GameJs.draws rejected) /\
    JS.readUInt32BE [b0; b1; b2; b3] < 2 ^ 32 - 2 ^ 32 mod N /\
    GameJs.value s = JS.Int (JS.readUInt32BE [b0; b1; b2; b3] mod N) /\
    GameJs.hmac s = GameJs.calculateHMAC hmac (GameJs.key s) (GameJs.value s) /\
    randomInts w' = randomInts w /\ stdin w' = stdin w /\ stdout w' = stdout w.
Proof.
  intros HN. rewrite SessionFacts.FairRandom_new_unfold.
  destruct (32 <=? length (entropy w))%nat eqn:Elen; [|discriminate].
  apply Nat.leb_le in Elen.
  destruct (GameJs.sample N _) as [[v rest]|] eqn:Hsample; [|discriminate].
  intros [= <- <-]. unfold GameJs.sample in Hsample.
  rewrite (SamplerFacts.limit_positive N HN) in Hsample.
  destruct (GameJs.draw_until _ _) as [[rand rest']|] eqn:Hdraw; [|discriminate].
  injection Hsample as <- <-.
  pose proof (SessionFacts.draw_until_range _ _ _ _ Hdraw) as Hrange.
  destruct (draw_until_split _ _ _ _ Hdraw)
    as (rejected & b0 & b1 & b2 & b3 & Hsplit & -> & Hlt & Hall & Hlen).
  exists rejected, b0, b1, b2, b3. cbn [GameJs.key GameJs.value GameJs.hmac entropy
    randomInts stdin stdout].
  split; [simpl app; rewrite <- Hsplit; symmetry; apply take_drop|].
  split; [rewrite length_take; lia|]. split; [exact Hlen|]. split; [exact Hall|].
  split; [exact Hlt|].
  split; [unfold JS.rem; destruct (N =? 0) eqn:E0; [lia|];
          rewrite Z.rem_mod_nonneg by lia; reflexivity|].
  repeat (split; [reflexivity|]). reflexivity.
Qed.

(** The turn-order decision, when it returns. For range 2 the limit is
    2^32 and no draw is rejected. *)
Lemma decide_first_Ret hmac (g : DiceGame) (w : world) (userFirst : bool) (w' : world) :
  decide_first hmac g w = (Ret userFirst, w') ->
  exists keybytes b0 b1 b2 b3 skipped line guess earlier,
    entropy w = keybytes ++ [b0; b1; b2; b3] ++ entropy w' /\
    length keybytes = 32%nat /\
    stdin w = skipped ++ line :: stdin w' /\
    Forall (fun l => passed_over [0; 1] l = true) skipped /\
    parseInt (trim line) = Int guess /\ (guess = 0 \/ guess = 1) /\
    userFirst = (guess =? readUInt32BE [b0; b1; b2; b3] mod 2) /\
    randomInts w' = randomInts w /\
    stdout w' =
      Said (MsgMySelection (Int (readUInt32BE [b0; b1; b2; b3] mod 2)) (toHex keybytes))
      :: Asked "Try to guess my selection (0 or 1): " line :: earlier.
Proof.
  unfold decide_first. intros Hrun.
  apply bind_Ret in Hrun as (? & w1 & Hsay1 & Hrun).
  apply bind_Ret in Hrun as (fairness & w2 & Hnew & Hrun).
  apply bind_Ret in Hrun as (? & w3 & Hsay2 & Hrun).
  apply bind_Ret in Hrun as (u & w4 & Hinput & Hrun).
  unfold say in Hsay1. inversion Hsay1; subst; clear Hsay1.
  unfold say in Hsay2. inversion Hsay2; subst; clear Hsay2.
  destruct (FairRandom_new_Ret hmac 2 _ _ _ ltac:(lia) Hnew)
    as (rejected & b0 & b1 & b2 & b3 & Hent & Hkey & Hlen & Hall & _ & Hvalue & _
        & Hints & Hstdin & _).
  cbn [entropy randomInts stdin stdout] in Hent, Hints, Hstdin.
  assert (rejected = []) as ->.
  { pose proof (SamplerFacts.draws_range rejected) as Hrange.
    destruct (draws rejected) as [|d ds].
    - destruct rejected; [reflexivity | cbn in Hlen; lia].
    - apply Forall_inv in Hall. apply Forall_inv in Hrange.
      change (2 ^ 32 mod 2) with 0 in Hall. lia. }
  match type of Hinput with getUserInput _ ?prompt ?valid ?w0 = _ =>
    destruct (getUserInput_outcome g prompt valid w0) as (He & Hr & _ & Hcase) end.
  rewrite Hinput in He, Hr, Hcase.
  cbn [fst snd entropy randomInts stdin stdout] in He, Hr, Hcase.
  destruct Hcase as (skipped & line & guess & Hsplit & Hskipped & -> & Hparse & Hguess & Hhead).
  unfold bind, say, ret in Hrun. injection Hrun as <- <-.
  cbn [entropy randomInts stdin stdout].
  destruct (stdout w4) as [|e earlier] eqn:Hout; [discriminate|].
  cbn in Hhead. injection Hhead as ->.
  exists (key fairness), b0, b1, b2, b3, skipped, line, guess, earlier.
  split; [rewrite He; exact Hent|]. split; [exact Hkey|].
  split; [rewrite <- Hstdin; exact Hsplit|]. split; [exact Hskipped|].
  split; [exact Hparse|].
  split; [cbn in Hguess; destruct Hguess as [<-|[<-|[]]]; auto|].
  unfold getValue, revealKey. rewrite Hvalue. cbn [strict_eq].
  split; [reflexivity|]. split; [congruence | reflexivity].
Qed.

End RunFacts.

(** ** What a session puts on the console *)

Module SecrecyFacts.

Import JS GameJs.

(** The loop of [getUserInput] on two worlds with the same lines to read
    and the same terminal: the same outcome, the same lines left, the
    same lines written. *)
Lemma getUserInput_rounds_same (g : DiceGame) (prompt : string) (validInputs : list Z)
    (fuel : nat) :
  forall w w0, stdin w = stdin w0 -> terminal w = terminal w0 ->
  exists delta,
    fst (getUserInput_rounds fuel g prompt validInputs w)
      = fst (getUserInput_rounds fuel g prompt validInputs w0) /\
    stdout (snd (getUserInput_rounds fuel g prompt validInputs w)) = delta ++ stdout w /\
    stdout (snd (getUserInput_rounds fuel g prompt validInputs w0)) = delta ++ stdout w0.
Proof.
  induction fuel as [|fuel IH]; intros w w0 Hin Htty.
  { exists []. split; [reflexivity|]. split; reflexivity. }
  rewrite !PlayFacts.getUserInput_rounds_S, <- Hin, <- Htty.
  destruct (stdin w) as [|line rest].
  { exists []. destruct (terminal w); (split; [reflexivity|]; split; reflexivity). }
  cbn zeta.
  destruct (String.eqb (toLowerCase (trim line)) "x").
  { exists [Said MsgExited; Asked prompt line].
    split; [reflexivity|]. split; reflexivity. }
  destruct (String.eqb (toLowerCase (trim line)) "?").
  { assert (Htable : exists out, forall v, displayTable (dice g) v =
              (Ret tt, World (entropy v) (randomInts v) (stdin v) (out ++ stdout v)
                         (terminal v)))
      by (eexists [_; _; _; _]; intros v; reflexivity).
    destruct Htable as [out Htable]. rewrite !Htable.
    cbn [snd entropy randomInts stdin stdout terminal].
    match goal with |- context [getUserInput_rounds fuel g prompt validInputs ?a] =>
      match goal with |- context [getUserInput_rounds fuel g prompt validInputs ?b] =>
        tryif constr_eq a b then fail else
          destruct (IH a b eq_refl eq_refl) as (delta & Hfst & Ha & Hb)
      end end.
    exists (delta ++ out ++ [Asked prompt line]).
    split; [exact Hfst|].
    cbn [stdout] in Ha, Hb. rewrite Ha, Hb, <- !app_assoc. split; reflexivity. }
  destruct (negb _ && _).
  { exists [Asked prompt line]. split; [reflexivity|]. split; reflexivity. }
  cbn [snd say entropy randomInts stdin stdout terminal].
  match goal with |- context [getUserInput_rounds fuel g prompt validInputs ?a] =>
    match goal with |- context [getUserInput_rounds fuel g prompt validInputs ?b] =>
      tryif constr_eq a b then fail else
        destruct (IH a b eq_refl eq_refl) as (delta & Hfst & Ha & Hb)
    end end.
  exists (delta ++ [Said MsgInvalid; Asked prompt line]).
  split; [exact Hfst|].
  cbn [stdout] in Ha, Hb. rewrite Ha, Hb, <- !app_assoc. split; reflexivity.
Qed.

(** What [getUserInput] writes is the dialogue of the lines it reads. *)
Lemma getUserInput_writes_dialogue (g : DiceGame) (prompt : string)
    (validInputs : list Z) (w : world) :
  stdout (snd (getUserInput g prompt validInputs w))
    = dialogue g prompt validInputs (stdin w) (terminal w) ++ stdout w.
Proof.
  unfold dialogue, getUserInput. cbn [stdin].
  destruct (getUserInput_rounds_same g prompt validInputs (S (length (stdin w))) w
              (World [] [] (stdin w) [] (terminal w)) eq_refl eq_refl)
    as (delta & _ & Ha & Hb).
  cbn [stdout] in Hb. rewrite app_nil_r in Hb. rewrite Ha, Hb. reflexivity.
Qed.

(** A session is made of the entropy alone. *)
Lemma FairRandom_new_elsewhere hmac (N : Z) (w : world) (s : FairRandom) (w1 : world)
    (out : list event) :
  FairRandom_new hmac N w = (Ret s, w1) ->
  FairRandom_new hmac N (World (entropy w) (randomInts w) (stdin w) out (terminal w))
    = (Ret s, World (entropy w1) (randomInts w) (stdin w) out (terminal w)).
Proof.
  rewrite !SessionFacts.FairRandom_new_unfold. cbn [entropy randomInts stdin stdout terminal].
  destruct (32 <=? _)%nat; [|discriminate].
  destruct (sample N _) as [[v rest]|]; [|discriminate].
  intros [= <- <-]. reflexivity.
Qed.

(** The talk of a session that has taken its input ends with the answer. *)
Lemma dialogue_ends_with_answer (g : DiceGame) (prompt : string) (validInputs : list Z)
    (w : world) (u : number) (w' : world) :
  getUserInput g prompt validInputs w = (Ret u, w') ->
  exists answer earlier,
    dialogue g prompt validInputs (stdin w) (terminal w) = Asked prompt answer :: earlier.
Proof.
  intros Hrun.
  destruct (getUserInput_rounds_same g prompt validInputs (S (length (stdin w))) w
              (World [] [] (stdin w) [] (terminal w)) eq_refl eq_refl)
    as (_ & Hfst & _).
  change (getUserInput_rounds (S (length (stdin w))) g prompt validInputs w)
    with (getUserInput g prompt validInputs w) in Hfst.
  change (getUserInput_rounds (S (length (stdin w))) g prompt validInputs
            (World [] [] (stdin w) [] (terminal w)))
    with (getUserInput g prompt validInputs (World [] [] (stdin w) [] (terminal w))) in Hfst.
  rewrite Hrun in Hfst. cbn [fst] in Hfst.
  pose proof (RunFacts.getUserInput_outcome g prompt validInputs
                (World [] [] (stdin w) [] (terminal w))) as (_ & _ & _ & Hcase).
  rewrite <- Hfst in Hcase.
  destruct Hcase as (_ & answer & _ & _ & _ & _ & _ & _ & Hhead).
  unfold dialogue.
  destruct (stdout _) as [|e earlier]; [discriminate|].
  cbn in Hhead. injection Hhead as ->. eauto.
Qed.

(** The console of a throw: the digest of the session, the dialogue, and
    only after the answer the value, the key and the result. *)
Lemma throw_with_console hmac (g : DiceGame) (d : Dice) (w : world) (s : FairRandom)
    (w1 : world) :
  FairRandom_new hmac (Z.of_nat (length (values d))) w = (Ret s, w1) ->
  session_console (stdout (snd (throw_with hmac g (Some d) w))) (stdout w)
    (Said (MsgCommitted (Int 0) (Int (Z.of_nat (length (values d)) - 1))
             (calculateHMAC hmac (key s) (value s))))
    (dialogue g ("Add your number modulo " +:+ pretty (length (values d)) +:+ ": ")
       (keys (length (values d))) (stdin w) (terminal w))
    (fun u =>
       [Said (MsgResult u (value s)
                (rem (add u (value s)) (Int (Z.of_nat (length (values d)))))
                (Z.of_nat (length (values d))));
        Said (MsgMyNumber (value s) (toHex (key s)))]).
Proof.
  intros Hnew.
  pose proof (SessionFacts.FairRandom_new_quiet hmac (Z.of_nat (length (values d))) w)
    as [Hout Hin].
  pose proof (proj1 (RunFacts.only_terminal_error_FairRandom_new hmac
                       (Z.of_nat (length (values d))) w)) as Htty.
  assert (Hhmac : GameJs.hmac s = calculateHMAC hmac (key s) (value s)).
  { revert Hnew. rewrite SessionFacts.FairRandom_new_unfold.
    destruct (32 <=? _)%nat; [|discriminate].
    destruct (sample _ _) as [[v rest]|]; [|discriminate].
    intros [= <- _]. reflexivity. }
  rewrite Hnew in Hout, Hin, Htty. cbn [snd] in Hout, Hin, Htty.
  cbn [throw_with]. unfold bind at 1. rewrite Hnew.
  unfold bind at 1, say at 1. unfold bind at 1.
  match goal with |- context [getUserInput g ?prompt ?valid ?w2] =>
    pose proof (getUserInput_writes_dialogue g prompt valid w2) as Hframe;
    pose proof (dialogue_ends_with_answer g prompt valid w2) as Hans;
    destruct (getUserInput g prompt valid w2) as [[u|c|e|] w3] eqn:Hinput
  end; cbn [snd stdin stdout terminal] in Hframe, Hans;
    rewrite Hin, Htty, Hout, Hhmac in Hframe; rewrite ?Hin, ?Htty in Hans.
  - destruct (Hans u w3 eq_refl) as (answer & earlier & Htalk).
    eexists [_; _]. split.
    + unfold bind, say, ret. cbn [snd stdout]. rewrite Hframe. reflexivity.
    + right. eexists u, _, answer, earlier. split; [reflexivity | exact Htalk].
  - exists []. split; [exact Hframe | left; reflexivity].
  - exists []. split; [exact Hframe | left; reflexivity].
  - exists []. split; [exact Hframe | left; reflexivity].
Qed.

(** The console of the turn-order decision. *)
Lemma decide_first_console hmac (g : DiceGame) (w : world) (s : FairRandom) (w1 : world) :
  FairRandom_new hmac 2 w = (Ret s, w1) ->
  session_console (stdout (snd (decide_first hmac g w)))
    (Said MsgDetermineFirst :: stdout w)
    (Said (MsgCommitted (Int 0) (Int 1) (calculateHMAC hmac (key s) (value s))))
    (dialogue g "Try to guess my selection (0 or 1): " [0; 1] (stdin w) (terminal w))
    (fun _ => [Said (MsgMySelection (value s) (toHex (key s)))]).
Proof.
  intros Hnew.
  assert (Hhmac : GameJs.hmac s = calculateHMAC hmac (key s) (value s)).
  { revert Hnew. rewrite SessionFacts.FairRandom_new_unfold.
    destruct (32 <=? _)%nat; [|discriminate].
    destruct (sample _ _) as [[v rest]|]; [|discriminate].
    intros [= <- _]. reflexivity. }
  unfold decide_first. unfold bind at 1, say at 1. unfold bind at 1.
  rewrite (FairRandom_new_elsewhere hmac 2 w s w1 _ Hnew).
  unfold bind at 1, say at 1. unfold bind at 1.
  cbn [entropy randomInts stdin stdout terminal].
  match goal with |- context [getUserInput g ?prompt ?valid ?w2] =>
    pose proof (getUserInput_writes_dialogue g prompt valid w2) as Hframe;
    pose proof (dialogue_ends_with_answer g prompt valid w2) as Hans;
    destruct (getUserInput g prompt valid w2) as [[u|c|e|] w3] eqn:Hinput
  end; cbn [snd stdin stdout terminal] in Hframe, Hans; rewrite Hhmac in Hframe.
  - destruct (Hans u w3 eq_refl) as (answer & earlier & Htalk).
    eexists [_]. split.
    + unfold bind, say, ret. cbn [snd stdout]. rewrite Hframe. reflexivity.
    + right. eexists u, _, answer, earlier. split; [reflexivity | exact Htalk].
  - exists []. split; [exact Hframe | left; reflexivity].
  - exists []. split; [exact Hframe | left; reflexivity].
  - exists []. split; [exact Hframe | left; reflexivity].
Qed.

(** The console of the turn-order decision of the second variant. *)
Lemma determineTurnOrder_console hmac (f : Variant.FairRandomGenerator) (w : world)
    (v : Z) (w1 : world) :
  randomInt 2 w = (Ret v, w1) ->
  session_console (stdout (snd (Variant.determineTurnOrder hmac f w))) (stdout w)
    (Said (MsgComputerHmac (Variant.generateHMAC hmac f v)))
    (match stdin w with
     | [] => []
     | line :: _ => [Asked "Guess computer selection (0 or 1): " line]
     end)
    (fun _ =>
       [Said (if strict_eq (parseInt_auto (hd "" (stdin w))) (Int v)
              then MsgCorrect (toHex (Variant.key f))
              else MsgIncorrect (toHex (Variant.key f)))]).
Proof.
  intros Hint.
  assert (Hw1 : stdin w1 = stdin w /\ stdout w1 = stdout w).
  { revert Hint. unfold randomInt. destruct (2 <=? 0); [discriminate|].
    destruct (randomInts w) as [|r rest]; [discriminate|].
    destruct (_ && _); [|discriminate]. intros [= _ <-]. split; reflexivity. }
  destruct Hw1 as [Hin Hout].
  unfold Variant.determineTurnOrder, Variant.generateSecureValue.
  unfold bind at 1. unfold bind at 1. rewrite Hint. unfold ret at 1.
  unfold bind at 1, say at 1. unfold bind at 1, rl_question.
  cbn [entropy randomInts stdin stdout terminal]. rewrite Hin, Hout.
  destruct (stdin w) as [|line rest].
  - exists []. split; [reflexivity | left; reflexivity].
  - cbn [hd].
    destruct (strict_eq _ _); (eexists [_]; split;
      [reflexivity | right; exists NaN; eexists _, line, []; split; reflexivity]).
Qed.

End SecrecyFacts.

(** C3. In every execution of the game, of the turn-order decision, of a
    throw of the user and of a throw of the computer, whatever the
    entropy, the answers typed and the point where the input runs out or
    the user quits: the transcript keeps the order of the sessions, and so
    every line that carries a key or a value comes after an answer of the
    user to the digest of its session, with no secret on the console
    between that digest and the answer. The same holds for the turn-order
    decision of the second variant.

    What the lines carry: in a session that has been created, the line
    that publishes the digest carries the bounds of the range and the
    digest of the session's key and value, and nothing else of the
    session; what follows it up to the answer is the dialogue, which is
    settled by the dice and by what is typed; the value and the key come
    after the answer that was taken as the input, and only then. *)
Theorem secrets_revealed_only_after_input hmac (g : GameJs.DiceGame)
    (f : Variant.FairRandomGenerator) (bytes : list byte) (ints : list Z)
    (lines : list string) (tty : bool) :
  let w := World bytes ints lines [] tty in
  let ordered (tr : list event) := keeps_order tr = true /\ revealed_after_input tr in
  ordered (transcript (snd (GameJs.start hmac g w))) /\
  ordered (transcript (snd (GameJs.decide_first hmac g w))) /\
  ordered (transcript (snd (GameJs.userThrow hmac g w))) /\
  ordered (transcript (snd (GameJs.computerThrow hmac g w))) /\
  ordered (transcript (snd (Variant.determineTurnOrder hmac f w))) /\
  (forall s w1,
     GameJs.FairRandom_new hmac 2 w = (Ret s, w1) ->
     session_console (stdout (snd (GameJs.decide_first hmac g w))) [Said MsgDetermineFirst]
       (Said (MsgCommitted (JS.Int 0) (JS.Int 1)
                (GameJs.calculateHMAC hmac (GameJs.key s) (GameJs.value s))))
       (dialogue g "Try to guess my selection (0 or 1): " [0; 1] lines tty)
       (fun _ => [Said (MsgMySelection (GameJs.value s) (JS.toHex (GameJs.key s)))])) /\
  (forall d s w1,
     GameJs.FairRandom_new hmac (Z.of_nat (length (GameJs.values d))) w = (Ret s, w1) ->
     let console (out : list event) :=
       session_console out []
         (Said (MsgCommitted (JS.Int 0) (JS.Int (Z.of_nat (length (GameJs.values d)) - 1))
                  (GameJs.calculateHMAC hmac (GameJs.key s) (GameJs.value s))))
         (dialogue g
            ("Add your number modulo " +:+ pretty (length (GameJs.values d)) +:+ ": ")
            (JS.keys (length (GameJs.values d))) lines tty)
         (fun u =>
            [Said (MsgResult u (GameJs.value s)
                     (JS.rem (JS.add u (GameJs.value s))
                        (JS.Int (Z.of_nat (length (GameJs.values d)))))
                     (Z.of_nat (length (GameJs.values d))));
             Said (MsgMyNumber (GameJs.value s) (JS.toHex (GameJs.key s)))]) in
     (GameJs.userDice g = Some d -> console (stdout (snd (GameJs.userThrow hmac g w)))) /\
     (GameJs.computerDice g = Some d ->
      console (stdout (snd (GameJs.computerThrow hmac g w))))) /\
  (forall v w1,
     randomInt 2 w = (Ret v, w1) ->
     session_console (stdout (snd (Variant.determineTurnOrder hmac f w))) []
       (Said (MsgComputerHmac (Variant.generateHMAC hmac f v)))
       (match lines with
        | [] => []
        | line :: _ => [Asked "Guess computer selection (0 or 1): " line]
        end)
       (fun _ =>
          [Said (if JS.strict_eq (JS.parseInt_auto (hd "" lines)) (JS.Int v)
                 then MsgCorrect (JS.toHex (Variant.key f))
                 else MsgIncorrect (JS.toHex (Variant.key f)))])).
Proof.
  intros w ordered.
  assert (Hall : forall A (m : M A) Q,
            emits m Idle Q -> ordered (transcript (snd (m w)))).
  { intros A m Q Hm.
    pose proof (Transcript.emits_keeps_order m Q w Hm eq_refl) as Hk.
    split; [exact Hk | apply Transcript.keeps_order_revealed_after_input, Hk]. }
  split; [eapply Hall, Transcript.emits_start|].
  split; [eapply Hall, Transcript.emits_decide_first|].
  split; [eapply Hall, Transcript.emits_throw_with; left; reflexivity|].
  split; [eapply Hall, Transcript.emits_throw_with; left; reflexivity|].
  split; [eapply Hall, Transcript.emits_determineTurnOrder|].
  split; [intros s w1 Hnew; exact (SecrecyFacts.decide_first_console hmac g w s w1 Hnew)|].
  split; [|intros v w1 Hint; exact (SecrecyFacts.determineTurnOrder_console hmac f w v w1 Hint)].
  intros d s w1 Hnew console.
  pose proof (SecrecyFacts.throw_with_console hmac g d w s w1 Hnew) as Hconsole.
  unfold GameJs.userThrow, GameJs.computerThrow.
  split; intros ->; exact Hconsole.
Qed.

(** A throw of the user with the die of six faces, the secret value 3 and
    the lines "7" and "4" typed: the digest, the refused line, the
    accepted line, and only then the value, the key and the result. *)
Lemma secrets_revealed_only_after_input_witness :
  session_console
    (stdout (snd (GameJs.userThrow demo_hmac scenario_game
                    (World (replicate 32 x07 ++ [x00; x00; x00; x03]) [1] ["7"; "4"] [] true))))
    []
    (Said (MsgCommitted (JS.Int 0) (JS.Int 5)
             (GameJs.calculateHMAC demo_hmac (replicate 32 x07) (JS.Int 3))))
    [Asked "Add your number modulo 6: " "4"; Said MsgInvalid;
     Asked "Add your number modulo 6: " "7"]
    (fun u =>
       [Said (MsgResult u (JS.Int 3) (JS.rem (JS.add u (JS.Int 3)) (JS.Int 6)) 6);
        Said (MsgMyNumber (JS.Int 3) (JS.toHex (replicate 32 x07)))]) /\
  stdout (snd (GameJs.userThrow demo_hmac scenario_game
                 (World (replicate 32 x07 ++ [x00; x00; x00; x03]) [1] ["7"; "4"] [] true)))
    = [Said (MsgResult (JS.Int 4) (JS.Int 3) (JS.Int 1) 6);
       Said (MsgMyNumber (JS.Int 3) (JS.toHex (replicate 32 x07)));
       Asked "Add your number modulo 6: " "4"; Said MsgInvalid;
       Asked "Add your number modulo 6: " "7";
       Said (MsgCommitted (JS.Int 0) (JS.Int 5)
               (GameJs.calculateHMAC demo_hmac (replicate 32 x07) (JS.Int 3)))].
Proof.
  split; [|vm_compute; reflexivity].
  pose proof (secrets_revealed_only_after_input demo_hmac scenario_game
                {| Variant.key := replicate 32 x07 |}
                (replicate 32 x07 ++ [x00; x00; x00; x03]) [1] ["7"; "4"] true) as Hall.
  cbv zeta in Hall.
  destruct Hall as (_ & _ & _ & _ & _ & _ & Hthrow & _).
  exact (proj1 (Hthrow scenario_die scenario_session
                  (World [] [1] ["7"; "4"] [] true) ltac:(vm_compute; reflexivity))
           eq_refl).
Defined.


(** ** What the parsers report and what the table shows *)

Module ReportFacts.

Import JS GameJs.

Lemma find_forallb {A} (p : A -> bool) (l : list A) :
  forallb p l =
    match List.find (fun x => negb (p x)) l with Some _ => false | None => true end.
Proof.
  induction l as [|x l IH]; [reflexivity|].
  cbn [forallb List.find]. destruct (p x); cbn [negb andb]; [exact IH | reflexivity].
Qed.

Lemma forallb_map {A B} (f : A -> B) (p : B -> bool) (l : list A) :
  forallb p (map f l) = forallb (fun x => p (f x)) l.
Proof.
  induction l as [|x l IH]; [reflexivity|]. cbn [map forallb]. rewrite IH. reflexivity.
Qed.

(** The first position of a list at which a test fails. *)
Lemma forallb_false_first {A} (p : A -> bool) (l : list A) :
  forallb p l = false ->
  exists i x, l !! i = Some x /\ p x = false /\
    forall j y, (j < i)%nat -> l !! j = Some y -> p y = true.
Proof.
  induction l as [|a l IH]; [discriminate|]. cbn [forallb].
  destruct (p a) eqn:Ea; cbn [andb].
  - intros H. destruct (IH H) as (i & x & Hi & Hx & Hbefore).
    exists (S i), x. split; [exact Hi|]. split; [exact Hx|].
    intros [|j] y Hj Hy; [cbn in Hy; congruence|].
    apply (Hbefore j); [lia | exact Hy].
  - intros _. exists 0%nat, a. split; [reflexivity|]. split; [exact Ea|].
    intros j y Hj. lia.
Qed.

(** The tokens of a die are read in order: the first that is no number
    ends the process. *)
Lemma mapM_parse_value_first (index : nat) (tokens : list string) (w : world) :
  mapM (parse_value index) tokens w =
    match List.find (fun token => negb (token_passes token)) tokens with
    | Some token => (Exit 1, snd (say (MsgErrNonInteger (Z.of_nat index + 1) token) w))
    | None => (Ret (map parseInt tokens), w)
    end.
Proof.
  induction tokens as [|token tokens IH]; [reflexivity|].
  cbn [mapM List.find]. unfold bind at 1. rewrite ParseFacts.parse_value_run.
  destruct (token_passes token); cbn [negb]; [|reflexivity].
  unfold bind. rewrite IH. destruct (List.find _ tokens); reflexivity.
Qed.

Lemma parse_arg_full (index : nat) (arg : string) (w : world) :
  parse_arg (index, arg) w =
    if arg_passes arg then (Ret (die_of arg), w)
    else (Exit 1, snd (say (complaint index arg) w)).
Proof.
  unfold parse_arg, arg_passes, complaint, bind.
  rewrite mapM_parse_value_first, find_forallb.
  destruct (List.find _ (split_comma arg)); cbn [andb]; [reflexivity|].
  rewrite length_map. destruct (length (split_comma arg) =? 6)%nat; reflexivity.
Qed.

(** The dice are read in order: the first argument that does not pass
    ends the process, with its own complaint. *)
Lemma mapM_parse_arg_bad (args : list string) (w : world) :
  forall (off i : nat) (arg : string),
  args !! i = Some arg -> arg_passes arg = false ->
  (forall j a, (j < i)%nat -> args !! j = Some a -> arg_passes a = true) ->
  mapM parse_arg (imap (fun m a => (off + m, a)%nat) args) w =
    (Exit 1, snd (say (complaint (off + i) arg) w)).
Proof.
  induction args as [|a args IH]; intros off i arg Hi Hbad Hbefore; [discriminate|].
  cbn [imap mapM]. unfold bind at 1. rewrite parse_arg_full.
  destruct i as [|i].
  - cbn in Hi. injection Hi as ->. rewrite Hbad. reflexivity.
  - rewrite (Hbefore 0%nat a ltac:(lia) eq_refl).
    rewrite (imap_ext _ (fun m y => (S off + m, y)%nat))
      by (intros; unfold compose; f_equal; lia).
    unfold bind.
    rewrite (IH (S off) i arg Hi Hbad)
      by (intros j y Hj Hy; apply (Hbefore (S j)); [lia | exact Hy]).
    replace (S off + i)%nat with (off + S i)%nat by lia. reflexivity.
Qed.

Lemma parseDice_cases (args : list string) (w : world) :
  match parseDice args w with
  | (Ret dice, w') =>
      w' = w /\ dice = map die_of args /\
      (3 <= length args)%nat /\ forallb arg_passes args = true
  | (Exit code, w') =>
      code = 1 /\
      exists msg,
        w' = World (entropy w) (randomInts w) (stdin w) (Said msg :: stdout w) (terminal w) /\
        ((length args < 3)%nat /\ msg = MsgErrTooFew \/
         (3 <= length args)%nat /\
         exists i arg,
           args !! i = Some arg /\ arg_passes arg = false /\
           (forall j a, (j < i)%nat -> args !! j = Some a -> arg_passes a = true) /\
           msg = complaint i arg)
  | (Throw _, _) => False
  | (Stall, _) => False
  end.
Proof.
  unfold parseDice. destruct (length args <? 3)%nat eqn:E.
  { apply Nat.ltb_lt in E. cbn. split; [reflexivity|]. exists MsgErrTooFew.
    split; [reflexivity|]. left. split; [exact E | reflexivity]. }
  apply Nat.ltb_ge in E.
  destruct (forallb arg_passes args) eqn:Hall.
  - pose proof (ParseFacts.mapM_parse_arg (indexed args) w) as Hrun.
    rewrite ParseFacts.snd_indexed, Hall in Hrun. rewrite Hrun.
    split; [reflexivity|]. split; [reflexivity|]. split; [exact E | reflexivity].
  - destruct (forallb_false_first _ _ Hall) as (i & arg & Hi & Hbad & Hbefore).
    change (indexed args) with (imap (fun m a => (0 + m, a)%nat) args).
    rewrite (mapM_parse_arg_bad args w 0 i arg Hi Hbad Hbefore).
    cbn [snd say Nat.add]. split; [reflexivity|]. exists (complaint i arg).
    split; [reflexivity|]. right. split; [exact E|].
    exists i, arg. split; [exact Hi|]. split; [exact Hbad|].
    split; [exact Hbefore | reflexivity].
Qed.

Lemma only_terminal_error_parseDice (args : list string) :
  only_terminal_error (parseDice args) (fun dice => (3 <= length dice)%nat).
Proof.
  intros w. pose proof (parseDice_cases args w) as Hcases.
  destruct (parseDice args w) as [[dice|c|e|] w']; cbn [fst snd].
  - destruct Hcases as (-> & -> & Hlen & _).
    split; [reflexivity | rewrite length_map; exact Hlen].
  - destruct Hcases as (-> & msg & -> & _). split; [reflexivity | right; reflexivity].
  - destruct Hcases.
  - destruct Hcases.
Qed.

Lemma only_terminal_error_main hmac (args : list string) :
  only_terminal_error (main hmac args) (fun _ => True).
Proof.
  unfold main. destruct (length args =? 0)%nat.
  - eapply RunFacts.only_terminal_error_bind; [apply RunFacts.only_terminal_error_say|].
    intros _ _. apply RunFacts.only_terminal_error_exit. right. reflexivity.
  - eapply RunFacts.only_terminal_error_bind; [apply only_terminal_error_parseDice|].
    intros dice Hdice.
    apply RunFacts.only_terminal_error_start. unfold DiceGame_new. cbn [GameJs.dice].
    rewrite length_map. cbn beta in Hdice. lia.
Qed.

(** The constructor of the second variant on the tokens of an argument. *)
Lemma Dice_new_arg (arg : string) (w : world) :
  Variant.Dice_new (map Number (split_comma arg)) w =
    if variant_arg_passes arg then (Ret (variant_die_of arg), w)
    else (Throw "Each dice must have 6 integer values.", w).
Proof.
  unfold Variant.Dice_new, variant_arg_passes, variant_die_of.
  rewrite length_map, forallb_map, map_map.
  destruct (length (split_comma arg) =? 6)%nat;
    destruct (forallb _ (split_comma arg)); reflexivity.
Qed.

Lemma mapM_Dice_new (args : list string) (w : world) :
  mapM (fun arg => Variant.Dice_new (map Number (split_comma arg))) args w =
    if forallb variant_arg_passes args then (Ret (map variant_die_of args), w)
    else (Throw "Each dice must have 6 integer values.", w).
Proof.
  induction args as [|arg args IH]; [reflexivity|].
  cbn [mapM forallb map]. unfold bind at 1. rewrite Dice_new_arg.
  destruct (variant_arg_passes arg); cbn [andb]; [|reflexivity].
  unfold bind. rewrite IH. destruct (forallb variant_arg_passes args); reflexivity.
Qed.

Lemma parseArgs_run (args : list string) (w : world) :
  Variant.parseArgs args w =
    if (length args <? 3)%nat
    then (Throw "At least three dice configurations are required.", w)
    else if forallb variant_arg_passes args then (Ret (map variant_die_of args), w)
    else (Throw "Each dice must have 6 integer values.", w).
Proof.
  unfold Variant.parseArgs. destruct (length args <? 3)%nat; [reflexivity|].
  apply mapM_Dice_new.
Qed.

(** A die made by the second variant has six faces, all integers. *)
Lemma variant_die_faces (arg : string) :
  variant_arg_passes arg = true ->
  exists faces, Variant.values (variant_die_of arg) = map Int faces /\ length faces = 6%nat.
Proof.
  unfold variant_arg_passes, variant_die_of. intros Hpass.
  apply andb_prop in Hpass as [Hsix _]. apply Nat.eqb_eq in Hsix.
  exists (map (fun token => integer_value (Number token)) (split_comma arg)).
  cbn [Variant.values]. rewrite map_map, length_map. split; [reflexivity | exact Hsix].
Qed.

Lemma parsed_die (args : list string) (i : nat) (d : Variant.Dice) :
  forallb variant_arg_passes args = true -> map variant_die_of args !! i = Some d ->
  exists faces, Variant.values d = map Int faces /\ length faces = 6%nat.
Proof.
  intros Hall Hd. rewrite list_lookup_fmap in Hd.
  destruct (args !! i) as [arg|] eqn:Harg; [|discriminate].
  cbn in Hd. injection Hd as <-. apply variant_die_faces.
  rewrite forallb_forall in Hall. apply Hall.
  apply list_elem_of_In. exact (list_elem_of_lookup_2 _ _ _ Harg).
Qed.


End ReportFacts.

(** ** Further properties: fairness of the draw and of the commitment *)


(** The sampler has no modulo bias and accepts more than half of the
    draws: for a range N of [1, 2^32] the limit is N * (2^32 / N), above
    2^31, and every residue r of [0, N) is the remainder of exactly the
    2^32 / N accepted draws q * N + r. *)
Theorem accepted_draws_split_evenly (N : Z) :
  1 <= N <= 2 ^ 32 ->
  exists l,
    GameJs.limit N = JS.Int l /\ l = N * (2 ^ 32 / N) /\ 2 ^ 31 < l <= 2 ^ 32 /\
    forall r d, 0 <= r < N ->
      (0 <= d /\ JS.ge (JS.Int d) (GameJs.limit N) = false /\
       JS.rem (JS.Int d) (JS.Int N) = JS.Int r)
      <-> (exists q, 0 <= q < 2 ^ 32 / N /\ d = q * N + r).
Proof.
  intros HN. exists (N * (2 ^ 32 / N)).
  rewrite SamplerFacts.limit_positive, FairnessFacts.limit_value by lia.
  split; [reflexivity|]. split; [reflexivity|].
  split; [apply FairnessFacts.limit_above_half, HN|].
  intros r d Hr. rewrite <- (FairnessFacts.below_limit_iff N d r) by lia.
  unfold JS.ge, JS.rem. destruct (N =? 0) eqn:E0; [lia|]. split.
  - intros (Hd & Hlt & Hrem). apply Z.leb_gt in Hlt. injection Hrem as Hrem.
    rewrite Z.rem_mod_nonneg in Hrem by lia. lia.
  - intros [[Hd Hlt] Hmod]. split; [exact Hd|]. split; [apply Z.leb_gt, Hlt|].
    rewrite Z.rem_mod_nonneg by lia. f_equal. exact Hmod.
Qed.

Lemma accepted_draws_split_evenly_example :
  exists l,
    GameJs.limit 6 = JS.Int l /\ l = 6 * (2 ^ 32 / 6) /\ 2 ^ 31 < l <= 2 ^ 32 /\
    forall r d, 0 <= r < 6 ->
      (0 <= d /\ JS.ge (JS.Int d) (GameJs.limit 6) = false /\
       JS.rem (JS.Int d) (JS.Int 6) = JS.Int r)
      <-> (exists q, 0 <= q < 2 ^ 32 / 6 /\ d = q * 6 + r).
Proof.
  exact (accepted_draws_split_evenly 6 ltac:(lia)).
Defined.

(** The combined result of a throw reaches every face position, each in
    one way: over a die of F faces, for a number of [0, F) held fixed
    (the secret value, or the input) and a position of [0, F), exactly
    one partner of [0, F) gives that position as (input + value) % F, and
    the die has a face there. *)
Theorem every_face_position_has_one_partner (d : GameJs.Dice) (fixed position : Z) :
  0 <= fixed < Z.of_nat (length (GameJs.values d)) ->
  0 <= position < Z.of_nat (length (GameJs.values d)) ->
  exists partner,
    0 <= partner < Z.of_nat (length (GameJs.values d)) /\
    JS.rem (JS.add (JS.Int partner) (JS.Int fixed))
           (JS.Int (Z.of_nat (length (GameJs.values d)))) = JS.Int position /\
    JS.rem (JS.add (JS.Int fixed) (JS.Int partner))
           (JS.Int (Z.of_nat (length (GameJs.values d)))) = JS.Int position /\
    is_Some (GameJs.roll d (JS.Int position)) /\
    forall other,
      0 <= other < Z.of_nat (length (GameJs.values d)) ->
      JS.rem (JS.add (JS.Int other) (JS.Int fixed))
             (JS.Int (Z.of_nat (length (GameJs.values d)))) = JS.Int position ->
      other = partner.
Proof.
  set (F := Z.of_nat (length (GameJs.values d))). intros Hfixed Hposition.
  assert (Hpartner : 0 <= (position - fixed) mod F < F) by (apply Z.mod_pos_bound; lia).
  assert (Hsum : ((position - fixed) mod F + fixed) mod F = position).
  { rewrite Zplus_mod_idemp_l. replace (position - fixed + fixed) with position by lia.
    apply Z.mod_small. lia. }
  exists ((position - fixed) mod F). unfold JS.add, JS.rem.
  destruct (F =? 0) eqn:E0; [lia|].
  split; [exact Hpartner|].
  split; [rewrite Z.rem_mod_nonneg by lia; f_equal; exact Hsum|].
  split; [rewrite Z.rem_mod_nonneg by lia; f_equal; rewrite Z.add_comm; exact Hsum|].
  split.
  - unfold GameJs.roll. destruct (position <? 0) eqn:Eneg; [lia|].
    apply lookup_lt_is_Some_2. fold F in Hposition. unfold F in Hposition. lia.
  - intros other Hother Hrem. injection Hrem as Hrem.
    rewrite Z.rem_mod_nonneg in Hrem by lia.
    apply (FairnessFacts.mod_add_cancel F other ((position - fixed) mod F) fixed);
      [exact Hother | exact Hpartner | congruence].
Qed.

Lemma every_face_position_has_one_partner_example :
  exists partner,
    0 <= partner < Z.of_nat (length (GameJs.values scenario_die)) /\
    JS.rem (JS.add (JS.Int partner) (JS.Int 3))
           (JS.Int (Z.of_nat (length (GameJs.values scenario_die)))) = JS.Int 1 /\
    JS.rem (JS.add (JS.Int 3) (JS.Int partner))
           (JS.Int (Z.of_nat (length (GameJs.values scenario_die)))) = JS.Int 1 /\
    is_Some (GameJs.roll scenario_die (JS.Int 1)) /\
    forall other,
      0 <= other < Z.of_nat (length (GameJs.values scenario_die)) ->
      JS.rem (JS.add (JS.Int other) (JS.Int 3))
             (JS.Int (Z.of_nat (length (GameJs.values scenario_die)))) = JS.Int 1 ->
      other = partner.
Proof.
  exact (every_face_position_has_one_partner scenario_die 3 1
           ltac:(cbn; lia) ltac:(cbn; lia)).
Defined.

(** The digest of game.js binds the value as far as the hash does: the
    message hashed is the decimal text of the value, and different values
    of a session (NaN among them) have different texts. So two values
    have the same digest under every keyed hash exactly when they are the
    same value, and a digest that two different values share is a
    collision of the hash under that key. *)
Theorem digest_binds_value (key : list byte) (value1 value2 : JS.number) :
  session_value value1 -> session_value value2 ->
  ((forall hmac, GameJs.calculateHMAC hmac key value1 = GameJs.calculateHMAC hmac key value2)
   <-> value1 = value2) /\
  (forall hmac,
     value1 <> value2 ->
     GameJs.calculateHMAC hmac key value1 = GameJs.calculateHMAC hmac key value2 ->
     exists data1 data2, data1 <> data2 /\ hmac key data1 = hmac key data2).
Proof.
  intros _ _.
  assert (Hmessage : JS.utf8 (JS.toString value1) = JS.utf8 (JS.toString value2) ->
                     value1 = value2)
    by (intros H; apply FairnessFacts.toString_inj, FairnessFacts.utf8_inj, H).
  split; [split|].
  - intros Hsame. apply Hmessage, (FairnessFacts.demo_hmac_inj key), (Hsame demo_hmac).
  - intros -> hmac. reflexivity.
  - intros hmac Hne Hsame. unfold GameJs.calculateHMAC in Hsame.
    exists (JS.utf8 (JS.toString value1)), (JS.utf8 (JS.toString value2)).
    split; [intros H; apply Hne, Hmessage, H | exact Hsame].
Qed.

Lemma digest_binds_value_example :
  ((forall hmac, GameJs.calculateHMAC hmac (replicate 32 x07) (JS.Int 0)
                 = GameJs.calculateHMAC hmac (replicate 32 x07) JS.NaN)
   <-> JS.Int 0 = JS.NaN) /\
  (forall hmac,
     JS.Int 0 <> JS.NaN ->
     GameJs.calculateHMAC hmac (replicate 32 x07) (JS.Int 0)
       = GameJs.calculateHMAC hmac (replicate 32 x07) JS.NaN ->
     exists data1 data2,
       data1 <> data2 /\ hmac (replicate 32 x07) data1 = hmac (replicate 32 x07) data2).
Proof.
  exact (digest_binds_value (replicate 32 x07) (JS.Int 0) JS.NaN
           (or_intror (ex_intro _ 0 (conj eq_refl (conj (Z.le_refl 0) eq_refl))))
           (or_introl eq_refl)).
Defined.

(** The digest of the second variant binds the low byte of the value
    only: the message hashed is the single byte value mod 256. So two
    values have the same digest under every keyed hash exactly when they
    agree modulo 256, and a digest shared by two values that differ
    modulo 256 is a collision of the hash under that key. *)
Theorem variant_digest_binds_low_byte (f : Variant.FairRandomGenerator)
    (value1 value2 : Z) :
  ((forall hmac, Variant.generateHMAC hmac f value1 = Variant.generateHMAC hmac f value2)
   <-> value1 mod 256 = value2 mod 256) /\
  (forall hmac,
     value1 mod 256 <> value2 mod 256 ->
     Variant.generateHMAC hmac f value1 = Variant.generateHMAC hmac f value2 ->
     exists data1 data2,
       data1 <> data2 /\ hmac (Variant.key f) data1 = hmac (Variant.key f) data2).
Proof.
  assert (Hmessage : [JS.byte_of_Z (value1 mod 256)] = [JS.byte_of_Z (value2 mod 256)] ->
                     value1 mod 256 = value2 mod 256).
  { intros [= Hbyte]. apply FairnessFacts.byte_of_Z_inj in Hbyte;
      [exact Hbyte | apply Z.mod_pos_bound; lia | apply Z.mod_pos_bound; lia]. }
  split; [split|].
  - intros Hsame. apply Hmessage, (FairnessFacts.demo_hmac_inj (Variant.key f)), (Hsame demo_hmac).
  - intros Heq hmac. unfold Variant.generateHMAC. rewrite Heq. reflexivity.
  - intros hmac Hne Hsame. unfold Variant.generateHMAC in Hsame.
    exists [JS.byte_of_Z (value1 mod 256)], [JS.byte_of_Z (value2 mod 256)].
    split; [intros H; apply Hne, Hmessage, H | exact Hsame].
Qed.

(** What a session takes from the entropy: the first 32 bytes are the
    key; then come the rejected draws, four bytes each and each at or
    above the limit; then the four bytes of the accepted draw, which is
    below the limit and whose remainder is the value. Nothing else is
    read or written. *)
Theorem FairRandom_new_accounts_for_entropy hmac (N : Z) (w : world)
    (s : GameJs.FairRandom) (w' : world) :
  1 <= N -> GameJs.FairRandom_new hmac N w = (Ret s, w') ->
  exists rejected b0 b1 b2 b3,
    entropy w = GameJs.key s ++ rejected ++ [b0; b1; b2; b3] ++ entropy w' /\
    length (GameJs.key s) = 32%nat /\
    length rejected = (4 * length (GameJs.draws rejected))%nat /\
    Forall (fun d => 2 ^ 32 - 2 ^ 32 mod N <= d) (GameJs.draws rejected) /\
    JS.readUInt32BE [b0; b1; b2; b3] < 2 ^ 32 - 2 ^ 32 mod N /\
    GameJs.value s = JS.Int (JS.readUInt32BE [b0; b1; b2; b3] mod N) /\
    GameJs.hmac s = GameJs.calculateHMAC hmac (GameJs.key s) (GameJs.value s) /\
    randomInts w' = randomInts w /\ stdin w' = stdin w /\ stdout w' = stdout w.
Proof.
  apply RunFacts.FairRandom_new_Ret.
Qed.

Lemma FairRandom_new_accounts_for_entropy_example :
  exists rejected b0 b1 b2 b3,
    replicate 32 x07 ++ [xff; xff; xff; xff; x00; x00; x00; x09; x01]
      = replicate 32 x07 ++ rejected ++ [b0; b1; b2; b3] ++ [x01] /\
    length (replicate 32 x07) = 32%nat /\
    length rejected = (4 * length (GameJs.draws rejected))%nat /\
    Forall (fun d => 2 ^ 32 - 2 ^ 32 mod 6 <= d) (GameJs.draws rejected) /\
    JS.readUInt32BE [b0; b1; b2; b3] < 2 ^ 32 - 2 ^ 32 mod 6 /\
    JS.Int 3 = JS.Int (JS.readUInt32BE [b0; b1; b2; b3] mod 6) /\
    GameJs.calculateHMAC demo_hmac (replicate 32 x07) (JS.Int 3)
      = GameJs.calculateHMAC demo_hmac (replicate 32 x07) (JS.Int 3) /\
    @nil Z = [] /\ @nil string = [] /\ @nil event = [].
Proof.
  exact (FairRandom_new_accounts_for_entropy demo_hmac 6
           (World (replicate 32 x07 ++ [xff; xff; xff; xff; x00; x00; x00; x09; x01])
              [] [] [] true)
           scenario_session (World [x01] [] [] [] true)
           ltac:(lia) ltac:(vm_compute; reflexivity)).
Defined.

(** ** Further properties: the dialogue *)

(** How [getUserInput] ends, whatever is typed. It passes over the lines
    that are the table command or no valid input and stops at the first
    other line: it returns the number that line reads as, which is a
    valid input, or, the line being the exit command, prints the exit
    message and ends the process with code 0; with only lines to pass
    over it waits at the end of the input when the terminal is there,
    and fails with the error of readline-sync when there is none. The
    white space trimmed and the digits read are those of the language
    (Unicode white space, the nearest double). It takes nothing from the
    entropy or from the random integers. *)
Theorem getUserInput_stops_at_first_decisive_line (g : GameJs.DiceGame) (prompt : string)
    (validInputs : list Z) (w : world) :
  input_outcome prompt validInputs w (GameJs.getUserInput g prompt validInputs w).
Proof.
  apply RunFacts.getUserInput_outcome.
Qed.

(** The lines [7], [?] and U+00A0 followed by [1]: the first two are
    passed over, the third is read as 1. With no line and no terminal
    the call fails. *)
Lemma getUserInput_stops_at_first_decisive_line_example :
  input_outcome "? " [0; 1] (World [] [] ["7"; "?"; nbsp +:+ "1"; "0"] [] true)
    (Ret (JS.Int 1),
     World [] [] ["0"]
       (Asked "? " (nbsp +:+ "1")
        :: stdout (snd (GameJs.displayTable (GameJs.dice scenario_game)
                          (World [] [] [] [Asked "? " "?"; Said MsgInvalid; Asked "? " "7"]
                             true))))
       true) /\
  input_outcome "? " [0; 1] (World [] [] [] [] false)
    (Throw no_terminal, World [] [] [] [] false).
Proof.
  split.
  - exact (getUserInput_stops_at_first_decisive_line scenario_game "? " [0; 1]
             (World [] [] ["7"; "?"; nbsp +:+ "1"; "0"] [] true)).
  - exact (getUserInput_stops_at_first_decisive_line scenario_game "? " [0; 1]
             (World [] [] [] [] false)).
Defined.

(** The turn order is settled by one draw and one line. Range 2 divides
    2^32, so no draw is rejected and the session takes exactly 36 bytes
    of entropy; the lines that are no valid guess are passed over, and
    the user moves first exactly when the accepted guess (0 or 1) equals
    the parity of the draw, which the next line printed reveals together
    with the key. *)
Theorem turn_order_is_guess_against_one_draw hmac (g : GameJs.DiceGame) (w : world)
    (userFirst : bool) (w' : world) :
  GameJs.decide_first hmac g w = (Ret userFirst, w') ->
  exists keybytes b0 b1 b2 b3 skipped line guess earlier,
    entropy w = keybytes ++ [b0; b1; b2; b3] ++ entropy w' /\
    length keybytes = 32%nat /\
    stdin w = skipped ++ line :: stdin w' /\
    Forall (fun l => passed_over [0; 1] l = true) skipped /\
    JS.parseInt (JS.trim line) = JS.Int guess /\ (guess = 0 \/ guess = 1) /\
    userFirst = (guess =? JS.readUInt32BE [b0; b1; b2; b3] mod 2) /\
    randomInts w' = randomInts w /\
    stdout w' =
      Said (MsgMySelection (JS.Int (JS.readUInt32BE [b0; b1; b2; b3] mod 2))
              (JS.toHex keybytes))
      :: Asked "Try to guess my selection (0 or 1): " line :: earlier.
Proof.
  apply RunFacts.decide_first_Ret.
Qed.

Lemma turn_order_is_guess_against_one_draw_example :
  exists keybytes b0 b1 b2 b3 skipped line guess earlier,
    replicate 32 x07 ++ [xff; xff; xff; xff; x09] =
      keybytes ++ [b0; b1; b2; b3]
      ++ entropy (snd (GameJs.decide_first demo_hmac scenario_pool
                         (World (replicate 32 x07 ++ [xff; xff; xff; xff; x09]) []
                            ["2"; nbsp +:+ "1"; "0"] [] true))) /\
    length keybytes = 32%nat /\
    ["2"; nbsp +:+ "1"; "0"] =
      skipped ++ line
      :: stdin (snd (GameJs.decide_first demo_hmac scenario_pool
                       (World (replicate 32 x07 ++ [xff; xff; xff; xff; x09]) []
                          ["2"; nbsp +:+ "1"; "0"] [] true))) /\
    Forall (fun l => passed_over [0; 1] l = true) skipped /\
    JS.parseInt (JS.trim line) = JS.Int guess /\ (guess = 0 \/ guess = 1) /\
    true = (guess =? JS.readUInt32BE [b0; b1; b2; b3] mod 2) /\
    randomInts (snd (GameJs.decide_first demo_hmac scenario_pool
                       (World (replicate 32 x07 ++ [xff; xff; xff; xff; x09]) []
                          ["2"; nbsp +:+ "1"; "0"] [] true))) = [] /\
    stdout (snd (GameJs.decide_first demo_hmac scenario_pool
                   (World (replicate 32 x07 ++ [xff; xff; xff; xff; x09]) []
                      ["2"; nbsp +:+ "1"; "0"] [] true))) =
      Said (MsgMySelection (JS.Int (JS.readUInt32BE [b0; b1; b2; b3] mod 2))
              (JS.toHex keybytes))
      :: Asked "Try to guess my selection (0 or 1): " line :: earlier.
Proof.
  exact (turn_order_is_guess_against_one_draw demo_hmac scenario_pool
           (World (replicate 32 x07 ++ [xff; xff; xff; xff; x09]) [] ["2"; nbsp +:+ "1"; "0"] [] true)
           true _ ltac:(vm_compute; reflexivity)).
Defined.

(** When [userSelectDice] returns, the user holds the die at the position
    typed, that die has left the pool and the rest of the pool keeps its
    order; the computer's die is untouched, and so are the entropy and
    the random integers. *)
Theorem userSelectDice_takes_chosen_die (g : GameJs.DiceGame) (w : world)
    (g' : GameJs.DiceGame) (w' : world) :
  GameJs.userSelectDice g w = (Ret g', w') ->
  exists (i : nat) (d : GameJs.Dice),
    GameJs.dice g !! i = Some d /\
    g' = {| GameJs.dice := delete i (GameJs.dice g);
            GameJs.availableDice := GameJs.availableDice g;
            GameJs.userDice := Some d;
            GameJs.computerDice := GameJs.computerDice g |} /\
    entropy w' = entropy w /\ randomInts w' = randomInts w /\
    exists skipped line,
      stdin w = skipped ++ line :: stdin w' /\
      Forall (fun l => passed_over (JS.keys (length (GameJs.dice g))) l = true) skipped /\
      JS.parseInt (JS.trim line) = JS.Int (Z.of_nat i).
Proof.
  apply RunFacts.userSelectDice_Ret.
Qed.

Lemma userSelectDice_takes_chosen_die_example :
  exists (i : nat) (d : GameJs.Dice),
    GameJs.dice scenario_pool !! i = Some d /\
    {| GameJs.dice := [scenario_die; {| GameJs.values := map JS.Int [3; 3; 5; 5; 7; 7] |}];
       GameJs.availableDice := GameJs.dice scenario_pool;
       GameJs.userDice := Some {| GameJs.values := map JS.Int [1; 1; 6; 6; 8; 8] |};
       GameJs.computerDice := None |}
    = {| GameJs.dice := delete i (GameJs.dice scenario_pool);
         GameJs.availableDice := GameJs.availableDice scenario_pool;
         GameJs.userDice := Some d;
         GameJs.computerDice := GameJs.computerDice scenario_pool |} /\
    entropy (snd (GameJs.userSelectDice scenario_pool (World [] [] ["?"; "7"; nbsp +:+ "1"; "0"] [] true)))
      = [] /\
    randomInts (snd (GameJs.userSelectDice scenario_pool (World [] [] ["?"; "7"; nbsp +:+ "1"; "0"] [] true)))
      = [] /\
    exists skipped line,
      ["?"; "7"; nbsp +:+ "1"; "0"] = skipped ++ line
        :: stdin (snd (GameJs.userSelectDice scenario_pool
                         (World [] [] ["?"; "7"; nbsp +:+ "1"; "0"] [] true))) /\
      Forall (fun l => passed_over (JS.keys (length (GameJs.dice scenario_pool))) l = true)
        skipped /\
      JS.parseInt (JS.trim line) = JS.Int (Z.of_nat i).
Proof.
  exact (userSelectDice_takes_chosen_die scenario_pool (World [] [] ["?"; "7"; nbsp +:+ "1"; "0"] [] true)
           _ _ ltac:(vm_compute; reflexivity)).
Defined.

(** How [computerSelectDice] ends. On a pool that is empty,
    [crypto.randomInt(0)] raises its range error and nothing changes;
    otherwise the die at the index drawn becomes the computer's, leaves
    the pool and is announced, the user's die is untouched, and reading
    the values of the removed die never fails. *)
Theorem computerSelectDice_outcomes (g : GameJs.DiceGame) (w : world) :
  match GameJs.computerSelectDice g w with
  | (Ret g', w') =>
      exists (i : nat) (d : GameJs.Dice),
        randomInts w = Z.of_nat i :: randomInts w' /\
        GameJs.dice g !! i = Some d /\
        g' = {| GameJs.dice := delete i (GameJs.dice g);
                GameJs.availableDice := GameJs.availableDice g;
                GameJs.userDice := GameJs.userDice g;
                GameJs.computerDice := Some d |} /\
        entropy w' = entropy w /\ stdin w' = stdin w /\
        stdout w' = Said (MsgIChoose (GameJs.values d)) :: stdout w
  | (Exit _, _) => False
  | (Throw error, w') => GameJs.dice g = [] /\ error = "ERR_OUT_OF_RANGE" /\ w' = w
  | (Stall, w') =>
      GameJs.dice g <> [] /\ w' = w /\
      match randomInts w with
      | [] => True
      | r :: _ => ~ (0 <= r < Z.of_nat (length (GameJs.dice g)))
      end
  end.
Proof.
  apply RunFacts.computerSelectDice_cases.
Qed.

(** A game that runs to its end was played with two dice of different
    positions of the pool, so the pool held at least two: the user's
    throw is a face of the one, the computer's a face of the other, and
    the last three lines are the two throws and the verdict, which goes
    to the greater face and is a tie otherwise. *)
Theorem start_plays_two_different_dice hmac (g : GameJs.DiceGame) (w w' : world) :
  GameJs.start hmac g w = (Ret tt, w') ->
  (2 <= length (GameJs.dice g))%nat /\
  exists i j d1 d2 u c earlier,
    i <> j /\ GameJs.dice g !! i = Some d1 /\ GameJs.dice g !! j = Some d2 /\
    In u (GameJs.values d1) /\ In c (GameJs.values d2) /\
    stdout w' =
      Said (if JS.gt u c then MsgYouWin else if JS.lt u c then MsgIWin else MsgTie)
      :: Said (MsgMyThrow (Some c)) :: Said (MsgYourThrow (Some u)) :: earlier.
Proof.
  intros Hrun.
  destruct (RunFacts.start_Ret hmac g w w' Hrun)
    as (i & j & d1 & d2 & u & c & earlier & Hne & Hi & Hj & Hrest).
  split.
  - pose proof (lookup_lt_Some _ _ _ Hi). pose proof (lookup_lt_Some _ _ _ Hj). lia.
  - exists i, j, d1, d2, u, c, earlier. auto.
Qed.

Lemma start_plays_two_different_dice_example :
  (2 <= length (GameJs.dice scenario_pool))%nat /\
  exists i j d1 d2 u c earlier,
    i <> j /\ GameJs.dice scenario_pool !! i = Some d1 /\
    GameJs.dice scenario_pool !! j = Some d2 /\
    In u (GameJs.values d1) /\ In c (GameJs.values d2) /\
    stdout (snd (GameJs.start demo_hmac scenario_pool scenario_play_world)) =
      Said (if JS.gt u c then MsgYouWin else if JS.lt u c then MsgIWin else MsgTie)
      :: Said (MsgMyThrow (Some c)) :: Said (MsgYourThrow (Some u)) :: earlier.
Proof.
  exact (start_plays_two_different_dice demo_hmac scenario_pool scenario_play_world _
           ltac:(vm_compute; reflexivity)).
Defined.

(** The one exception game.js can end in is that of readline-sync for
    want of a terminal: whatever the arguments, the entropy and the lines
    typed, [main] returns, waits, ends the process with code 1 (an
    argument error) or code 0 (the exit command), or fails with that
    error in a world that has no terminal. Neither the range error of
    [crypto.randomInt] nor a read of a die that is [undefined] is
    reachable. *)
Theorem main_fails_only_without_terminal hmac (args : list string) (w : world) :
  match fst (GameJs.main hmac args w) with
  | Ret _ => True
  | Exit code => code = 0 \/ code = 1
  | Throw error => error = no_terminal /\ terminal w = false
  | Stall => True
  end.
Proof.
  exact (proj2 (ReportFacts.only_terminal_error_main hmac args w)).
Qed.

(** Started with no terminal, the game fails at its first question. *)
Lemma main_fails_only_without_terminal_example :
  exists error,
    fst (GameJs.main demo_hmac ["2,2,4,4,9,9"; "1,1,6,6,8,8"; "3,3,5,5,7,7"]
           (World (replicate 32 x07 ++ [x00; x00; x00; x01]) [] [] [] false))
      = Throw error /\
    error = no_terminal.
Proof.
  pose proof (main_fails_only_without_terminal demo_hmac
                ["2,2,4,4,9,9"; "1,1,6,6,8,8"; "3,3,5,5,7,7"]
                (World (replicate 32 x07 ++ [x00; x00; x00; x01]) [] [] [] false)) as Hmain.
  destruct (fst (GameJs.main demo_hmac _ _)) as [u|c|error|] eqn:Hrun;
    [vm_compute in Hrun; discriminate | vm_compute in Hrun; discriminate | |
     vm_compute in Hrun; discriminate].
  exists error. split; [reflexivity | exact (proj1 Hmain)].
Defined.

(** ** Further properties: arguments and table *)

(** What [parseDice] does to the world. Accepted arguments leave it as it
    was. Rejected ones add one error line, read nothing, and end the
    process with code 1: with fewer than three arguments the line says
    so; otherwise it is about the first argument that does not pass, with
    its position counted from 1, and names the first token of it that is
    no number, or, when all its tokens are numbers, says that they are
    not six. *)
Theorem parseDice_reports_first_bad_argument (args : list string) (w : world) :
  match GameJs.parseDice args w with
  | (Ret dice, w') =>
      w' = w /\ dice = map die_of args /\
      (3 <= length args)%nat /\ forallb arg_passes args = true
  | (Exit code, w') =>
      code = 1 /\
      exists msg,
        w' = World (entropy w) (randomInts w) (stdin w) (Said msg :: stdout w) (terminal w) /\
        ((length args < 3)%nat /\ msg = MsgErrTooFew \/
         (3 <= length args)%nat /\
         exists i arg,
           args !! i = Some arg /\ arg_passes arg = false /\
           (forall j a, (j < i)%nat -> args !! j = Some a -> arg_passes a = true) /\
           msg = match List.find (fun token => negb (token_passes token))
                         (JS.split_comma arg) with
                 | Some token => MsgErrNonInteger (Z.of_nat i + 1) token
                 | None => MsgErrNotSix (Z.of_nat i + 1)
                 end)
  | (Throw _, _) => False
  | (Stall, _) => False
  end.
Proof.
  apply ReportFacts.parseDice_cases.
Qed.

(** The second argument has a token that is no number; the first, with
    its token that begins with U+00A0, passes. *)
Lemma parseDice_reports_first_bad_argument_example :
  exists msg,
    GameJs.parseDice [nbsp +:+ "2,2,4,4,9,9"; "1,1,x,6,8,y"; "3"] (World [] [] [] [] true)
      = (Exit 1, World [] [] [] [Said msg] true) /\
    msg = MsgErrNonInteger 2 "x".
Proof.
  pose proof (parseDice_reports_first_bad_argument
                [nbsp +:+ "2,2,4,4,9,9"; "1,1,x,6,8,y"; "3"] (World [] [] [] [] true)) as Hcase.
  destruct (GameJs.parseDice _ _) as [[dice|code| |] w'] eqn:Hrun;
    [vm_compute in Hrun; discriminate | | destruct Hcase | destruct Hcase].
  destruct Hcase as (-> & msg & -> & _).
  exists msg. split; [reflexivity|].
  vm_compute in Hrun. injection Hrun as Hmsg. symmetry. exact Hmsg.
Defined.

(** What the second variant's [parseArgs] accepts: at least three
    arguments, each of six tokens that [Number] turns into doubles that
    are integers; the faces are those integers. Fewer arguments raise the error about three
    configurations, any other list the error of the [Dice] constructor;
    the world is left as it was. *)
Theorem parseArgs_accepts_exactly (args : list string) (w : world) :
  Variant.parseArgs args w =
    if (length args <? 3)%nat
    then (Throw "At least three dice configurations are required.", w)
    else if forallb variant_arg_passes args then (Ret (map variant_die_of args), w)
    else (Throw "Each dice must have 6 integer values.", w).
Proof.
  apply ReportFacts.parseArgs_run.
Qed.

(** A token too small for a double is the integer 0, one that begins
    with U+00A0 is read without it, and one of too many digits is
    rounded. *)
Lemma parseArgs_accepts_exactly_example :
  Variant.parseArgs ["1e-400,2,4,4,9,9"; nbsp +:+ "1,1,6,6,8,8"; "3,3,5,5,7,9007199254740993"]
    (World [] [] [] [] true)
    = (Ret [ {| Variant.values := map JS.Int [0; 2; 4; 4; 9; 9] |};
             {| Variant.values := map JS.Int [1; 1; 6; 6; 8; 8] |};
             {| Variant.values := map JS.Int [3; 3; 5; 5; 7; 9007199254740992] |} ],
       World [] [] [] [] true).
Proof.
  refine (eq_trans (parseArgs_accepts_exactly _ _) _).
  vm_compute. reflexivity.
Defined.

(** Dice that the second variant has accepted are six integers each, so
    for any two of them both directions count 36 pairs, and the wins of
    the one, the wins of the other and the ties add up to 36. *)
Theorem parsed_dice_cells_total_36 (args : list string) (w : world)
    (diceSet : list Variant.Dice) (w' : world) (i j : nat) (d1 d2 : Variant.Dice) :
  Variant.parseArgs args w = (Ret diceSet, w') ->
  diceSet !! i = Some d1 -> diceSet !! j = Some d2 ->
  length diceSet = length args /\ (3 <= length args)%nat /\
  exists W1 W2,
    Variant.count_rolls d1 d2 = (W1, 36) /\
    Variant.count_rolls d2 d1 = (W2, 36) /\
    W1 + W2 + ties (Variant.values d1) (Variant.values d2) = 36.
Proof.
  rewrite ReportFacts.parseArgs_run.
  destruct (length args <? 3)%nat eqn:E; [discriminate|]. apply Nat.ltb_ge in E.
  destruct (forallb variant_arg_passes args) eqn:Hall; [|discriminate].
  intros [= <- _] Hi Hj.
  destruct (ReportFacts.parsed_die args i d1 Hall Hi) as (faces1 & H1 & Hlen1).
  destruct (ReportFacts.parsed_die args j d2 Hall Hj) as (faces2 & H2 & Hlen2).
  split; [apply length_map|]. split; [exact E|].
  exists (wins (Variant.values d1) (Variant.values d2)),
         (wins (Variant.values d2) (Variant.values d1)).
  rewrite !CountFacts.count_rolls_spec, H1, H2, !length_map, Hlen1, Hlen2.
  split; [reflexivity|]. split; [reflexivity|].
  pose proof (CountFacts.wins_ties_total faces1 faces2) as Htotal.
  rewrite Hlen1, Hlen2 in Htotal. exact Htotal.
Qed.

Lemma parsed_dice_cells_total_36_example :
  length scenario_dice = length ["2,2,4,4,9,9"; "1,1,6,6,8,8"; "3,3,5,5,7,7"] /\
  (3 <= length ["2,2,4,4,9,9"; "1,1,6,6,8,8"; "3,3,5,5,7,7"])%nat /\
  exists W1 W2,
    Variant.count_rolls {| Variant.values := map JS.Int [2; 2; 4; 4; 9; 9] |}
                        {| Variant.values := map JS.Int [1; 1; 6; 6; 8; 8] |} = (W1, 36) /\
    Variant.count_rolls {| Variant.values := map JS.Int [1; 1; 6; 6; 8; 8] |}
                        {| Variant.values := map JS.Int [2; 2; 4; 4; 9; 9] |} = (W2, 36) /\
    W1 + W2 + ties (map JS.Int [2; 2; 4; 4; 9; 9]) (map JS.Int [1; 1; 6; 6; 8; 8]) = 36.
Proof.
  exact (parsed_dice_cells_total_36 ["2,2,4,4,9,9"; "1,1,6,6,8,8"; "3,3,5,5,7,7"]
           (World [] [] [] [] true) scenario_dice (World [] [] [] [] true) 0 1 _ _
           ltac:(vm_compute; reflexivity) eq_refl eq_refl).
Defined.


